(** * folder_synchronizer: one-way mirroring of a source folder into a replica

    A shallow embedding of [folder_synchronizer.py] ([synchronize] and [main])
    over a model of the file system as a finite map from absolute paths to
    entries, with the calls of [pathlib], [shutil], [hashlib], [logging] and
    [time] the program makes, and the properties of one pass and of the
    driver. *)

From Stdlib Require Import ZArith Ascii String Strings.Byte.
From stdpp Require Import base option list gmap strings.

Local Open Scope Z_scope.

(** ** [hashlib.md5]: the MD5 digest of RFC 1321

    [synchronize] decides whether a replica file must be rewritten by
    comparing [hashlib.md5(...).hexdigest()] of the two files.  The digest is
    defined here on 32-bit words carried as [Z] with the wrap-around written
    out. *)

Module MD5.

Definition w32 (x : Z) : Z := x mod 2 ^ 32.

Definition add32 (x y : Z) : Z := w32 (x + y).

Definition not32 (x : Z) : Z := Z.lxor x 0xffffffff.

Definition rotl32 (x c : Z) : Z :=
  w32 (Z.lor (Z.shiftl x c) (Z.shiftr x (32 - c))).

(** [K i = floor (2^32 * abs (sin (i + 1)))]. *)
Definition K : list Z := [
  0xd76aa478; 0xe8c7b756; 0x242070db; 0xc1bdceee;
  0xf57c0faf; 0x4787c62a; 0xa8304613; 0xfd469501;
  0x698098d8; 0x8b44f7af; 0xffff5bb1; 0x895cd7be;
  0x6b901122; 0xfd987193; 0xa679438e; 0x49b40821;
  0xf61e2562; 0xc040b340; 0x265e5a51; 0xe9b6c7aa;
  0xd62f105d; 0x02441453; 0xd8a1e681; 0xe7d3fbc8;
  0x21e1cde6; 0xc33707d6; 0xf4d50d87; 0x455a14ed;
  0xa9e3e905; 0xfcefa3f8; 0x676f02d9; 0x8d2a4c8a;
  0xfffa3942; 0x8771f681; 0x6d9d6122; 0xfde5380c;
  0xa4beea44; 0x4bdecfa9; 0xf6bb4b60; 0xbebfbc70;
  0x289b7ec6; 0xeaa127fa; 0xd4ef3085; 0x04881d05;
  0xd9d4d039; 0xe6db99e5; 0x1fa27cf8; 0xc4ac5665;
  0xf4292244; 0x432aff97; 0xab9423a7; 0xfc93a039;
  0x655b59c3; 0x8f0ccc92; 0xffeff47d; 0x85845dd1;
  0x6fa87e4f; 0xfe2ce6e0; 0xa3014314; 0x4e0811a1;
  0xf7537e82; 0xbd3af235; 0x2ad7d2bb; 0xeb86d391 ].

(** Per-round left rotations. *)
Definition shifts : list Z := [
  7; 12; 17; 22; 7; 12; 17; 22; 7; 12; 17; 22; 7; 12; 17; 22;
  5; 9; 14; 20; 5; 9; 14; 20; 5; 9; 14; 20; 5; 9; 14; 20;
  4; 11; 16; 23; 4; 11; 16; 23; 4; 11; 16; 23; 4; 11; 16; 23;
  6; 10; 15; 21; 6; 10; 15; 21; 6; 10; 15; 21; 6; 10; 15; 21 ].

Record state := State { sa : Z; sb : Z; sc : Z; sd : Z }.

Definition init : state :=
  State 0x67452301 0xefcdab89 0x98badcfe 0x10325476.

(** Little-endian word of four bytes. *)
Definition word_le (b0 b1 b2 b3 : Z) : Z :=
  b0 + 2 ^ 8 * b1 + 2 ^ 16 * b2 + 2 ^ 24 * b3.

Fixpoint words (bs : list Z) : list Z :=
  match bs with
  | b0 :: b1 :: b2 :: b3 :: rest => word_le b0 b1 b2 b3 :: words rest
  | _ => []
  end.

(** The message followed by [0x80], zeros up to 56 mod 64, and the bit
    length on 64 bits, little-endian. *)
Definition le_bytes (n : nat) (x : Z) : list Z :=
  (λ i : nat, (x / 2 ^ (8 * Z.of_nat i)) mod 256) <$> seq 0 n.

Definition pad (msg : list Z) : list Z :=
  let len := Z.of_nat (length msg) in
  let zeros := Z.to_nat ((55 - len) mod 64) in
  msg ++ [0x80] ++ replicate zeros 0 ++ le_bytes 8 ((8 * len) mod 2 ^ 64).

Definition mix (i : Z) (b c d : Z) : Z * Z :=
  if i <? 16 then (Z.lor (Z.land b c) (Z.land (not32 b) d), i)
  else if i <? 32 then (Z.lor (Z.land d b) (Z.land (not32 d) c), (5 * i + 1) mod 16)
  else if i <? 48 then (Z.lxor (Z.lxor b c) d, (3 * i + 5) mod 16)
  else (Z.lxor c (Z.lor b (not32 d)), (7 * i) mod 16).

Definition round (M : list Z) (st : state) (i : nat) : state :=
  let '(State a b c d) := st in
  let '(f, g) := mix (Z.of_nat i) b c d in
  let f' := add32 (add32 (add32 f a) (K !!! i)) (M !!! Z.to_nat g) in
  State d (add32 b (rotl32 f' (shifts !!! i))) b c.

Definition block (st : state) (M : list Z) : state :=
  let '(State a b c d) := foldl (round M) st (seq 0 64) in
  State (add32 (sa st) a) (add32 (sb st) b) (add32 (sc st) c) (add32 (sd st) d).

Fixpoint blocks (n : nat) (st : state) (ws : list Z) : state :=
  match n with
  | O => st
  | S n' => blocks n' (block st (take 16 ws)) (drop 16 ws)
  end.

Definition digest (msg : list byte) : list Z :=
  let ws := words (pad ((λ b, Z.of_N (Byte.to_N b)) <$> msg)) in
  let '(State a b c d) := blocks (length ws / 16) init ws in
  le_bytes 4 a ++ le_bytes 4 b ++ le_bytes 4 c ++ le_bytes 4 d.

Definition hex_digit (x : Z) : ascii :=
  if x <? 10 then ascii_of_nat (Z.to_nat (48 + x))
  else ascii_of_nat (Z.to_nat (87 + x)).

Fixpoint hex (bs : list Z) : string :=
  match bs with
  | [] => EmptyString
  | b :: rest => String (hex_digit (b / 16)) (String (hex_digit (b mod 16)) (hex rest))
  end.

Definition hexdigest (msg : list byte) : string := hex (digest msg).

End MD5.

Definition bytes_of (s : string) : list byte := list_byte_of_string s.


(** ** The file system

    One store for the whole machine: a finite map from absolute paths (the
    list of components below the root, [[]] being the root) to entries.  The
    source and the replica are two paths of that store, as they are two
    [Path] objects for the program.  A regular file carries its bytes and the
    permission bits [shutil.copy] carries over; symbolic links are left out. *)

Inductive entry :=
  | EFile (data : list byte) (mode : Z)
  | EDir.

Abbreviation path := (list string) (only parsing).
Abbreviation fs := (gmap (list string) entry) (only parsing).

(** What the entries of two trees are compared on: the kind of the entry and,
    for a file, its bytes. *)
Inductive content :=
  | CFile (data : list byte)
  | CDir.

Definition content_of (e : entry) : content :=
  match e with
  | EFile data _ => CFile data
  | EDir => CDir
  end.

Definition view (f : fs) (p : path) : option content := content_of <$> f !! p.

(** [Path.parent] and [Path.name]. *)
Definition parent (p : path) : path := removelast p.

Definition name (p : path) : string := List.last p EmptyString.

(** [strip p k] is the path of [k] relative to [p], when [k] lies under [p]. *)
Fixpoint strip (p k : path) : option path :=
  match p, k with
  | [], _ => Some k
  | a :: p', b :: k' => if decide (a = b) then strip p' k' else None
  | _ :: _, [] => None
  end.

Definition under (p k : path) : bool :=
  match strip p k with Some _ => true | None => false end.

Definition strictly_under (p k : path) : bool :=
  match strip p k with Some (_ :: _) => true | _ => false end.

(** [Path.exists], [Path.is_dir] and the names [Path.glob('*')] yields: the
    children of a directory, none for a file or a missing path. *)
Definition exists_ (p : path) (f : fs) : bool :=
  match f !! p with Some _ => true | None => false end.

Definition is_dir (p : path) (f : fs) : bool :=
  match f !! p with Some EDir => true | _ => false end.

Definition child_name (p k : path) : option string :=
  match strip p k with Some [n] => Some n | _ => None end.

Definition glob_star (p : path) (f : fs) : list string :=
  if is_dir p f then omap (child_name p) (elements (dom f)) else [].

(** ** Exceptions, log records and the calls that change the world *)

Inductive exn :=
  | AssertionError
  | FileNotFoundError
  | FileExistsError
  | NotADirectoryError
  | IsADirectoryError
  | SameFileError
  | RecursionError
  | ValueError
  | PermissionError
  | OverflowError.

Inductive level := INFO | WARNING.

(** The five format strings of [synchronize] and the one of [main], with
    their arguments. *)
Inductive message :=
  | Checking (replica source : path)
  | Removing (p : path)
  | Creating (p : path)
  | Updating (p : path)
  | Adding (p : path)
  | EnteringSleep (seconds : Z).

Inductive call :=
  | Rmtree (p : path)
  | Unlink (p : path)
  | Mkdir (p : path)
  | Copy (src dst : path)
  | Sleep (seconds : Z).

Inductive item :=
  | Log (l : level) (m : message)
  | Call (c : call).

Global Instance level_eq_dec : EqDecision level.
Proof. solve_decision. Defined.
Global Instance message_eq_dec : EqDecision message.
Proof. solve_decision. Defined.
Global Instance call_eq_dec : EqDecision call.
Proof. solve_decision. Defined.
Global Instance item_eq_dec : EqDecision item.
Proof. solve_decision. Defined.

(** The replica-side path a record or a call is about. *)
Definition message_path (m : message) : option path :=
  match m with
  | Checking replica _ => Some replica
  | Removing p | Creating p | Updating p | Adding p => Some p
  | EnteringSleep _ => None
  end.

(** The path a call writes to, deletes or creates. *)
Definition call_target (c : call) : option path :=
  match c with
  | Rmtree p | Unlink p | Mkdir p => Some p
  | Copy _ dst => Some dst
  | Sleep _ => None
  end.

Definition item_path (it : item) : option path :=
  match it with
  | Log _ m => message_path m
  | Call c => call_target c
  end.

(** A record of a change: every [logger.warning] of the program. *)
Definition is_mutating (it : item) : bool :=
  match it with
  | Log WARNING _ => true
  | Log INFO _ => false
  | Call (Sleep _) => false
  | Call _ => true
  end.

(** ** Computations

    A computation runs from a store and yields the records and calls it
    made, in order, the store it leaves, and how it ended: with a value, with
    an exception, or still running when the observation stops (the polling
    loop of [main] has no exit). *)

Inductive res (A : Type) :=
  | Ret (a : A)
  | Raise (e : exn)
  | Running.
Arguments Ret {A} a.
Arguments Raise {A} e.
Arguments Running {A}.

Record run (A : Type) := Run {
  trace : list item;
  final : gmap (list string) entry;
  value : res A
}.
Arguments Run {A} trace final value.
Arguments trace {A} r.
Arguments final {A} r.
Arguments value {A} r.

Definition M (A : Type) : Type := gmap (list string) entry → run A.

Definition ret {A} (a : A) : M A := λ f, Run [] f (Ret a).

Definition raise {A} (e : exn) : M A := λ f, Run [] f (Raise e).

Definition bind {A B} (m : M A) (k : A → M B) : M B := λ f,
  let r := m f in
  match value r with
  | Ret a => let r' := k a (final r) in Run (trace r ++ trace r') (final r') (value r')
  | Raise e => Run (trace r) (final r) (Raise e)
  | Running => Run (trace r) (final r) Running
  end.

Declare Scope fsync_scope.
Delimit Scope fsync_scope with fsync.
Notation "x <- c ;; k" := (bind c (λ x, k))
  (at level 100, c at next level, right associativity) : fsync_scope.
Notation "c ;; k" := (bind c (λ _, k))
  (at level 100, right associativity) : fsync_scope.
Local Open Scope fsync_scope.

(** [for x in xs: body x]; an exception leaves the loop. *)
Fixpoint for_each {X} (xs : list X) (body : X → M unit) : M unit :=
  match xs with
  | [] => ret tt
  | x :: rest => body x ;; for_each rest body
  end.

Definition emit (it : item) : M unit := λ f, Run [it] f (Ret tt).

Definition log (l : level) (m : message) : M unit := emit (Log l m).

Definition observe {A} (q : fs → A) : M A := λ f, Run [] f (Ret (q f)).

Definition put (f : fs) : M unit := λ _, Run [] f (Ret tt).

(** ** The calls of [pathlib], [shutil] and [time] *)

(** The permission bits the calls below test.  The process owns every file
    and is not the superuser, so that opening a file for reading needs the
    owner's read bit of its mode ([0o400]) and opening an existing file for
    writing the owner's write bit ([0o200]). *)
Definition readable (mode : Z) : bool := Z.testbit mode 8.

Definition writable (mode : Z) : bool := Z.testbit mode 7.

(** [Path.read_bytes]. *)
Definition read_bytes (p : path) : M (list byte) := λ f,
  match f !! p with
  | Some (EFile data mode) =>
    if readable mode then Run [] f (Ret data)
    else Run [] f (Raise PermissionError)
  | Some EDir => Run [] f (Raise IsADirectoryError)
  | None => Run [] f (Raise FileNotFoundError)
  end.

(** [shutil.rmtree]: the directory and everything below it. *)
Definition rmtree (p : path) : M unit :=
  emit (Call (Rmtree p)) ;;
  f <- observe id ;;
  match f !! p with
  | Some EDir => put (filter (λ kv, under p kv.1 = false) f)
  | Some (EFile _ _) => raise NotADirectoryError
  | None => raise FileNotFoundError
  end.

(** [Path.unlink]. *)
Definition unlink (p : path) : M unit :=
  emit (Call (Unlink p)) ;;
  f <- observe id ;;
  match f !! p with
  | Some (EFile _ _) => put (delete p f)
  | Some EDir => raise IsADirectoryError
  | None => raise FileNotFoundError
  end.

(** What creating the entry [p] needs of its parent. *)
Definition create (p : path) (e : entry) : M unit :=
  f <- observe id ;;
  match f !! parent p with
  | Some EDir => put (<[p := e]> f)
  | Some (EFile _ _) => raise NotADirectoryError
  | None => raise FileNotFoundError
  end.

(** [Path.mkdir], not recursive. *)
Definition mkdir (p : path) : M unit :=
  emit (Call (Mkdir p)) ;;
  f <- observe id ;;
  match f !! p with
  | Some _ => raise FileExistsError
  | None => create p EDir
  end.

(** [shutil.copy]: into [dst] when it is a directory, the bytes
    ([copyfile]: the source is opened for reading, then the destination for
    writing), then the permission bits ([copymode]). *)
Definition copy (src dst : path) : M unit :=
  emit (Call (Copy src dst)) ;;
  f <- observe id ;;
  let dst := if is_dir dst f then dst ++ [name src] else dst in
  if exists_ src f && bool_decide (src = dst) then raise SameFileError else
  match f !! src with
  | None => raise FileNotFoundError
  | Some EDir => raise IsADirectoryError
  | Some (EFile data mode) =>
    if negb (readable mode) then raise PermissionError else
    match f !! dst with
    | Some EDir => raise IsADirectoryError
    | Some (EFile _ mode') =>
      if writable mode' then put (<[dst := EFile data mode]> f)
      else raise PermissionError
    | None => create dst (EFile data mode)
    end
  end.

(** [time.sleep]: the interval is first converted to nanoseconds in a signed
    64-bit integer, which holds 9223372036 seconds and no more; a negative
    interval is refused after that. *)
Definition sleep (seconds : Z) : M unit :=
  emit (Call (Sleep seconds)) ;;
  if (seconds <? -9223372036) || (9223372036 <? seconds) then raise OverflowError
  else if seconds <? 0 then raise ValueError
  else ret tt.

(** [a ^ b] on sets. *)
Definition symmetric_difference (a b : gset string) : gset string :=
  (a ∖ b) ∪ (b ∖ a).

(** ** [synchronize]

    [depth] is the number of nested calls the interpreter still allows: the
    function recurses into every directory of the source, and Python raises
    [RecursionError] past its limit.  The logger is the trace. *)
Fixpoint synchronize (depth : nat) (source_path replica_path : path) : M unit :=
  match depth with
  | O => raise RecursionError
  | S depth =>
    log INFO (Checking replica_path source_path) ;;
    source_objects <- observe (glob_star source_path) ;;
    replica_objects <- observe (glob_star replica_path) ;;
    (* Obtain distinct objects if they exist. *)
    let source_objects_set : gset string := list_to_set source_objects in
    let replica_objects_set : gset string := list_to_set replica_objects in
    let distinct_objects_set :=
      symmetric_difference source_objects_set replica_objects_set in
    (* Remove them if they are in replica folder. *)
    for_each (elements distinct_objects_set) (λ distinct_object,
      let old_object_path := replica_path ++ [distinct_object] in
      present <- observe (exists_ old_object_path) ;;
      if present : bool then
        log WARNING (Removing old_object_path) ;;
        old_is_dir <- observe (is_dir old_object_path) ;;
        if old_is_dir : bool then rmtree old_object_path
        else unlink old_object_path
      else ret tt) ;;
    (* Reobtain objects: the generator runs when the loop below starts. *)
    source_objects <- observe (glob_star source_path) ;;
    (* Synchronize. *)
    for_each source_objects (λ source_object,
      let source_target_path := source_path ++ [source_object] in
      let replica_target_path := replica_path ++ [source_object] in
      source_is_dir <- observe (is_dir source_target_path) ;;
      if source_is_dir : bool then
        present <- observe (exists_ replica_target_path) ;;
        (if present : bool then ret tt
         else log WARNING (Creating replica_target_path) ;;
              mkdir replica_target_path) ;;
        synchronize depth source_target_path replica_target_path
      else
        present <- observe (exists_ replica_target_path) ;;
        if present : bool then
          source_bytes <- read_bytes source_target_path ;;
          let source_hash := MD5.hexdigest source_bytes in
          replica_bytes <- read_bytes replica_target_path ;;
          let replica_hash := MD5.hexdigest replica_bytes in
          if bool_decide (source_hash ≠ replica_hash) then
            log WARNING (Updating replica_target_path) ;;
            copy source_target_path replica_target_path
          else ret tt
        else
          log WARNING (Adding replica_target_path) ;;
          copy source_target_path replica_target_path)
  end.

(** ** [main]

    The handlers of the logger are configuration and are left out; [cycles]
    is how many rounds of the polling loop are observed. *)
Fixpoint polling (cycles depth : nat) (source_path replica_path : path)
    (poll_interval : Z) : M unit :=
  match cycles with
  | O => λ f, Run [] f Running
  | S cycles =>
    synchronize depth source_path replica_path ;;
    log INFO (EnteringSleep poll_interval) ;;
    sleep poll_interval ;;
    polling cycles depth source_path replica_path poll_interval
  end.

Definition main (cycles depth : nat) (source_folder replica_folder : path)
    (poll_interval : Z) : M unit :=
  (* Check source path. *)
  let source_path := source_folder in
  source_exists <- observe (exists_ source_path) ;;
  if negb source_exists then raise AssertionError else
  (* Check replica path. *)
  let replica_path := replica_folder in
  replica_exists <- observe (exists_ replica_path) ;;
  (if negb replica_exists then mkdir replica_path else ret tt) ;;
  (* Check poll interval. *)
  if bool_decide (0 = poll_interval) then
    synchronize depth source_path replica_path
  else
    polling cycles depth source_path replica_path poll_interval.

(** ** The conditions and the contracts of the statements

    The conditions on a store are boolean functions, so that they can be
    evaluated on a given store. *)

Global Instance byte_eq_dec : EqDecision byte := Byte.byte_eq_dec.
Global Instance entry_eq_dec : EqDecision entry.
Proof. solve_decision. Defined.
Global Instance content_eq_dec : EqDecision content.
Proof. solve_decision. Defined.

Definition all_entries (P : path → entry → bool) (f : fs) : bool :=
  forallb (λ kv, P kv.1 kv.2) (map_to_list f).

(** Every entry but the root sits in a directory. *)
Definition wf (f : fs) : Prop :=
  ∀ p n, is_Some (f !! (p ++ [n])) → f !! p = Some EDir.

Definition well_formed (f : fs) : bool :=
  all_entries (λ k _, match k with [] => true | _ => is_dir (parent k) f end) f.

(** Neither path lies inside the other. *)
Definition apart (p q : path) : bool := negb (under p q) && negb (under q p).

Definition same_kind (e e' : entry) : bool :=
  match e, e' with
  | EDir, EDir => true
  | EFile _ _, EFile _ _ => true
  | _, _ => false
  end.

(** A path present under both roots is a directory under both or a file
    under both. *)
Definition kinds_agree (sp rp : path) (f : fs) : bool :=
  all_entries (λ k e,
    match strip sp k with
    | Some q => match f !! (rp ++ q) with
                | Some e' => same_kind e e'
                | None => true
                end
    | None => true
    end) f.

(** The tree below [sp] has fewer than [depth] levels. *)
Definition shallower (sp : path) (depth : nat) (f : fs) : bool :=
  all_entries (λ k _,
    match strip sp k with
    | Some q => bool_decide (length q < depth)%nat
    | None => true
    end) f.

(** Two files at the same place under the two roots that have one digest
    have the same bytes. *)
Definition digests_tell (sp rp : path) (f : fs) : bool :=
  all_entries (λ k e,
    match strip sp k, e with
    | Some q, EFile d _ =>
      match f !! (rp ++ q) with
      | Some (EFile d' _) =>
        implb (bool_decide (MD5.hexdigest d = MD5.hexdigest d')) (bool_decide (d = d'))
      | _ => true
      end
    | _, _ => true
    end) f.

(** The tree below [rp] has the names and the file contents of the tree
    below [sp]. *)
Definition mirrors (sp rp : path) (f : fs) : Prop :=
  ∀ q, view f (rp ++ q) = view f (sp ++ q).

Definition covers (a b : path) (f : fs) : bool :=
  all_entries (λ k e,
    match strip a k with
    | Some q => bool_decide (view f (b ++ q) = Some (content_of e))
    | None => true
    end) f.

Definition mirrorsb (sp rp : path) (f : fs) : bool :=
  covers sp rp f && covers rp sp f.

(** What one pass leaves at [rp ++ q]. *)
Definition synced (sp rp : path) (f : fs) (q : path) : option entry :=
  match f !! (sp ++ q) with
  | None => None
  | Some EDir => Some EDir
  | Some (EFile d m) =>
    match f !! (rp ++ q) with
    | Some (EFile d' m') =>
      if bool_decide (MD5.hexdigest d ≠ MD5.hexdigest d')
      then Some (EFile d m) else Some (EFile d' m')
    | _ => Some (EFile d m)
    end
  end.

(** The record and the call of the removal of [p]. *)
Definition removal (f : fs) (p : path) : list item :=
  match f !! p with
  | Some EDir => [Log WARNING (Removing p); Call (Rmtree p)]
  | Some (EFile _ _) => [Log WARNING (Removing p); Call (Unlink p)]
  | None => []
  end.

(** The records and calls of one pass that are about [rp ++ q], in order. *)
Definition actions (sp rp : path) (f : fs) (q : path) : list item :=
  let s := sp ++ q in
  let r := rp ++ q in
  match f !! s, f !! r with
  | None, Some _ => if is_dir (parent s) f then removal f r else []
  | None, None => []
  | Some EDir, None =>
    [Log WARNING (Creating r); Call (Mkdir r); Log INFO (Checking r s)]
  | Some EDir, Some _ => [Log INFO (Checking r s)]
  | Some (EFile _ _), None => [Log WARNING (Adding r); Call (Copy s r)]
  | Some (EFile d _), Some (EFile d' _) =>
    if bool_decide (MD5.hexdigest d ≠ MD5.hexdigest d')
    then [Log WARNING (Updating r); Call (Copy s r)] else []
  | Some (EFile _ _), Some EDir => []
  end.

Definition about (p : path) (it : item) : Prop := item_path it = Some p.

Global Instance about_dec p it : Decision (about p it).
Proof. unfold about. solve_decision. Defined.

(** The contract of one pass from [f]: it returns, leaves [synced] below the
    replica root, and what it reports about each path is [actions]. *)
Definition pass_spec (sp rp : path) (f : fs) (r : run unit) : Prop :=
  value r = Ret tt ∧
  (∀ q, final r !! (rp ++ q) = synced sp rp f q) ∧
  (∀ q, filter (about (rp ++ q)) (trace r) = actions sp rp f q).

(** The modes let the pass through: every file below [sp] can be read, and
    a file of the replica at the place of one of them can be read, and
    written when the two digests differ. *)
Definition permitted (sp rp : path) (f : fs) : bool :=
  all_entries (λ k e,
    match strip sp k, e with
    | Some q, EFile d m =>
      readable m &&
      match f !! (rp ++ q) with
      | Some (EFile d' m') =>
        readable m' &&
        (bool_decide (MD5.hexdigest d = MD5.hexdigest d') || writable m')
      | _ => true
      end
    | _, _ => true
    end) f.

(** The stores the contract is for. *)
Definition good (sp rp : path) (depth : nat) (f : fs) : Prop :=
  apart sp rp = true ∧ wf f ∧
  f !! sp = Some EDir ∧ f !! rp = Some EDir ∧
  (∀ q e e', f !! (sp ++ q) = Some e → f !! (rp ++ q) = Some e' →
             same_kind e e' = true) ∧
  (∀ q, is_Some (f !! (sp ++ q)) → (length q < depth)%nat) ∧
  (∀ q d m, f !! (sp ++ q) = Some (EFile d m) → readable m = true) ∧
  (∀ q d m d' m', f !! (sp ++ q) = Some (EFile d m) →
     f !! (rp ++ q) = Some (EFile d' m') →
     readable m' = true ∧
     (MD5.hexdigest d ≠ MD5.hexdigest d' → writable m' = true)).

Definition ready (sp rp : path) (depth : nat) (f : fs) : bool :=
  apart sp rp && well_formed f && is_dir sp f && is_dir rp f &&
  kinds_agree sp rp f && shallower sp depth f && permitted sp rp f.

(** A computation that touches the store and reports only at paths of [P]. *)
Definition confined {A} (P : path → bool) (m : M A) : Prop :=
  ∀ f,
    (∀ k, P k = false → final (m f) !! k = f !! k) ∧
    Forall (λ it, ∃ p, item_path it = Some p ∧ P p = true) (trace (m f)).

(** Nothing about a path below [p] precedes the record that [p] is
    created. *)
Definition created_first (t : list item) : Prop :=
  ∀ t1 p t2, t = t1 ++ Log WARNING (Creating p) :: t2 →
    Forall (λ it, ∀ k, item_path it = Some k → strictly_under p k = false) t1.

(** The run [r] after the records and calls [t]. *)
Definition prepend {A} (t : list item) (r : run A) : run A :=
  Run (t ++ trace r) (final r) (value r).

(** The bodies of the two loops of [synchronize] and what follows its first
    record, named for the proofs ([synchronize_unfold] below). *)
Definition remove_old (replica_path : path) (distinct_object : string) : M unit :=
  let old_object_path := replica_path ++ [distinct_object] in
  present <- observe (exists_ old_object_path) ;;
  if present : bool then
    log WARNING (Removing old_object_path) ;;
    old_is_dir <- observe (is_dir old_object_path) ;;
    if old_is_dir : bool then rmtree old_object_path
    else unlink old_object_path
  else ret tt.

Definition sync_object (recurse : path → path → M unit)
    (source_path replica_path : path) (source_object : string) : M unit :=
  let source_target_path := source_path ++ [source_object] in
  let replica_target_path := replica_path ++ [source_object] in
  source_is_dir <- observe (is_dir source_target_path) ;;
  if source_is_dir : bool then
    present <- observe (exists_ replica_target_path) ;;
    (if present : bool then ret tt
     else log WARNING (Creating replica_target_path) ;;
          mkdir replica_target_path) ;;
    recurse source_target_path replica_target_path
  else
    present <- observe (exists_ replica_target_path) ;;
    if present : bool then
      source_bytes <- read_bytes source_target_path ;;
      let source_hash := MD5.hexdigest source_bytes in
      replica_bytes <- read_bytes replica_target_path ;;
      let replica_hash := MD5.hexdigest replica_bytes in
      if bool_decide (source_hash ≠ replica_hash) then
        log WARNING (Updating replica_target_path) ;;
        copy source_target_path replica_target_path
      else ret tt
    else
      log WARNING (Adding replica_target_path) ;;
      copy source_target_path replica_target_path.

Definition distinct_objects (source_path replica_path : path) (f : fs) : list string :=
  elements (symmetric_difference
    (list_to_set (glob_star source_path f) : gset string)
    (list_to_set (glob_star replica_path f))).

Definition removing (source_path replica_path : path) : M unit :=
  source_objects <- observe (glob_star source_path) ;;
  replica_objects <- observe (glob_star replica_path) ;;
  for_each (elements (symmetric_difference
    (list_to_set source_objects : gset string) (list_to_set replica_objects)))
    (remove_old replica_path).

Definition synchronizing (recurse : path → path → M unit)
    (source_path replica_path : path) : M unit :=
  source_objects <- observe (glob_star source_path) ;;
  for_each source_objects (sync_object recurse source_path replica_path).

(** A computation that maintains the condition [I] on the store. *)
Definition keeps {A : Type} (I : fs → Prop) (m : M A) : Prop :=
  ∀ f, I f → I (final (m f)).

(** A computation whose records and calls all satisfy [Q]. *)
Definition reports {A : Type} (Q : item → Prop) (m : M A) : Prop :=
  ∀ f, Forall Q (trace (m f)).

(** A computation that ends, with a value or an exception. *)
Definition halts {A : Type} (m : M A) : Prop := ∀ f, value (m f) ≠ Running.

(** The record or the call of a removal. *)
Definition is_removal (it : item) : bool :=
  match it with
  | Log _ (Removing _) | Call (Rmtree _) | Call (Unlink _) => true
  | _ => false
  end.

(** The path a call of the trace writes to, deletes or creates. *)
Definition target (it : item) : option path :=
  match it with
  | Call c => call_target c
  | Log _ _ => None
  end.

(** [a] occurs before [b] in [t]. *)
Definition before (a b : item) (t : list item) : Prop :=
  ∃ t1 t2 t3, t = t1 ++ a :: t2 ++ b :: t3.

(** [cycles] rounds of the polling loop from [f]: each is one pass that
    returns, the record of the sleep, and the sleep, which returns. *)
Inductive polled (depth : nat) (sp rp : path) (poll : Z) :
    nat → fs → list item → fs → Prop :=
  | polled_O f : polled depth sp rp poll O f [] f
  | polled_S cycles f t f' :
      value (synchronize depth sp rp f) = Ret tt →
      value (sleep poll (final (synchronize depth sp rp f))) = Ret tt →
      polled depth sp rp poll cycles (final (synchronize depth sp rp f)) t f' →
      polled depth sp rp poll (S cycles) f
        (trace (synchronize depth sp rp f) ++
         [Log INFO (EnteringSleep poll); Call (Sleep poll)] ++ t) f'.

(** ** Stores of the examples *)

Definition store (l : list (path * entry)) : fs := list_to_map (([], EDir) :: l).

(** The scenario of the specification: [a.txt] on both sides, [sub/b.txt]
    in the source only, [old.txt] in the replica only. *)
Definition demo : fs := store [
  (["source"], EDir);
  (["source"; "a.txt"], EFile (bytes_of "hello") 420);
  (["source"; "sub"], EDir);
  (["source"; "sub"; "b.txt"], EFile (bytes_of "world") 420);
  (["replica"], EDir);
  (["replica"; "a.txt"], EFile (bytes_of "hello") 384);
  (["replica"; "old.txt"], EFile (bytes_of "junk") 420) ]%string.

(** [a.txt] changed in the source; [b.txt] equal but for its mode. *)
Definition edited : fs := store [
  (["source"], EDir);
  (["source"; "a.txt"], EFile (bytes_of "hello") 420);
  (["source"; "b.txt"], EFile (bytes_of "same") 420);
  (["replica"], EDir);
  (["replica"; "a.txt"], EFile (bytes_of "HELLO") 420);
  (["replica"; "b.txt"], EFile (bytes_of "same") 256) ]%string.

(** Two messages of 128 bytes with one MD5 digest (Wang and Yu, 2005). *)
Definition collision_a : list byte := [
    xd1; x31; xdd; x02; xc5; xe6; xee; xc4; x69; x3d; x9a; x06; x98; xaf; xf9; x5c;
    x2f; xca; xb5; x87; x12; x46; x7e; xab; x40; x04; x58; x3e; xb8; xfb; x7f; x89;
    x55; xad; x34; x06; x09; xf4; xb3; x02; x83; xe4; x88; x83; x25; x71; x41; x5a;
    x08; x51; x25; xe8; xf7; xcd; xc9; x9f; xd9; x1d; xbd; xf2; x80; x37; x3c; x5b;
    xd8; x82; x3e; x31; x56; x34; x8f; x5b; xae; x6d; xac; xd4; x36; xc9; x19; xc6;
    xdd; x53; xe2; xb4; x87; xda; x03; xfd; x02; x39; x63; x06; xd2; x48; xcd; xa0;
    xe9; x9f; x33; x42; x0f; x57; x7e; xe8; xce; x54; xb6; x70; x80; xa8; x0d; x1e;
    xc6; x98; x21; xbc; xb6; xa8; x83; x93; x96; xf9; x65; x2b; x6f; xf7; x2a; x70 ]%byte.

Definition collision_b : list byte := [
    xd1; x31; xdd; x02; xc5; xe6; xee; xc4; x69; x3d; x9a; x06; x98; xaf; xf9; x5c;
    x2f; xca; xb5; x07; x12; x46; x7e; xab; x40; x04; x58; x3e; xb8; xfb; x7f; x89;
    x55; xad; x34; x06; x09; xf4; xb3; x02; x83; xe4; x88; x83; x25; xf1; x41; x5a;
    x08; x51; x25; xe8; xf7; xcd; xc9; x9f; xd9; x1d; xbd; x72; x80; x37; x3c; x5b;
    xd8; x82; x3e; x31; x56; x34; x8f; x5b; xae; x6d; xac; xd4; x36; xc9; x19; xc6;
    xdd; x53; xe2; x34; x87; xda; x03; xfd; x02; x39; x63; x06; xd2; x48; xcd; xa0;
    xe9; x9f; x33; x42; x0f; x57; x7e; xe8; xce; x54; xb6; x70; x80; x28; x0d; x1e;
    xc6; x98; x21; xbc; xb6; xa8; x83; x93; x96; xf9; x65; xab; x6f; xf7; x2a; x70 ]%byte.

Definition collided : fs := store [
  (["source"], EDir);
  (["source"; "a.bin"], EFile collision_a 420);
  (["replica"], EDir);
  (["replica"; "a.bin"], EFile collision_b 420) ]%string.

(** The source holds an empty directory where the replica holds a file. *)
Definition mismatched : fs := store [
  (["source"], EDir);
  (["source"; "d"], EDir);
  (["replica"], EDir);
  (["replica"; "d"], EFile (bytes_of "data") 420) ]%string.

(** The source root is a regular file. *)
Definition source_is_file : fs := store [
  (["source"], EFile (bytes_of "not a folder") 420);
  (["replica"], EDir);
  (["replica"; "keep.txt"], EFile (bytes_of "precious") 420) ]%string.

(** The replica root is a regular file. *)
Definition replica_is_file : fs := store [
  (["source"], EDir);
  (["source"; "a.txt"], EFile (bytes_of "hello") 420);
  (["replica"], EFile (bytes_of "in the way") 420) ]%string.


(** Three nested directories that the replica lacks. *)
Definition nested : fs := store [
  (["source"], EDir);
  (["source"; "a"], EDir);
  (["source"; "a"; "b"], EDir);
  (["source"; "a"; "b"; "c"], EDir);
  (["source"; "a"; "b"; "c"; "f.txt"], EFile (bytes_of "deep") 420);
  (["source"; "a"; "top.txt"], EFile (bytes_of "top") 420);
  (["replica"], EDir) ]%string.

(** [edited] with the replica's [a.txt] read-only. *)
Definition read_only : fs :=
  <[["replica"; "a.txt"]%string := EFile (bytes_of "HELLO") 256]> edited.

(** A chain of two directories that the replica lacks, beside a file of
    the source whose place in the replica is taken by a directory. *)
Definition blocked : fs := store [
  (["source"], EDir);
  (["source"; "z"], EFile (bytes_of "text") 420);
  (["source"; "new"], EDir);
  (["source"; "new"; "deep"], EDir);
  (["source"; "new"; "deep"; "f.txt"], EFile (bytes_of "deep") 420);
  (["replica"], EDir);
  (["replica"; "z"], EDir) ]%string.

(** The source folder lies inside the replica folder. *)
Definition inside : fs := store [
  (["backup"], EDir);
  (["backup"; "source"], EDir);
  (["backup"; "source"; "a.txt"], EFile (bytes_of "hello") 420) ]%string.

(** ** The levels of the logger and of its handlers

    [main] sets the root logger to [logging.INFO] and gives its two
    handlers, the one of the standard output and the one of the log file,
    the level [verbosity * 10].  A record is written by a handler when its
    level is at least the logger's and at least the handler's; the two
    handlers have one level, so they write the same records.  The log file
    is taken to lie outside the two trees. *)

Definition levelno (l : level) : Z :=
  match l with
  | INFO => 20
  | WARNING => 30
  end.

(** [logger.setLevel(logging.INFO)]. *)
Definition logger_level : Z := 20.

(** [handler.setLevel(verbosity * 10)]. *)
Definition handler_level (verbosity : Z) : Z := verbosity * 10.

Definition handles (verbosity : Z) (l : level) : bool :=
  (logger_level <=? levelno l) && (handler_level verbosity <=? levelno l).

(** The records of a trace that each handler writes, in order. *)
Definition handled (verbosity : Z) (t : list item) : list (level * message) :=
  omap (λ it, match it with
              | Log l m => if handles verbosity l then Some (l, m) else None
              | Call _ => None
              end) t.

(** ** Records and the calls they announce *)

(** The record [m] is the one [synchronize] logs before the call [c]. *)
Definition announces (m : message) (c : call) : bool :=
  match m, c with
  | Removing p, Rmtree p' => bool_decide (p = p')
  | Removing p, Unlink p' => bool_decide (p = p')
  | Creating p, Mkdir p' => bool_decide (p = p')
  | Updating p, Copy _ p' => bool_decide (p = p')
  | Adding p, Copy _ p' => bool_decide (p = p')
  | _, _ => false
  end.

(** A trace in which every call that writes, deletes or creates comes right
    after a [WARNING] record that announces it, and every [WARNING] record
    is followed by the call it announces. *)
Fixpoint announced (t : list item) : bool :=
  match t with
  | [] => true
  | Log INFO _ :: t' => announced t'
  | Call (Sleep _) :: t' => announced t'
  | Log WARNING m :: rest =>
    match rest with
    | Call c :: t' => announces m c && announced t'
    | _ => false
    end
  | Call _ :: _ => false
  end.

(** The calls of a trace that write, delete or create. *)
Definition changes (t : list item) : list call :=
  omap (λ it, match it with
              | Call (Sleep _) => None
              | Call c => Some c
              | Log _ _ => None
              end) t.

(** A file whose mode denies reading. *)
Definition denied (p : path) (f : fs) : bool :=
  match f !! p with
  | Some (EFile _ mode) => negb (readable mode)
  | _ => false
  end.

(** ** More stores for the examples *)

(** The source holds a file where the replica holds a directory. *)
Definition clash : fs := store [
  (["source"], EDir);
  (["source"; "x"], EFile (bytes_of "text") 420);
  (["replica"], EDir);
  (["replica"; "x"], EDir);
  (["replica"; "x"; "inner.txt"], EFile (bytes_of "kept") 420) ]%string.

(** A replica that mirrors its source. *)
Definition in_sync : fs := store [
  (["source"], EDir);
  (["source"; "a.txt"], EFile (bytes_of "hello") 420);
  (["source"; "sub"], EDir);
  (["source"; "sub"; "b.txt"], EFile (bytes_of "world") 420);
  (["replica"], EDir);
  (["replica"; "a.txt"], EFile (bytes_of "hello") 384);
  (["replica"; "sub"], EDir);
  (["replica"; "sub"; "b.txt"], EFile (bytes_of "world") 420) ]%string.

(** * Properties *)

Implicit Types (p q k sp rp src dst : list string) (n x : string).
Implicit Types (f g h : gmap (list string) entry).
Implicit Types (t : list item) (it : item) (depth cycles : nat).

(** ** Paths *)

Lemma strip_spec p k q : strip p k = Some q ↔ k = p ++ q.
Proof.
  revert k. induction p as [|a p IH]; intros k; simpl.
  - split; [intros [= ->] | intros ->]; done.
  - destruct k as [|b k]; [split; done|].
    case_decide as E; [subst b|].
    + rewrite IH. split; [intros ->; done | intros [= ->]; done].
    + split; [done | intros [= -> _]; done].
Qed.

Lemma strip_app p q : strip p (p ++ q) = Some q.
Proof. by apply strip_spec. Qed.

Lemma strip_refl p : strip p p = Some [].
Proof. apply strip_spec. by rewrite app_nil_r. Qed.

Lemma under_spec p k : under p k = true ↔ ∃ q, k = p ++ q.
Proof.
  unfold under. destruct (strip p k) as [q|] eqn:E.
  - apply strip_spec in E. split; eauto.
  - split; [done|]. intros [q Hq]. apply strip_spec in Hq. congruence.
Qed.

Lemma under_prefix p k : under p k = true ↔ p `prefix_of` k.
Proof. rewrite under_spec. done. Qed.

Lemma under_app p q : under p (p ++ q) = true.
Proof. apply under_spec. eauto. Qed.

Lemma under_refl p : under p p = true.
Proof. apply under_spec. exists []. by rewrite app_nil_r. Qed.

Lemma under_false p k : under p k = false ↔ ∀ q, k ≠ p ++ q.
Proof.
  rewrite <- not_true_iff_false, under_spec. split.
  - intros H q ->. eauto.
  - intros H [q ->]. by eapply H.
Qed.

Lemma under_trans p q k : under p q = true → under q k = true → under p k = true.
Proof.
  rewrite !under_spec. intros [a ->] [b ->]. exists (a ++ b). by rewrite app_assoc.
Qed.

Lemma strictly_under_spec p k :
  strictly_under p k = true ↔ ∃ n q, k = p ++ n :: q.
Proof.
  unfold strictly_under. destruct (strip p k) as [[|n q]|] eqn:E.
  - apply strip_spec in E. subst. split; [done|].
    intros (n & q & H). by apply app_inv_head in H.
  - apply strip_spec in E. split; eauto.
  - split; [done|]. intros (n & q & H). apply strip_spec in H. congruence.
Qed.

Lemma strictly_under_app p n q : strictly_under p (p ++ n :: q) = true.
Proof. apply strictly_under_spec. eauto. Qed.

Lemma strictly_under_under p k : strictly_under p k = true → under p k = true.
Proof. rewrite strictly_under_spec, under_spec. intros (n & q & ->). eauto. Qed.

Lemma strictly_under_irrefl p : strictly_under p p = false.
Proof. unfold strictly_under. by rewrite strip_refl. Qed.

Lemma under_child_strictly p n k :
  under (p ++ [n]) k = true → strictly_under p k = true.
Proof.
  rewrite under_spec, strictly_under_spec. intros [q ->].
  exists n, q. by rewrite <- app_assoc.
Qed.

Lemma strictly_under_child p k :
  strictly_under p k = true → ∃ n, under (p ++ [n]) k = true.
Proof.
  rewrite strictly_under_spec. intros (n & q & ->). exists n.
  apply under_spec. exists q. by rewrite <- app_assoc.
Qed.

(** Two directories with different names under one parent share nothing. *)
Lemma under_siblings p n n' k :
  n ≠ n' → under (p ++ [n]) k = true → under (p ++ [n']) k = false.
Proof.
  intros Hne. rewrite under_spec. intros [q ->].
  apply under_false. intros q'. rewrite <- !app_assoc. intros H.
  apply app_inv_head in H. simpl in H. congruence.
Qed.

(** Two ancestors of one path are comparable. *)
Lemma under_comparable p q k :
  under p k = true → under q k = true → under p q = true ∨ under q p = true.
Proof.
  rewrite !under_prefix. intros Hp Hq.
  destruct (prefix_weak_total p q k Hp Hq); auto.
Qed.

Lemma apart_spec p q : apart p q = true ↔ under p q = false ∧ under q p = false.
Proof.
  unfold apart. rewrite andb_true_iff, !negb_true_iff. done.
Qed.

Lemma apart_sym p q : apart p q = true → apart q p = true.
Proof. rewrite !apart_spec. tauto. Qed.

Lemma apart_under p q k : apart p q = true → under q k = true → under p k = false.
Proof.
  rewrite apart_spec. intros [H1 H2] Hq.
  destruct (under p k) eqn:Hp; [|done].
  destruct (under_comparable _ _ _ Hp Hq); congruence.
Qed.

Lemma under_child_both p q n :
  under (p ++ [n]) (q ++ [n]) = true → under p q = true.
Proof.
  intros E.
  assert (Hp : under p (q ++ [n]) = true)
    by (eapply under_trans; [apply under_app | exact E]).
  destruct (under_comparable _ _ _ Hp (under_app q [n])) as [?|Hqp]; [done|].
  apply under_spec in E as [a Ha]. apply under_spec in Hqp as [b Hb].
  assert (Hla := f_equal length Ha). assert (Hlb := f_equal length Hb).
  repeat rewrite length_app in Hla. repeat rewrite length_app in Hlb.
  assert (b = []) as -> by (destruct b; [done | simpl in *; lia]).
  rewrite app_nil_r in Hb. subst p. apply under_refl.
Qed.

Lemma apart_child p q n : apart p q = true → apart (p ++ [n]) (q ++ [n]) = true.
Proof.
  rewrite !apart_spec. intros [H1 H2]. split.
  - destruct (under (p ++ [n]) (q ++ [n])) eqn:E; [|done].
    apply under_child_both in E. congruence.
  - destruct (under (q ++ [n]) (p ++ [n])) eqn:E; [|done].
    apply under_child_both in E. congruence.
Qed.

Lemma parent_app p n : parent (p ++ [n]) = p.
Proof. unfold parent. apply removelast_last. Qed.

Lemma parent_app_cons p n q : parent (p ++ n :: q) = p ++ parent (n :: q).
Proof. unfold parent. by rewrite removelast_app. Qed.

Lemma path_snoc_inv (k : list string) : k = [] ∨ ∃ p n, k = p ++ [n].
Proof.
  destruct k as [|a k] using rev_ind; [by left | right; eauto].
Qed.

(** ** MD5 on the test suite of RFC 1321 (appendix A.5) *)

Example md5_empty : MD5.hexdigest [] = "d41d8cd98f00b204e9800998ecf8427e"%string.
Proof. vm_compute. reflexivity. Qed.

Example md5_abc : MD5.hexdigest (bytes_of "abc") = "900150983cd24fb0d6963f7d28e17f72"%string.
Proof. vm_compute. reflexivity. Qed.

Example md5_message_digest :
  MD5.hexdigest (bytes_of "message digest") = "f96b697d7cb7938d525a2f31aaf161d0"%string.
Proof. vm_compute. reflexivity. Qed.

Example md5_alphabet :
  MD5.hexdigest (bytes_of "abcdefghijklmnopqrstuvwxyz") = "c3fcd3d76192e4007dfb496cca67e13b"%string.
Proof. vm_compute. reflexivity. Qed.

Example md5_digits :
  MD5.hexdigest
    (bytes_of "12345678901234567890123456789012345678901234567890123456789012345678901234567890")
  = "57edf4a22be3c955ac49da2e2107b67a"%string.
Proof. vm_compute. reflexivity. Qed.

(** ** The store *)

Lemma all_entries_spec (P : list string → entry → bool) (f : gmap (list string) entry) :
  all_entries P f = true ↔ ∀ k e, f !! k = Some e → P k e = true.
Proof.
  unfold all_entries. rewrite forallb_forall. split.
  - intros H k e Hk. apply (H (k, e)).
    apply list_elem_of_In, elem_of_map_to_list. done.
  - intros H [k e] Hin. apply list_elem_of_In, elem_of_map_to_list in Hin.
    simpl. eauto.
Qed.

Lemma well_formed_spec f : well_formed f = true ↔ wf f.
Proof.
  unfold well_formed, wf. rewrite all_entries_spec. split.
  - intros H p n [e He]. specialize (H _ _ He).
    destruct (p ++ [n]) as [|a l] eqn:E; [by destruct p|].
    rewrite <- E, parent_app in H. unfold is_dir in H.
    by destruct (f !! p) as [[]|].
  - intros H k e He. destruct (path_snoc_inv k) as [->|(p & n & ->)]; [done|].
    destruct (p ++ [n]) as [|a l] eqn:E; [done|]. rewrite <- E in *.
    rewrite parent_app. unfold is_dir. by rewrite (H p n); [|eauto].
Qed.

(** In a well-formed store every ancestor of an entry is a directory. *)
Lemma wf_ancestor f p n q :
  wf f → is_Some (f !! (p ++ n :: q)) → f !! p = Some EDir.
Proof.
  intros Hwf. revert n. induction q as [|m q IH] using rev_ind; intros n Hs.
  - by apply (Hwf p n).
  - apply IH with n.
    rewrite (Hwf (p ++ n :: q) m); [eauto|]. by rewrite <- app_assoc.
Qed.

Lemma wf_missing f p n q : wf f → f !! p = None → f !! (p ++ n :: q) = None.
Proof.
  intros Hwf Hp. destruct (f !! (p ++ n :: q)) as [e|] eqn:E; [|done].
  rewrite (wf_ancestor f p n q) in Hp; [done | done | by rewrite E].
Qed.

Lemma wf_below_file f p d m n q :
  wf f → f !! p = Some (EFile d m) → f !! (p ++ n :: q) = None.
Proof.
  intros Hwf Hp. destruct (f !! (p ++ n :: q)) as [e|] eqn:E; [|done].
  rewrite (wf_ancestor f p n q) in Hp; [done | done | by rewrite E].
Qed.

Lemma kinds_agree_spec sp rp f :
  kinds_agree sp rp f = true ↔
  ∀ q e e', f !! (sp ++ q) = Some e → f !! (rp ++ q) = Some e' → same_kind e e' = true.
Proof.
  unfold kinds_agree. rewrite all_entries_spec. split.
  - intros H q e e' He He'. specialize (H _ _ He).
    by rewrite strip_app, He' in H.
  - intros H k e He. destruct (strip sp k) as [q|] eqn:E; [|done].
    apply strip_spec in E as ->.
    destruct (f !! (rp ++ q)) as [e'|] eqn:E'; eauto.
Qed.

Lemma shallower_spec sp depth f :
  shallower sp depth f = true ↔
  ∀ q, is_Some (f !! (sp ++ q)) → (length q < depth)%nat.
Proof.
  unfold shallower. rewrite all_entries_spec. split.
  - intros H q [e He]. specialize (H _ _ He).
    rewrite strip_app in H. by apply bool_decide_eq_true in H.
  - intros H k e He. destruct (strip sp k) as [q|] eqn:E; [|done].
    apply strip_spec in E as ->. apply bool_decide_eq_true, H. eauto.
Qed.

Lemma permitted_spec sp rp f :
  permitted sp rp f = true ↔
  (∀ q d m, f !! (sp ++ q) = Some (EFile d m) → readable m = true) ∧
  (∀ q d m d' m', f !! (sp ++ q) = Some (EFile d m) →
     f !! (rp ++ q) = Some (EFile d' m') →
     readable m' = true ∧
     (MD5.hexdigest d ≠ MD5.hexdigest d' → writable m' = true)).
Proof.
  unfold permitted. rewrite all_entries_spec. split.
  - intros H. split.
    + intros q d m He. specialize (H _ _ He). rewrite strip_app in H.
      by apply andb_true_iff in H as [? _].
    + intros q d m d' m' He He'. specialize (H _ _ He).
      rewrite strip_app, He' in H.
      apply andb_true_iff in H as [_ [Hr Hw]%andb_true_iff].
      split; [done|]. intros Hdig.
      by rewrite bool_decide_eq_false_2 in Hw by done.
  - intros [H1 H2] k e He. destruct (strip sp k) as [q|] eqn:E; [|done].
    apply strip_spec in E as ->. destruct e as [d m|]; [|done].
    rewrite (H1 _ _ _ He). simpl.
    destruct (f !! (rp ++ q)) as [[d' m'|]|] eqn:E'; try done.
    destruct (H2 _ _ _ _ _ He E') as [-> Hw]. simpl.
    case_bool_decide; [done|]. by apply Hw.
Qed.

Lemma digests_tell_spec sp rp f :
  digests_tell sp rp f = true ↔
  ∀ q d m d' m', f !! (sp ++ q) = Some (EFile d m) →
    f !! (rp ++ q) = Some (EFile d' m') →
    MD5.hexdigest d = MD5.hexdigest d' → d = d'.
Proof.
  unfold digests_tell. rewrite all_entries_spec. split.
  - intros H q d m d' m' He He' Hd. specialize (H _ _ He).
    rewrite strip_app, He' in H. simpl in H.
    rewrite bool_decide_eq_true_2 in H by done. simpl in H.
    by apply bool_decide_eq_true in H.
  - intros H k e He. destruct (strip sp k) as [q|] eqn:E; [|done].
    apply strip_spec in E as ->. destruct e as [d m|]; [|done].
    destruct (f !! (rp ++ q)) as [[d' m'|]|] eqn:E'; try done.
    case_bool_decide as Hd; [simpl|done].
    apply bool_decide_eq_true. eauto.
Qed.

Lemma covers_spec a b f :
  covers a b f = true ↔
  ∀ q e, f !! (a ++ q) = Some e → view f (b ++ q) = Some (content_of e).
Proof.
  unfold covers. rewrite all_entries_spec. split.
  - intros H q e He. specialize (H _ _ He).
    rewrite strip_app in H. by apply bool_decide_eq_true in H.
  - intros H k e He. destruct (strip a k) as [q|] eqn:E; [|done].
    apply strip_spec in E as ->. apply bool_decide_eq_true. eauto.
Qed.

Lemma mirrorsb_spec sp rp f : mirrorsb sp rp f = true ↔ mirrors sp rp f.
Proof.
  unfold mirrorsb, mirrors. rewrite andb_true_iff, !covers_spec. split.
  - intros [H1 H2] q. unfold view at 2.
    destruct (f !! (sp ++ q)) as [e|] eqn:Es; simpl; [eauto|].
    unfold view. destruct (f !! (rp ++ q)) as [e'|] eqn:Er; [|done].
    specialize (H2 _ _ Er). unfold view in H2. by rewrite Es in H2.
  - intros H. split; intros q e He.
    + rewrite H. unfold view. by rewrite He.
    + rewrite <- H. unfold view. by rewrite He.
Qed.

Lemma exists_true (p : list string) (f : gmap (list string) entry) :
  exists_ p f = true ↔ is_Some (f !! p).
Proof. unfold exists_. destruct (f !! p); split; (done || by intros []). Qed.

Lemma exists_false (p : list string) (f : gmap (list string) entry) :
  exists_ p f = false ↔ f !! p = None.
Proof. unfold exists_. by destruct (f !! p). Qed.

Lemma is_dir_true (p : list string) (f : gmap (list string) entry) :
  is_dir p f = true ↔ f !! p = Some EDir.
Proof. unfold is_dir. by destruct (f !! p) as [[]|]. Qed.

Lemma child_name_spec p k n : child_name p k = Some n ↔ k = p ++ [n].
Proof.
  unfold child_name. destruct (strip p k) as [[|m [|m' q]]|] eqn:E.
  - apply strip_spec in E as ->. split; [done|].
    intros H. by apply app_inv_head in H.
  - apply strip_spec in E as ->. split; [by intros [= ->]|].
    intros H. by apply app_inv_head in H as [= ->].
  - apply strip_spec in E as ->. split; [done|].
    intros H. by apply app_inv_head in H.
  - split; [done|]. intros H. apply strip_spec in H. congruence.
Qed.

(** [glob('*')] yields the names of the entries of a directory, each once. *)
Lemma elem_of_glob_star p f n :
  n ∈ glob_star p f ↔ f !! p = Some EDir ∧ is_Some (f !! (p ++ [n])).
Proof.
  unfold glob_star. destruct (is_dir p f) eqn:Hd.
  - apply is_dir_true in Hd. rewrite list_elem_of_omap. split.
    + intros (k & Hk & Hn). apply child_name_spec in Hn as ->.
      apply elem_of_elements, elem_of_dom in Hk. done.
    + intros [_ Hs]. exists (p ++ [n]). split.
      * by apply elem_of_elements, elem_of_dom.
      * by apply child_name_spec.
  - split; [by intros ?%elem_of_nil|]. intros [H _].
    apply is_dir_true in H. congruence.
Qed.

Lemma NoDup_omap_inj {A B : Type} (g : A → option B) (l : list A) :
  (∀ (a a' : A) (b : B), g a = Some b → g a' = Some b → a = a') →
  NoDup l → NoDup (omap g l).
Proof.
  intros Hinj. induction 1 as [|a l Ha Hl IH]; simpl; [constructor|].
  destruct (g a) as [b|] eqn:E; [|done].
  constructor; [|done]. rewrite list_elem_of_omap.
  intros (a' & Ha' & E'). by rewrite (Hinj _ _ _ E E') in Ha.
Qed.

Lemma NoDup_glob_star (p : list string) (f : gmap (list string) entry) : NoDup (glob_star p f).
Proof.
  unfold glob_star. destruct (is_dir p f); [|constructor].
  apply NoDup_omap_inj; [|apply NoDup_elements].
  intros k k' n ->%child_name_spec ->%child_name_spec. done.
Qed.

(** The listing of a directory depends on the entries right below it. *)
Lemma glob_star_ext (p : list string) (f g : gmap (list string) entry) :
  f !! p = g !! p → (∀ n, is_Some (f !! (p ++ [n])) ↔ is_Some (g !! (p ++ [n]))) →
  ∀ n, n ∈ glob_star p f ↔ n ∈ glob_star p g.
Proof.
  intros Hp Hc n. rewrite !elem_of_glob_star, Hp, Hc. done.
Qed.

(** ** Computations *)

Lemma run_eta {A : Type} (r : run A) : Run (trace r) (final r) (value r) = r.
Proof. by destruct r. Qed.

Lemma prepend_nil {A : Type} (r : run A) : prepend [] r = r.
Proof. by destruct r. Qed.

Lemma prepend_prepend {A : Type} t t' (r : run A) :
  prepend t (prepend t' r) = prepend (t ++ t') r.
Proof. unfold prepend. simpl. by rewrite app_assoc. Qed.

Lemma bind_unfold {A B : Type} (m : M A) (k : A → M B) f :
  bind m k f =
  match value (m f) with
  | Ret a => prepend (trace (m f)) (k a (final (m f)))
  | Raise e => Run (trace (m f)) (final (m f)) (Raise e)
  | Running => Run (trace (m f)) (final (m f)) Running
  end.
Proof. reflexivity. Qed.

Lemma bind_run {A B : Type} (m : M A) (k : A → M B) f t g a :
  m f = Run t g (Ret a) → bind m k f = prepend t (k a g).
Proof. intros H. rewrite bind_unfold, H. done. Qed.

Lemma bind_run_raise {A B : Type} (m : M A) (k : A → M B) f t g e :
  m f = Run t g (Raise e) → bind m k f = Run t g (Raise e).
Proof. intros H. rewrite bind_unfold, H. done. Qed.

Lemma bind_ret {A B : Type} (a : A) (k : A → M B) f : bind (ret a) k f = k a f.
Proof. rewrite bind_unfold. simpl. apply prepend_nil. Qed.

Lemma bind_observe {A B : Type} (q : gmap (list string) entry → A) (k : A → M B) f :
  bind (observe q) k f = k (q f) f.
Proof. rewrite bind_unfold. simpl. apply prepend_nil. Qed.

Lemma bind_put {B : Type} g (k : unit → M B) f : bind (put g) k f = k tt g.
Proof. rewrite bind_unfold. simpl. apply prepend_nil. Qed.

Lemma bind_emit {B : Type} it (k : unit → M B) f :
  bind (emit it) k f = prepend [it] (k tt f).
Proof. reflexivity. Qed.

Lemma bind_log {B : Type} l m (k : unit → M B) f :
  bind (log l m) k f = prepend [Log l m] (k tt f).
Proof. reflexivity. Qed.

Lemma bind_raise {A B : Type} e (k : A → M B) f : bind (raise e) k f = Run [] f (Raise e).
Proof. reflexivity. Qed.

Lemma bind_assoc {A B C : Type} (m : M A) (k : A → M B) (h : B → M C) f :
  bind (bind m k) h f = bind m (λ a, bind (k a) h) f.
Proof.
  rewrite !bind_unfold. destruct (m f) as [t g [a| |]]; simpl; try done.
  rewrite !bind_unfold. destruct (k a g) as [t' g' [b| |]]; simpl; try done.
  unfold prepend. simpl. by rewrite app_assoc.
Qed.

Lemma for_each_nil {X : Type} (body : X → M unit) f : for_each [] body f = Run [] f (Ret tt).
Proof. reflexivity. Qed.

Lemma for_each_cons {X : Type} (a : X) (l : list X) (body : X → M unit) f :
  for_each (a :: l) body f = bind (body a) (λ _, for_each l body) f.
Proof. reflexivity. Qed.

(** [synchronize], one level unfolded. *)
Lemma synchronize_unfold depth sp rp f :
  synchronize (S depth) sp rp f =
  prepend [Log INFO (Checking rp sp)]
    (bind (removing sp rp) (λ _, synchronizing (synchronize depth) sp rp) f).
Proof.
  change (synchronize (S depth) sp rp f) with
    (bind (log INFO (Checking rp sp)) (λ _,
       bind (observe (glob_star sp)) (λ source_objects,
       bind (observe (glob_star rp)) (λ replica_objects,
       bind (for_each (elements (symmetric_difference
               (list_to_set source_objects : gset string)
               (list_to_set replica_objects))) (remove_old rp))
            (λ _, synchronizing (synchronize depth) sp rp)))) f).
  rewrite bind_log. f_equal.
Qed.

Lemma removing_unfold sp rp f :
  removing sp rp f = for_each (distinct_objects sp rp f) (remove_old rp) f.
Proof. unfold removing. by rewrite !bind_observe. Qed.

Lemma synchronizing_unfold recurse sp rp f :
  synchronizing recurse sp rp f =
  for_each (glob_star sp f) (sync_object recurse sp rp) f.
Proof. unfold synchronizing. by rewrite bind_observe. Qed.

(** ** What each call does to the store *)

Lemma lookup_rmtree f p k :
  filter (λ kv : list string * entry, under p kv.1 = false) f !! k =
  if under p k then None else f !! k.
Proof.
  destruct (under p k) eqn:E.
  - apply map_lookup_filter_None. right. intros e _. simpl. congruence.
  - destruct (f !! k) as [e|] eqn:Ek.
    + apply map_lookup_filter_Some. done.
    + apply map_lookup_filter_None. by left.
Qed.

Lemma read_bytes_run f p d m :
  f !! p = Some (EFile d m) → readable m = true →
  read_bytes p f = Run [] f (Ret d).
Proof. unfold read_bytes. by intros -> ->. Qed.

Lemma read_bytes_run_denied f p d m :
  f !! p = Some (EFile d m) → readable m = false →
  read_bytes p f = Run [] f (Raise PermissionError).
Proof. unfold read_bytes. by intros -> ->. Qed.

Lemma rmtree_run f p :
  f !! p = Some EDir →
  rmtree p f =
  Run [Call (Rmtree p)] (filter (λ kv : list string * entry, under p kv.1 = false) f) (Ret tt).
Proof. intros H. unfold rmtree. rewrite bind_emit, bind_observe. simpl. by rewrite H. Qed.

Lemma unlink_run f p d m :
  f !! p = Some (EFile d m) →
  unlink p f = Run [Call (Unlink p)] (delete p f) (Ret tt).
Proof. intros H. unfold unlink. rewrite bind_emit, bind_observe. simpl. by rewrite H. Qed.

Lemma create_run f p (e : entry) :
  f !! parent p = Some EDir → create p e f = Run [] (<[p := e]> f) (Ret tt).
Proof. intros H. unfold create. rewrite bind_observe. simpl. by rewrite H. Qed.

Lemma mkdir_run f p :
  f !! p = None → f !! parent p = Some EDir →
  mkdir p f = Run [Call (Mkdir p)] (<[p := EDir]> f) (Ret tt).
Proof.
  intros H Hp. unfold mkdir. rewrite bind_emit, bind_observe. simpl.
  rewrite H, create_run by done. done.
Qed.

(** [mkdir] under a parent that is not a directory. *)
Lemma mkdir_run_orphan f p :
  f !! p = None → is_dir (parent p) f = false →
  mkdir p f = Run [Call (Mkdir p)] f
    (Raise (if exists_ (parent p) f then NotADirectoryError else FileNotFoundError)).
Proof.
  intros Hp Hd. unfold mkdir. rewrite bind_emit, bind_observe. simpl.
  rewrite Hp. unfold create. rewrite bind_observe. simpl.
  unfold is_dir, exists_ in *. by destruct (f !! parent p) as [[]|].
Qed.

Lemma copy_run_new f src dst d m :
  f !! src = Some (EFile d m) → readable m = true →
  f !! dst = None → f !! parent dst = Some EDir →
  copy src dst f = Run [Call (Copy src dst)] (<[dst := EFile d m]> f) (Ret tt).
Proof.
  intros Hs Hm Hd Hp. unfold copy. rewrite bind_emit, bind_observe. simpl.
  unfold is_dir. rewrite Hd.
  rewrite (bool_decide_eq_false_2 (src = dst)) by congruence.
  rewrite andb_false_r, Hs, Hm, Hd. simpl. rewrite create_run by done. done.
Qed.

Lemma copy_run_over f src dst d m d' m' :
  f !! src = Some (EFile d m) → readable m = true →
  f !! dst = Some (EFile d' m') → writable m' = true → src ≠ dst →
  copy src dst f = Run [Call (Copy src dst)] (<[dst := EFile d m]> f) (Ret tt).
Proof.
  intros Hs Hm Hd Hm' Hne. unfold copy. rewrite bind_emit, bind_observe. simpl.
  unfold is_dir. rewrite Hd.
  rewrite (bool_decide_eq_false_2 (src = dst)) by congruence.
  rewrite andb_false_r, Hs, Hm, Hd, Hm'. done.
Qed.

(** A source that cannot be read, and a destination that cannot be
    written: the copy raises and leaves the store as it was. *)
Lemma copy_run_unreadable f src dst d m :
  f !! src = Some (EFile d m) → readable m = false → is_dir dst f = false →
  src ≠ dst →
  copy src dst f = Run [Call (Copy src dst)] f (Raise PermissionError).
Proof.
  intros Hs Hm Hd Hne. unfold copy. rewrite bind_emit, bind_observe. simpl.
  rewrite Hd, (bool_decide_eq_false_2 (src = dst)) by congruence.
  rewrite andb_false_r, Hs, Hm. done.
Qed.

Lemma copy_run_unwritable f src dst d m d' m' :
  f !! src = Some (EFile d m) → readable m = true →
  f !! dst = Some (EFile d' m') → writable m' = false → src ≠ dst →
  copy src dst f = Run [Call (Copy src dst)] f (Raise PermissionError).
Proof.
  intros Hs Hm Hd Hm' Hne. unfold copy. rewrite bind_emit, bind_observe. simpl.
  unfold is_dir. rewrite Hd.
  rewrite (bool_decide_eq_false_2 (src = dst)) by congruence.
  rewrite andb_false_r, Hs, Hm, Hd, Hm'. done.
Qed.

(** ** Confinement: every call of [synchronize] stays below the replica *)

Section confined.
Context {A B : Type}.
Implicit Types (P : list string → bool).

Lemma confined_ret P (a : A) : confined P (ret a).
Proof. intros f. simpl. split; [done | constructor]. Qed.

Lemma confined_raise P (e : exn) : confined P (raise e : M A).
Proof. intros f. simpl. split; [done | constructor]. Qed.

Lemma confined_observe P (q : gmap (list string) entry → A) : confined P (observe q).
Proof. intros f. simpl. split; [done | constructor]. Qed.

Lemma confined_bind P (m : M A) (k : A → M B) :
  confined P m → (∀ a, confined P (k a)) → confined P (bind m k).
Proof.
  intros Hm Hk f. rewrite bind_unfold. destruct (Hm f) as [Hf Ht].
  destruct (m f) as [t g [a| |]]; simpl in *; try done.
  destruct (Hk a g) as [Hf' Ht']. split.
  - intros k' Hk'. rewrite Hf' by done. auto.
  - apply Forall_app. done.
Qed.

Lemma confined_weaken P P' (m : M A) :
  (∀ k, P k = true → P' k = true) → confined P m → confined P' m.
Proof.
  intros HP Hm f. destruct (Hm f) as [Hf Ht]. split.
  - intros k Hk. apply Hf. destruct (P k) eqn:E; [|done].
    apply HP in E. congruence.
  - eapply Forall_impl; [exact Ht|]. simpl. intros it (p & Hp & HPp). eauto.
Qed.
End confined.

Lemma confined_emit (P : list string → bool) it p :
  item_path it = Some p → P p = true → confined P (emit it).
Proof. intros Hp HP f. simpl. split; [done|]. repeat constructor. eauto. Qed.

Lemma confined_for_each {X : Type} (P : list string → bool) (l : list X) (body : X → M unit) :
  (∀ a, a ∈ l → confined P (body a)) → confined P (for_each l body).
Proof.
  induction l as [|a l IH]; intros H.
  - apply confined_ret.
  - simpl. apply confined_bind.
    + apply H. left.
    + intros _. apply IH. intros a' Ha'. apply H. by right.
Qed.

Lemma confined_read_bytes (P : list string → bool) p : confined P (read_bytes p).
Proof.
  intros f. unfold read_bytes.
  destruct (f !! p) as [[d m|]|]; try destruct (readable m); simpl;
    (split; [done | constructor]).
Qed.

Lemma confined_put_at (P : list string → bool) f g :
  (∀ k, P k = false → g !! k = f !! k) →
  (∀ k, P k = false → final (put g f) !! k = f !! k) ∧
  Forall (λ it, ∃ p, item_path it = Some p ∧ P p = true) (trace (put g f)).
Proof. intros H. simpl. split; [done | constructor]. Qed.

Lemma confined_rmtree (P : list string → bool) p :
  (∀ k, under p k = true → P k = true) → confined P (rmtree p).
Proof.
  intros HP. unfold rmtree. apply confined_bind.
  { apply confined_emit with p; [done|]. apply HP, under_refl. }
  intros _ f. rewrite bind_observe. simpl.
  destruct (f !! p) as [[]|]; try apply confined_raise.
  apply confined_put_at. intros k Hk. rewrite lookup_rmtree.
  destruct (under p k) eqn:E; [|done]. apply HP in E. congruence.
Qed.

Lemma confined_unlink (P : list string → bool) p : P p = true → confined P (unlink p).
Proof.
  intros HP. unfold unlink. apply confined_bind.
  { by apply confined_emit with p. }
  intros _ f. rewrite bind_observe. simpl.
  destruct (f !! p) as [[]|]; try apply confined_raise.
  apply confined_put_at. intros k Hk. apply lookup_delete_ne. congruence.
Qed.

Lemma confined_create (P : list string → bool) p (e : entry) :
  P p = true → confined P (create p e).
Proof.
  intros HP f. unfold create. rewrite bind_observe. simpl.
  destruct (f !! parent p) as [[]|]; try apply confined_raise.
  apply confined_put_at. intros k Hk. apply lookup_insert_ne. congruence.
Qed.

Lemma confined_mkdir (P : list string → bool) p : P p = true → confined P (mkdir p).
Proof.
  intros HP. unfold mkdir. apply confined_bind.
  { by apply confined_emit with p. }
  intros _ f. rewrite bind_observe. simpl.
  destruct (f !! p) as [|]; [apply confined_raise|]. by apply confined_create.
Qed.

Lemma confined_copy (P : list string → bool) src dst :
  (∀ k, under dst k = true → P k = true) → confined P (copy src dst).
Proof.
  intros HP. unfold copy. apply confined_bind.
  { apply confined_emit with dst; [done|]. apply HP, under_refl. }
  intros _ f. rewrite bind_observe. simpl.
  set (dst' := if is_dir dst f then dst ++ [name src] else dst).
  assert (Hd : P dst' = true).
  { apply HP. unfold dst'. destruct (is_dir dst f); [apply under_app | apply under_refl]. }
  destruct (exists_ src f && bool_decide (src = dst')); [apply confined_raise|].
  destruct (f !! src) as [[d m|]|]; try apply confined_raise.
  destruct (readable m); [|apply confined_raise]. simpl.
  destruct (f !! dst') as [[d' m'|]|]; try apply confined_raise.
  - destruct (writable m'); [|apply confined_raise].
    apply confined_put_at. intros k Hk. apply lookup_insert_ne. congruence.
  - by apply confined_create.
Qed.

Lemma confined_remove_old rp x : confined (under (rp ++ [x])) (remove_old rp x).
Proof.
  unfold remove_old. apply confined_bind; [apply confined_observe|].
  intros [|]; [|apply confined_ret].
  apply confined_bind.
  { apply confined_emit with (rp ++ [x]); [done | apply under_refl]. }
  intros _. apply confined_bind; [apply confined_observe|].
  intros [|]; [by apply confined_rmtree | apply confined_unlink, under_refl].
Qed.

Lemma confined_sync_object (recurse : list string → list string → M unit) sp rp n :
  confined (under (rp ++ [n])) (recurse (sp ++ [n]) (rp ++ [n])) →
  confined (under (rp ++ [n])) (sync_object recurse sp rp n).
Proof.
  intros Hrec. unfold sync_object.
  apply confined_bind; [apply confined_observe|]. intros [|].
  - apply confined_bind; [apply confined_observe|]. intros present.
    apply confined_bind; [|done].
    destruct present; [apply confined_ret|].
    apply confined_bind; [|intros _; apply confined_mkdir, under_refl].
    apply confined_emit with (rp ++ [n]); [done | apply under_refl].
  - apply confined_bind; [apply confined_observe|]. intros [|].
    + apply confined_bind; [apply confined_read_bytes|]. intros d.
      apply confined_bind; [apply confined_read_bytes|]. intros d'.
      case_bool_decide; [|apply confined_ret].
      apply confined_bind; [|intros _; by apply confined_copy].
      apply confined_emit with (rp ++ [n]); [done | apply under_refl].
    + apply confined_bind; [|intros _; by apply confined_copy].
      apply confined_emit with (rp ++ [n]); [done | apply under_refl].
Qed.

Lemma confined_removing sp rp : confined (strictly_under rp) (removing sp rp).
Proof.
  unfold removing. apply confined_bind; [apply confined_observe|]. intros l.
  apply confined_bind; [apply confined_observe|]. intros l'.
  apply confined_for_each. intros x _.
  eapply confined_weaken; [|apply confined_remove_old].
  intros k. apply under_child_strictly.
Qed.

Lemma confined_synchronizing (recurse : list string → list string → M unit) sp rp :
  (∀ n, confined (under (rp ++ [n])) (recurse (sp ++ [n]) (rp ++ [n]))) →
  confined (strictly_under rp) (synchronizing recurse sp rp).
Proof.
  intros Hrec. unfold synchronizing.
  apply confined_bind; [apply confined_observe|]. intros l.
  apply confined_for_each. intros n _.
  eapply confined_weaken; [|apply confined_sync_object, Hrec].
  intros k. apply under_child_strictly.
Qed.

(** One pass reads and writes the store, and reports, below the replica
    root only. *)
Lemma synchronize_confined depth sp rp : confined (under rp) (synchronize depth sp rp).
Proof.
  revert sp rp. induction depth as [|depth IH]; intros sp rp.
  - apply confined_raise.
  - intros f. rewrite synchronize_unfold.
    assert (H : confined (strictly_under rp)
              (bind (removing sp rp) (λ _, synchronizing (synchronize depth) sp rp))).
    { apply confined_bind; [apply confined_removing|].
      intros _. apply confined_synchronizing. intros n. apply IH. }
    destruct (H f) as [Hf Ht]. simpl. split.
    + intros k Hk. apply Hf. destruct (strictly_under rp k) eqn:E; [|done].
      apply strictly_under_under in E. congruence.
    + constructor.
      * exists rp. split; [done | apply under_refl].
      * eapply Forall_impl; [exact Ht|]. simpl.
        intros it (p & Hp & HP). exists p. split; [done|].
        by apply strictly_under_under.
Qed.

(** After its first record, a pass is about the paths strictly below the
    replica root. *)
Lemma synchronize_rest_confined depth sp rp :
  confined (strictly_under rp)
    (bind (removing sp rp) (λ _, synchronizing (synchronize depth) sp rp)).
Proof.
  apply confined_bind; [apply confined_removing|].
  intros _. apply confined_synchronizing. intros n. apply synchronize_confined.
Qed.

(** ** Well-formedness is maintained *)

Lemma wf_rmtree f p :
  wf f → wf (filter (λ kv : list string * entry, under p kv.1 = false) f).
Proof.
  intros Hwf p' n. rewrite !lookup_rmtree.
  destruct (under p (p' ++ [n])) eqn:E; [by intros []|]. intros Hs.
  destruct (under p p') eqn:E'.
  - rewrite (under_trans p p' (p' ++ [n])) in E; [done | done | apply under_app].
  - by apply Hwf with n.
Qed.

Lemma wf_delete_file f p d m : wf f → f !! p = Some (EFile d m) → wf (delete p f).
Proof.
  intros Hwf Hp p' n Hs.
  destruct (decide (p = p' ++ [n])) as [->|Hne].
  { rewrite lookup_delete_eq in Hs. by destruct Hs. }
  rewrite lookup_delete_ne in Hs by done.
  pose proof (Hwf _ _ Hs) as Hd.
  rewrite lookup_delete_ne; [done | congruence].
Qed.

Lemma wf_insert_new f p (e : entry) :
  wf f → f !! p = None → f !! parent p = Some EDir → wf (<[p := e]> f).
Proof.
  intros Hwf Hp Hpar p' n Hs.
  assert (p ≠ p') as Hne.
  { intros ->. destruct (decide (p' = p' ++ [n])) as [E|Hne].
    - apply (f_equal length) in E. rewrite length_app in E. simpl in E. lia.
    - rewrite lookup_insert_ne in Hs by done.
      rewrite (Hwf _ _ Hs) in Hp. done. }
  rewrite lookup_insert_ne by done.
  destruct (decide (p = p' ++ [n])) as [->|Hne'].
  - by rewrite parent_app in Hpar.
  - rewrite lookup_insert_ne in Hs by done. by apply Hwf with n.
Qed.

Lemma wf_insert_over f p d m d' m' :
  wf f → f !! p = Some (EFile d' m') → wf (<[p := EFile d m]> f).
Proof.
  intros Hwf Hp p' n Hs.
  assert (f !! p' = Some EDir) as Hd.
  { apply Hwf with n. destruct (decide (p = p' ++ [n])) as [<-|Hne].
    - by rewrite Hp.
    - by rewrite lookup_insert_ne in Hs. }
  rewrite lookup_insert_ne; [done | congruence].
Qed.

Section keeps.
Context {A B : Type} (I : gmap (list string) entry → Prop).

Lemma keeps_ret (a : A) : keeps I (ret a).
Proof. by intros f. Qed.

Lemma keeps_raise (e : exn) : keeps I (raise e : M A).
Proof. by intros f. Qed.

Lemma keeps_observe (q : gmap (list string) entry → A) : keeps I (observe q).
Proof. by intros f. Qed.

Lemma keeps_bind (m : M A) (k : A → M B) :
  keeps I m → (∀ a, keeps I (k a)) → keeps I (bind m k).
Proof.
  intros Hm Hk f HI. rewrite bind_unfold. specialize (Hm f HI).
  destruct (m f) as [t g [a| |]]; simpl in *; try done. by apply Hk.
Qed.
End keeps.

Lemma keeps_emit (I : gmap (list string) entry → Prop) it : keeps I (emit it).
Proof. by intros f. Qed.

Lemma keeps_for_each {X : Type} (I : gmap (list string) entry → Prop)
    (l : list X) (body : X → M unit) :
  (∀ a, keeps I (body a)) → keeps I (for_each l body).
Proof.
  intros H. induction l as [|a l IH]; [apply keeps_ret|].
  simpl. apply keeps_bind; [apply H | intros _; apply IH].
Qed.

Lemma keeps_read_bytes (I : gmap (list string) entry → Prop) p : keeps I (read_bytes p).
Proof.
  intros f HI. unfold read_bytes.
  destruct (f !! p) as [[d m|]|]; try destruct (readable m); done.
Qed.

Lemma keeps_wf_rmtree p : keeps wf (rmtree p).
Proof.
  unfold rmtree. apply keeps_bind; [apply keeps_emit|]. intros _ f Hwf.
  rewrite bind_observe. simpl. destruct (f !! p) as [[]|]; try done.
  by apply wf_rmtree.
Qed.

Lemma keeps_wf_unlink p : keeps wf (unlink p).
Proof.
  unfold unlink. apply keeps_bind; [apply keeps_emit|]. intros _ f Hwf.
  rewrite bind_observe. simpl. destruct (f !! p) as [[d m|]|] eqn:E; try done.
  by apply wf_delete_file with d m.
Qed.

Lemma keeps_wf_create p (e : entry) f :
  wf f → f !! p = None → wf (final (create p e f)).
Proof.
  intros Hwf Hp. unfold create. rewrite bind_observe. simpl.
  destruct (f !! parent p) as [[]|] eqn:E; try done.
  by apply wf_insert_new.
Qed.

Lemma keeps_wf_mkdir p : keeps wf (mkdir p).
Proof.
  unfold mkdir. apply keeps_bind; [apply keeps_emit|]. intros _ f Hwf.
  rewrite bind_observe. simpl. destruct (f !! p) as [|] eqn:E; [done|].
  by apply keeps_wf_create.
Qed.

Lemma keeps_wf_copy src dst : keeps wf (copy src dst).
Proof.
  unfold copy. apply keeps_bind; [apply keeps_emit|]. intros _ f Hwf.
  rewrite bind_observe. simpl.
  set (dst' := if is_dir dst f then dst ++ [name src] else dst).
  destruct (exists_ src f && bool_decide (src = dst')); [done|].
  destruct (f !! src) as [[d m|]|]; try done.
  destruct (readable m); [|done]. simpl.
  destruct (f !! dst') as [[d' m'|]|] eqn:E; try done.
  - destruct (writable m'); [|done]. simpl. by apply wf_insert_over with d' m'.
  - by apply keeps_wf_create.
Qed.

Lemma keeps_wf_remove_old rp x : keeps wf (remove_old rp x).
Proof.
  unfold remove_old. apply keeps_bind; [apply keeps_observe|].
  intros [|]; [|apply keeps_ret].
  apply keeps_bind; [apply keeps_emit|]. intros _.
  apply keeps_bind; [apply keeps_observe|].
  intros [|]; [apply keeps_wf_rmtree | apply keeps_wf_unlink].
Qed.

Lemma keeps_wf_sync_object (recurse : list string → list string → M unit) sp rp n :
  (∀ s r, keeps wf (recurse s r)) → keeps wf (sync_object recurse sp rp n).
Proof.
  intros Hrec. unfold sync_object.
  apply keeps_bind; [apply keeps_observe|]. intros [|].
  - apply keeps_bind; [apply keeps_observe|]. intros present.
    apply keeps_bind; [|intros _; apply Hrec].
    destruct present; [apply keeps_ret|].
    apply keeps_bind; [apply keeps_emit | intros _; apply keeps_wf_mkdir].
  - apply keeps_bind; [apply keeps_observe|]. intros [|].
    + apply keeps_bind; [apply keeps_read_bytes|]. intros d.
      apply keeps_bind; [apply keeps_read_bytes|]. intros d'.
      case_bool_decide; [|apply keeps_ret].
      apply keeps_bind; [apply keeps_emit | intros _; apply keeps_wf_copy].
    + apply keeps_bind; [apply keeps_emit | intros _; apply keeps_wf_copy].
Qed.

Lemma keeps_wf_removing sp rp : keeps wf (removing sp rp).
Proof.
  unfold removing. apply keeps_bind; [apply keeps_observe|]. intros l.
  apply keeps_bind; [apply keeps_observe|]. intros l'.
  apply keeps_for_each. intros x. apply keeps_wf_remove_old.
Qed.

(** One pass leaves a well-formed store well-formed, however it ends. *)
Lemma synchronize_keeps_wf depth sp rp : keeps wf (synchronize depth sp rp).
Proof.
  revert sp rp. induction depth as [|depth IH]; intros sp rp.
  - apply keeps_raise.
  - intros f Hwf. rewrite synchronize_unfold. simpl.
    revert f Hwf. apply keeps_bind; [apply keeps_wf_removing|]. intros _.
    unfold synchronizing. apply keeps_bind; [apply keeps_observe|]. intros l.
    apply keeps_for_each. intros n. by apply keeps_wf_sync_object.
Qed.

(** ** The first loop: removals *)

Lemma snoc_app p n q : (p ++ [n]) ++ q = p ++ n :: q.
Proof. by rewrite <- app_assoc. Qed.

Lemma path_neq_snoc_cons p x n m q : p ++ [x] ≠ p ++ n :: m :: q.
Proof. intros H. by apply app_inv_head in H. Qed.

Lemma filter_about_nil p t :
  Forall (λ it, ¬ about p it) t → filter (about p) t = [].
Proof.
  induction 1 as [|it t Hit _ IH]; [done|].
  by rewrite filter_cons_False.
Qed.

Lemma filter_about_all p t :
  Forall (about p) t → filter (about p) t = t.
Proof.
  induction 1 as [|it t Hit _ IH]; [done|].
  rewrite filter_cons_True by done. by rewrite IH.
Qed.

(** What a confined computation reports is about paths of its domain. *)
Lemma confined_filter {A : Type} (P : list string → bool) (m : M A) f p :
  confined P m → P p = false → filter (about p) (trace (m f)) = [].
Proof.
  intros Hm HP. apply filter_about_nil. destruct (Hm f) as [_ Ht].
  eapply Forall_impl; [exact Ht|]. simpl. intros it (p' & Hp' & HP') Hab.
  unfold about in Hab. congruence.
Qed.

Lemma filter_removal_same f p : filter (about p) (removal f p) = removal f p.
Proof.
  apply filter_about_all. unfold removal.
  destruct (f !! p) as [[]|]; repeat constructor.
Qed.

Lemma filter_removal_other f p p' : p ≠ p' → filter (about p') (removal f p) = [].
Proof.
  intros Hne. apply filter_about_nil. unfold removal.
  destruct (f !! p) as [[]|]; repeat constructor; unfold about; simpl; congruence.
Qed.

Lemma removal_ext f g p : f !! p = g !! p → removal f p = removal g p.
Proof. unfold removal. by intros ->. Qed.

(** One round of the first loop, whatever the store. *)
Lemma remove_old_run rp x g :
  remove_old rp x g =
  Run (removal g (rp ++ [x]))
      (match g !! (rp ++ [x]) with
       | Some EDir => filter (λ kv : list string * entry, under (rp ++ [x]) kv.1 = false) g
       | Some (EFile _ _) => delete (rp ++ [x]) g
       | None => g
       end)
      (Ret tt).
Proof.
  unfold remove_old, removal. rewrite bind_observe. unfold exists_.
  destruct (g !! (rp ++ [x])) as [[d m|]|] eqn:E; [| |done].
  - rewrite bind_log, bind_observe. unfold is_dir. rewrite E.
    by rewrite (unlink_run _ _ d m).
  - rewrite bind_log, bind_observe. unfold is_dir. rewrite E.
    by rewrite rmtree_run.
Qed.

Lemma remove_old_value rp x g : value (remove_old rp x g) = Ret tt.
Proof. by rewrite remove_old_run. Qed.

Lemma remove_old_trace rp x g : trace (remove_old rp x g) = removal g (rp ++ [x]).
Proof. by rewrite remove_old_run. Qed.

Lemma remove_old_gone rp x g k :
  wf g → under (rp ++ [x]) k = true → final (remove_old rp x g) !! k = None.
Proof.
  intros Hwf Hk. rewrite remove_old_run. simpl.
  destruct (g !! (rp ++ [x])) as [[d m|]|] eqn:E.
  - apply under_spec in Hk as [[|n q] ->].
    + rewrite app_nil_r. apply lookup_delete_eq.
    + rewrite lookup_delete_ne.
      * by apply wf_below_file with d m.
      * rewrite <- (app_nil_r (rp ++ [x])) at 1. intros H.
        by apply app_inv_head in H.
  - by rewrite lookup_rmtree, Hk.
  - apply under_spec in Hk as [[|n q] ->].
    + by rewrite app_nil_r.
    + by apply wf_missing.
Qed.

Lemma remove_old_frame rp x g k :
  under (rp ++ [x]) k = false → final (remove_old rp x g) !! k = g !! k.
Proof.
  intros Hk. rewrite remove_old_run. simpl.
  destruct (g !! (rp ++ [x])) as [[d m|]|] eqn:E; [| |done].
  - apply lookup_delete_ne. intros <-. by rewrite under_refl in Hk.
  - by rewrite lookup_rmtree, Hk.
Qed.

Lemma removing_loop rp l :
  NoDup l → ∀ g, wf g →
  let r := for_each l (remove_old rp) g in
  value r = Ret tt ∧
  (∀ k x, x ∈ l → under (rp ++ [x]) k = true → final r !! k = None) ∧
  (∀ k, (∀ x, x ∈ l → under (rp ++ [x]) k = false) → final r !! k = g !! k) ∧
  (∀ x, x ∈ l → filter (about (rp ++ [x])) (trace r) = removal g (rp ++ [x])) ∧
  (∀ p, (∀ x, x ∈ l → p ≠ rp ++ [x]) → filter (about p) (trace r) = []).
Proof.
  induction 1 as [|x l Hx Hl IH]; intros g Hwf.
  { simpl. split_and!; try done.
    - intros k x Hin. by apply elem_of_nil in Hin.
    - intros x Hin. by apply elem_of_nil in Hin. }
  pose proof (keeps_wf_remove_old rp x g Hwf) as Hwf'.
  destruct (IH _ Hwf') as (Hv & Hgone & Hframe & Hsame & Hother). clear IH.
  cbn zeta. rewrite for_each_cons, bind_unfold, remove_old_value, remove_old_trace.
  set (g' := final (remove_old rp x g)) in *.
  assert (Hsib : ∀ k x', x' ∈ l → under (rp ++ [x]) k = true →
                 under (rp ++ [x']) k = false).
  { intros k x' Hx' Hk. apply under_siblings with x; [|done]. by intros ->. }
  simpl. split_and!.
  - done.
  - intros k x' [->|Hx']%elem_of_cons Hk.
    + rewrite Hframe by eauto. by apply remove_old_gone.
    + eauto.
  - intros k Hk. rewrite Hframe.
    + apply remove_old_frame, Hk. left.
    + intros x' Hx'. apply Hk. by right.
  - intros x' [->|Hx']%elem_of_cons; rewrite filter_app.
    + rewrite filter_removal_same, Hother, app_nil_r; [done|].
      intros x' Hx' H. apply app_inv_head in H as [= ->]. done.
    + rewrite filter_removal_other, Hsame; [|done|].
      * simpl. apply removal_ext, remove_old_frame.
        apply under_siblings with x'; [by intros -> | apply under_refl].
      * intros H. apply app_inv_head in H as [= ->]. done.
  - intros p Hp. rewrite filter_app, filter_removal_other, Hother; [done| |].
    + intros x' Hx'. apply Hp. by right.
    + intros <-. by apply (Hp x); [left|].
Qed.

Lemma elem_of_distinct_objects sp rp f x :
  x ∈ distinct_objects sp rp f ↔
  (x ∈ glob_star sp f ∧ x ∉ glob_star rp f) ∨
  (x ∈ glob_star rp f ∧ x ∉ glob_star sp f).
Proof.
  unfold distinct_objects, symmetric_difference.
  rewrite elem_of_elements, elem_of_union, !elem_of_difference, !elem_of_list_to_set.
  done.
Qed.

Lemma NoDup_distinct_objects sp rp f : NoDup (distinct_objects sp rp f).
Proof. apply NoDup_elements. Qed.

(** The first loop removes the entries of the replica directory that the
    source directory does not have, and nothing else. *)
Lemma removing_spec sp rp f :
  wf f → f !! sp = Some EDir → f !! rp = Some EDir →
  let r := removing sp rp f in
  value r = Ret tt ∧
  (∀ n q, final r !! (rp ++ n :: q) =
          match f !! (sp ++ [n]) with Some _ => f !! (rp ++ n :: q) | None => None end) ∧
  (∀ n q, filter (about (rp ++ n :: q)) (trace r) =
          match f !! (sp ++ [n]), q with
          | None, [] => removal f (rp ++ [n])
          | _, _ => []
          end).
Proof.
  intros Hwf Hs Hr. cbn zeta. rewrite removing_unfold.
  destruct (removing_loop rp _ (NoDup_distinct_objects sp rp f) f Hwf)
    as (Hv & Hgone & Hframe & Hsame & Hother).
  assert (Hin : ∀ x, x ∈ distinct_objects sp rp f ↔
            (is_Some (f !! (sp ++ [x])) ∧ f !! (rp ++ [x]) = None) ∨
            (is_Some (f !! (rp ++ [x])) ∧ f !! (sp ++ [x]) = None)).
  { intros x. rewrite elem_of_distinct_objects, !elem_of_glob_star. split.
    - intros [[[_ H1] H2]|[[_ H1] H2]]; [left|right]; (split; [done|]).
      + destruct (f !! (rp ++ [x])) eqn:E; [|done]. destruct H2. eauto.
      + destruct (f !! (sp ++ [x])) eqn:E; [|done]. destruct H2. eauto.
    - intros [[H1 H2]|[H1 H2]]; [left|right]; (split; [done|]);
        intros [_ H']; rewrite H2 in H'; by destruct H'. }
  assert (Hsib : ∀ n q x, x ≠ n → under (rp ++ [x]) (rp ++ n :: q) = false).
  { intros n q x Hne. apply (under_siblings rp n x); [congruence|].
    rewrite <- (snoc_app rp n q). apply under_app. }
  split_and!.
  - done.
  - intros n q. destruct (f !! (sp ++ [n])) as [e|] eqn:Es.
    + destruct (f !! (rp ++ [n])) as [e'|] eqn:Er.
      * apply Hframe. intros x Hx. apply Hsib. intros ->.
        apply Hin in Hx as [[_ H]|[_ H]]; congruence.
      * rewrite (Hgone _ n).
        -- symmetry. destruct q as [|m q]; [done|].
           rewrite <- (snoc_app rp n (m :: q)). by apply wf_missing.
        -- apply Hin. left. by rewrite Es.
        -- rewrite <- (snoc_app rp n q). apply under_app.
    + destruct (f !! (rp ++ [n])) as [e'|] eqn:Er.
      * apply (Hgone _ n).
        -- apply Hin. right. by rewrite Er.
        -- rewrite <- (snoc_app rp n q). apply under_app.
      * rewrite Hframe.
        -- destruct q as [|m q]; [done|].
           rewrite <- (snoc_app rp n (m :: q)). by apply wf_missing.
        -- intros x Hx. apply Hsib. intros ->.
           apply Hin in Hx as [[H _]|[H _]]; rewrite ?Es, ?Er in H; by destruct H.
  - intros n q. destruct q as [|m q].
    + destruct (decide (n ∈ distinct_objects sp rp f)) as [Hn|Hn].
      * rewrite Hsame by done. apply Hin in Hn as [[[e ->] Hr']|[_ ->]]; [|done].
        unfold removal. by rewrite Hr'.
      * rewrite Hother by (intros x Hx H; apply app_inv_head in H as [= ->]; done).
        destruct (f !! (sp ++ [n])) as [e|] eqn:Es; [done|].
        unfold removal. destruct (f !! (rp ++ [n])) as [e'|] eqn:Er; [|done].
        destruct Hn. apply Hin. right. by rewrite Er.
    + rewrite Hother by (intros x Hx H; symmetry in H; by apply path_neq_snoc_cons in H).
      by destruct (f !! (sp ++ [n])).
Qed.

(** ** The second loop: one source object *)

Lemma apart_neq sp rp q q' : apart sp rp = true → sp ++ q ≠ rp ++ q'.
Proof.
  intros Hap H. apply apart_sym in Hap.
  pose proof (apart_under rp sp (sp ++ q) Hap (under_app sp q)) as Hu.
  rewrite H, under_app in Hu. done.
Qed.

Lemma apart_source_frame sp rp n q :
  apart sp rp = true → under (rp ++ [n]) (sp ++ q) = false.
Proof.
  intros Hap. destruct (under (rp ++ [n]) (sp ++ q)) eqn:E; [|done].
  apply under_spec in E as [q' E]. rewrite snoc_app in E.
  by apply apart_neq in E.
Qed.

Lemma not_under_child_self rp n : under (rp ++ [n]) rp = false.
Proof.
  apply under_false. intros q H. apply (f_equal length) in H.
  repeat rewrite length_app in H. simpl in H. lia.
Qed.

Lemma synced_child sp rp g n q :
  synced (sp ++ [n]) (rp ++ [n]) g q = synced sp rp g (n :: q).
Proof. unfold synced. by rewrite !snoc_app. Qed.

Lemma synced_ext sp rp f g q :
  f !! (sp ++ q) = g !! (sp ++ q) → f !! (rp ++ q) = g !! (rp ++ q) →
  synced sp rp f q = synced sp rp g q.
Proof. unfold synced. by intros -> ->. Qed.

Lemma synced_kind sp rp g q (e e' : entry) :
  g !! (sp ++ q) = Some e → synced sp rp g q = Some e' → same_kind e e' = true.
Proof.
  unfold synced. intros ->. destruct e as [d m|]; [|by intros [= <-]].
  destruct (g !! (rp ++ q)) as [[d' m'|]|]; [|by intros [= <-]..].
  case_bool_decide; by intros [= <-].
Qed.

(** What a pass leaves at the place of a file of the source can be read,
    and has the digest of that file unless it can be written. *)
Lemma synced_modes sp rp g q d m d' m' :
  (∀ q d m, g !! (sp ++ q) = Some (EFile d m) → readable m = true) →
  (∀ q d m d' m', g !! (sp ++ q) = Some (EFile d m) →
     g !! (rp ++ q) = Some (EFile d' m') →
     readable m' = true ∧
     (MD5.hexdigest d ≠ MD5.hexdigest d' → writable m' = true)) →
  g !! (sp ++ q) = Some (EFile d m) → synced sp rp g q = Some (EFile d' m') →
  readable m' = true ∧ (MD5.hexdigest d ≠ MD5.hexdigest d' → writable m' = true).
Proof.
  intros Hrd Hwr He. unfold synced. rewrite He.
  pose proof (Hrd q d m He) as Hread.
  destruct (g !! (rp ++ q)) as [[d0 m0|]|] eqn:Er.
  - destruct (Hwr q d m d0 m0 He Er) as [Hread' Hwrite].
    case_bool_decide as Hdig; intros [= <- <-]; [|by split].
    split; [done | intros H; by destruct H].
  - intros [= <- <-]. split; [done | intros H; by destruct H].
  - intros [= <- <-]. split; [done | intros H; by destruct H].
Qed.

Lemma actions_child sp rp g n q :
  actions (sp ++ [n]) (rp ++ [n]) g q = actions sp rp g (n :: q).
Proof. unfold actions. by rewrite !snoc_app. Qed.

Lemma actions_ext sp rp f g q :
  f !! (sp ++ q) = g !! (sp ++ q) → f !! (rp ++ q) = g !! (rp ++ q) →
  f !! parent (sp ++ q) = g !! parent (sp ++ q) →
  actions sp rp f q = actions sp rp g q.
Proof.
  unfold actions, removal, is_dir. intros -> Hr ->. by rewrite Hr.
Qed.

Lemma good_apart sp rp depth f : good sp rp depth f → apart sp rp = true.
Proof. by intros (? & _). Qed.

Lemma good_wf sp rp depth f : good sp rp depth f → wf f.
Proof. by intros (_ & ? & _). Qed.

(** The conditions hold one level down, for a directory present on both
    sides. *)
Lemma good_child sp rp depth g n :
  good sp rp (S depth) g →
  g !! (sp ++ [n]) = Some EDir → g !! (rp ++ [n]) = Some EDir →
  good (sp ++ [n]) (rp ++ [n]) depth g.
Proof.
  intros (Hap & Hwf & Hs & Hr & Hk & Hd & Hrd & Hwr) Hsn Hrn. split_and!; try done.
  - by apply apart_child.
  - intros q e e'. rewrite !snoc_app. apply Hk.
  - intros q. rewrite snoc_app. intros H%Hd. simpl in H. lia.
  - intros q d m. rewrite snoc_app. apply Hrd.
  - intros q d m d' m'. rewrite !snoc_app. apply Hwr.
Qed.

(** [mkdir] of a directory of the source that the replica lacks keeps the
    conditions. *)
Lemma good_mkdir sp rp depth g n :
  good sp rp depth g →
  g !! (sp ++ [n]) = Some EDir → g !! (rp ++ [n]) = None →
  good sp rp depth (<[rp ++ [n] := EDir]> g).
Proof.
  intros (Hap & Hwf & Hs & Hr & Hk & Hd & Hrd & Hwr) Hsn Hrn.
  assert (Hsrc : ∀ q, <[rp ++ [n] := EDir]> g !! (sp ++ q) = g !! (sp ++ q)).
  { intros q. apply lookup_insert_ne. intros H. symmetry in H.
    by apply apart_neq in H. }
  split_and!; try done.
  - apply wf_insert_new; [done | done | by rewrite parent_app].
  - rewrite <- (app_nil_r sp), Hsrc, app_nil_r. done.
  - rewrite lookup_insert_ne; [done|]. intros H.
    apply (f_equal length) in H. rewrite length_app in H. simpl in H. lia.
  - intros q e e'. rewrite Hsrc. intros He.
    destruct (decide (rp ++ [n] = rp ++ q)) as [E|Hne].
    + rewrite <- E, lookup_insert_eq. intros [= <-].
      apply app_inv_head in E as <-. rewrite Hsn in He. by injection He as <-.
    + rewrite lookup_insert_ne by done. by apply Hk.
  - intros q. rewrite Hsrc. apply Hd.
  - intros q d m. rewrite Hsrc. apply Hrd.
  - intros q d m d' m'. rewrite Hsrc. intros He.
    destruct (decide (rp ++ [n] = rp ++ q)) as [E|Hne].
    + by rewrite <- E, lookup_insert_eq.
    + rewrite lookup_insert_ne by done. by apply (Hwr q d m).
Qed.

Lemma filter_about_cons_same p it t :
  about p it → filter (about p) (it :: t) = it :: filter (about p) t.
Proof. intros H. by rewrite filter_cons_True. Qed.

Lemma filter_about_cons_other p it t :
  ¬ about p it → filter (about p) (it :: t) = filter (about p) t.
Proof. intros H. by rewrite filter_cons_False. Qed.

Lemma sync_object_spec (recurse : list string → list string → M unit) sp rp depth g n :
  (∀ g1, good (sp ++ [n]) (rp ++ [n]) depth g1 →
         pass_spec (sp ++ [n]) (rp ++ [n]) g1 (recurse (sp ++ [n]) (rp ++ [n]) g1)) →
  good sp rp (S depth) g → is_Some (g !! (sp ++ [n])) →
  let r := sync_object recurse sp rp n g in
  value r = Ret tt ∧
  (∀ q, final r !! (rp ++ n :: q) = synced sp rp g (n :: q)) ∧
  (∀ q, filter (about (rp ++ n :: q)) (trace r) = actions sp rp g (n :: q)).
Proof.
  intros Hrec Hgood [e He]. cbn zeta.
  pose proof Hgood as (Hap & Hwf & Hs & Hr & Hk & Hd & Hrd & Hwr).
  assert (Hne : sp ++ [n] ≠ rp ++ [n]) by by apply apart_neq.
  assert (Hlong : ∀ m q, rp ++ [n] ≠ rp ++ n :: m :: q).
  { intros m q H. by apply app_inv_head in H. }
  assert (Hisdir : is_dir (sp ++ [n]) g = match e with EDir => true | _ => false end).
  { unfold is_dir. by rewrite He. }
  unfold sync_object. rewrite bind_observe. cbv beta. rewrite Hisdir. clear Hisdir.
  destruct e as [d m|].
  - (* a file of the source *)
    rewrite bind_observe. cbv beta. unfold exists_.
    assert (Hbelow : ∀ m' q, g !! (sp ++ n :: m' :: q) = None).
    { intros m' q. rewrite <- (snoc_app sp n (m' :: q)). by apply wf_below_file with d m. }
    destruct (g !! (rp ++ [n])) as [e'|] eqn:Er.
    + pose proof (Hk [n] _ _ He Er) as Hsame. destruct e' as [d' m'|]; [clear Hsame|done].
      assert (Hbelow' : ∀ m'' q, g !! (rp ++ n :: m'' :: q) = None).
      { intros m'' q. rewrite <- (snoc_app rp n (m'' :: q)). by apply wf_below_file with d' m'. }
      pose proof (Hrd [n] _ _ He) as Hread.
      destruct (Hwr [n] _ _ _ _ He Er) as [Hread' Hwrite].
      rewrite (bind_run _ _ _ _ _ _ (read_bytes_run _ _ _ _ He Hread)), prepend_nil.
      rewrite (bind_run _ _ _ _ _ _ (read_bytes_run _ _ _ _ Er Hread')), prepend_nil.
      case_bool_decide as Hdig.
      * rewrite bind_log,
          (copy_run_over _ _ _ _ _ _ _ He Hread Er (Hwrite Hdig) Hne). simpl.
        split_and!; [done|..].
        -- intros [|m'' q].
           ++ rewrite lookup_insert_eq. unfold synced. rewrite He, Er.
              by rewrite bool_decide_eq_true_2.
           ++ rewrite lookup_insert_ne by done. rewrite Hbelow'.
              unfold synced. by rewrite Hbelow.
        -- intros [|m'' q].
           ++ rewrite !filter_about_cons_same by done. simpl.
              unfold actions. rewrite He, Er. by rewrite bool_decide_eq_true_2.
           ++ rewrite !filter_about_cons_other
                by (unfold about; simpl; intros [= H]; by apply Hlong in H).
              unfold actions. by rewrite Hbelow, Hbelow'.
      * simpl. split_and!; [done|..].
        -- intros [|m'' q].
           ++ unfold synced. rewrite He, Er. by rewrite bool_decide_eq_false_2 by (intros H; apply H, Hdig).
           ++ rewrite Hbelow'. unfold synced. by rewrite Hbelow.
        -- intros [|m'' q].
           ++ unfold actions. rewrite He, Er. by rewrite bool_decide_eq_false_2 by (intros H; apply H, Hdig).
           ++ unfold actions. by rewrite Hbelow, Hbelow'.
    + assert (Hbelow' : ∀ m'' q, g !! (rp ++ n :: m'' :: q) = None).
      { intros m'' q. rewrite <- (snoc_app rp n (m'' :: q)). by apply wf_missing. }
      rewrite bind_log, (copy_run_new _ _ _ _ _ He (Hrd [n] _ _ He) Er)
        by by rewrite parent_app.
      simpl. split_and!; [done|..].
      * intros [|m'' q].
        -- rewrite lookup_insert_eq. unfold synced. by rewrite He, Er.
        -- rewrite lookup_insert_ne by done. rewrite Hbelow'.
           unfold synced. by rewrite Hbelow.
      * intros [|m'' q].
        -- rewrite !filter_about_cons_same by done. simpl.
           unfold actions. by rewrite He, Er.
        -- rewrite !filter_about_cons_other
             by (unfold about; simpl; intros [= H]; by apply Hlong in H).
           unfold actions. by rewrite Hbelow, Hbelow'.
  - (* a directory of the source *)
    rewrite bind_observe. cbv beta. unfold exists_.
    destruct (g !! (rp ++ [n])) as [e'|] eqn:Er.
    + pose proof (Hk [n] _ _ He Er) as Hsame. destruct e' as [|]; [done|clear Hsame].
      rewrite bind_ret.
      destruct (Hrec g (good_child _ _ _ _ _ Hgood He Er)) as (Hv & Hf & Ht).
      split_and!; [done|..].
      * intros q. rewrite <- (snoc_app rp n q), Hf. apply synced_child.
      * intros q. rewrite <- (snoc_app rp n q), Ht. apply actions_child.
    + rewrite bind_assoc, bind_log.
      rewrite (bind_run _ _ _ _ _ _ (mkdir_run _ _ Er ltac:(by rewrite parent_app))).
      rewrite prepend_prepend. simpl.
      set (g1 := <[rp ++ [n] := EDir]> g).
      pose proof (good_mkdir _ _ _ _ _ Hgood He Er) as Hgood1. fold g1 in Hgood1.
      assert (Hs1 : ∀ q, g1 !! (sp ++ q) = g !! (sp ++ q)).
      { intros q. apply lookup_insert_ne. intros H. symmetry in H.
        by apply apart_neq in H. }
      assert (Hsn1 : g1 !! (sp ++ [n]) = Some EDir) by by rewrite Hs1.
      assert (Hrn1 : g1 !! (rp ++ [n]) = Some EDir) by apply lookup_insert_eq.
      destruct (Hrec g1 (good_child _ _ _ _ _ Hgood1 Hsn1 Hrn1)) as (Hv & Hf & Ht).
      split_and!; [done|..].
      * intros q. rewrite <- (snoc_app rp n q), Hf, synced_child.
        destruct q as [|m'' q].
        -- unfold synced. by rewrite Hsn1, He.
        -- apply synced_ext; [apply Hs1 | by apply lookup_insert_ne].
      * intros q. destruct q as [|m'' q].
        -- rewrite !filter_about_cons_same by done.
           pose proof (Ht []) as Ht0. rewrite app_nil_r in Ht0. rewrite Ht0.
           unfold actions. rewrite !app_nil_r, Hsn1, Hrn1, He, Er. done.
        -- rewrite !filter_about_cons_other
             by (unfold about; simpl; intros [= H]; by apply Hlong in H).
           rewrite <- (snoc_app rp n (m'' :: q)), Ht, actions_child.
           apply actions_ext; [apply Hs1 | by apply lookup_insert_ne |].
           rewrite parent_app_cons. apply Hs1.
Qed.

(** ** The second loop, and one pass *)

Section second_loop.
Variables (recurse : list string → list string → M unit).
Variables (sp rp : list string) (depth : nat).
Hypothesis recurse_spec : ∀ n g,
  good (sp ++ [n]) (rp ++ [n]) depth g →
  pass_spec (sp ++ [n]) (rp ++ [n]) g (recurse (sp ++ [n]) (rp ++ [n]) g).
Hypothesis recurse_confined : ∀ n,
  confined (under (rp ++ [n])) (recurse (sp ++ [n]) (rp ++ [n])).
Hypothesis recurse_keeps_wf : ∀ s r, keeps wf (recurse s r).

Lemma sync_object_frame g n k :
  under (rp ++ [n]) k = false →
  final (sync_object recurse sp rp n g) !! k = g !! k.
Proof.
  intros Hk.
  destruct (confined_sync_object recurse sp rp n (recurse_confined n) g) as [H _].
  by apply H.
Qed.

Lemma sync_object_silent g n p :
  under (rp ++ [n]) p = false →
  filter (about p) (trace (sync_object recurse sp rp n g)) = [].
Proof.
  intros Hp. apply (confined_filter (under (rp ++ [n]))); [|done].
  apply confined_sync_object, recurse_confined.
Qed.

Lemma sync_object_good g n :
  good sp rp (S depth) g → is_Some (g !! (sp ++ [n])) →
  good sp rp (S depth) (final (sync_object recurse sp rp n g)).
Proof.
  intros Hgood Hn.
  destruct (sync_object_spec recurse sp rp depth g n (recurse_spec n) Hgood Hn)
    as (_ & Hf & _).
  destruct Hgood as (Hap & Hwf & Hs & Hr & Hk & Hd & Hrd & Hwr).
  assert (Hsrc : ∀ q, final (sync_object recurse sp rp n g) !! (sp ++ q) = g !! (sp ++ q)).
  { intros q. by apply sync_object_frame, apart_source_frame. }
  split_and!; try done.
  - by apply keeps_wf_sync_object.
  - pose proof (Hsrc []) as H0. rewrite app_nil_r in H0. by rewrite H0.
  - rewrite sync_object_frame; [done | apply not_under_child_self].
  - intros q e e'. rewrite Hsrc. intros He.
    destruct (under (rp ++ [n]) (rp ++ q)) eqn:E.
    + apply under_spec in E as [q' E]. rewrite snoc_app in E.
      apply app_inv_head in E as ->. rewrite Hf. by apply synced_kind.
    + rewrite sync_object_frame by done. by apply Hk.
  - intros q. rewrite Hsrc. apply Hd.
  - intros q d m. rewrite Hsrc. apply Hrd.
  - intros q d m d' m'. rewrite Hsrc. intros He.
    destruct (under (rp ++ [n]) (rp ++ q)) eqn:E.
    + apply under_spec in E as [q' E]. rewrite snoc_app in E.
      apply app_inv_head in E as ->. rewrite Hf.
      by apply (synced_modes sp rp g (n :: q') d m d' m' Hrd Hwr).
    + rewrite sync_object_frame by done. by apply (Hwr q d m).
Qed.

Lemma synchronizing_loop l :
  NoDup l → ∀ g, good sp rp (S depth) g →
  (∀ n, n ∈ l → is_Some (g !! (sp ++ [n]))) →
  let r := for_each l (sync_object recurse sp rp) g in
  value r = Ret tt ∧
  (∀ n q, n ∈ l → final r !! (rp ++ n :: q) = synced sp rp g (n :: q)) ∧
  (∀ k, (∀ n, n ∈ l → under (rp ++ [n]) k = false) → final r !! k = g !! k) ∧
  (∀ n q, n ∈ l →
     filter (about (rp ++ n :: q)) (trace r) = actions sp rp g (n :: q)) ∧
  (∀ p, (∀ n, n ∈ l → under (rp ++ [n]) p = false) →
     filter (about p) (trace r) = []).
Proof.
  induction 1 as [|n l Hn Hl IH]; intros g Hgood Hnames.
  { simpl. split_and!; try done.
    - intros n q Hin. by apply elem_of_nil in Hin.
    - intros n q Hin. by apply elem_of_nil in Hin. }
  assert (Hn' : is_Some (g !! (sp ++ [n]))) by (apply Hnames; left).
  destruct (sync_object_spec recurse sp rp depth g n (recurse_spec n) Hgood Hn')
    as (Hv0 & Hf0 & Ht0).
  pose proof (sync_object_good g n Hgood Hn') as Hgood'.
  pose proof (sync_object_frame g n) as Hframe0.
  pose proof (sync_object_silent g n) as Hsilent0.
  set (g' := final (sync_object recurse sp rp n g)) in *.
  assert (Hap : apart sp rp = true) by by destruct Hgood.
  assert (Hsrc : ∀ q, g' !! (sp ++ q) = g !! (sp ++ q)).
  { intros q. by apply Hframe0, apart_source_frame. }
  assert (Hsib : ∀ n' q, n' ∈ l → under (rp ++ [n]) (rp ++ n' :: q) = false).
  { intros n' q Hn'l. apply (under_siblings rp n' n); [by intros ->|].
    rewrite <- (snoc_app rp n' q). apply under_app. }
  assert (Hsib' : ∀ n' q, n' ∈ l → under (rp ++ [n']) (rp ++ n :: q) = false).
  { intros n' q Hn'l. apply (under_siblings rp n n'); [by intros ->|].
    rewrite <- (snoc_app rp n q). apply under_app. }
  destruct (IH g' Hgood') as (Hv & Hf & Hframe & Ht & Hsilent).
  { intros n' Hn'l. rewrite Hsrc. apply Hnames. by right. }
  clear IH. cbn zeta. rewrite for_each_cons, bind_unfold, Hv0. simpl.
  split_and!.
  - done.
  - intros n' q [->|Hn'l]%elem_of_cons.
    + rewrite Hframe by (intros; by apply Hsib'). apply Hf0.
    + rewrite Hf by done. apply synced_ext; [apply Hsrc|].
      by apply Hframe0, Hsib.
  - intros k Hk. rewrite Hframe.
    + apply Hframe0, Hk. left.
    + intros n' Hn'l. apply Hk. by right.
  - intros n' q [->|Hn'l]%elem_of_cons; rewrite filter_app.
    + rewrite Ht0, Hsilent, app_nil_r; [done|]. intros; by apply Hsib'.
    + rewrite Hsilent0, Ht by (done || by apply Hsib). simpl.
      apply actions_ext; [apply Hsrc | by apply Hframe0, Hsib |].
      rewrite parent_app_cons. apply Hsrc.
  - intros p Hp. rewrite filter_app, Hsilent0, Hsilent; [done| |].
    + intros n' Hn'l. apply Hp. by right.
    + apply Hp. left.
Qed.
End second_loop.

(** *** One pass

    From a store that meets the conditions, a pass returns; below the
    replica root it leaves [synced], and what it reports about each path
    there is [actions]. *)
Lemma synchronize_pass_spec depth :
  ∀ sp rp f, good sp rp depth f → pass_spec sp rp f (synchronize depth sp rp f).
Proof.
  induction depth as [|depth IH]; intros sp rp f Hgood.
  { destruct Hgood as (_ & _ & Hs & _ & _ & Hd & _).
    specialize (Hd []). rewrite app_nil_r, Hs in Hd.
    specialize (Hd ltac:(eauto)). simpl in Hd. lia. }
  pose proof Hgood as (Hap & Hwf & Hs & Hr & Hk & Hd & Hrd & Hwr).
  rewrite synchronize_unfold.
  destruct (removing_spec sp rp f Hwf Hs Hr) as (Hv1 & Hf1 & Ht1).
  destruct (confined_removing sp rp f) as [Hframe1 _].
  pose proof (confined_filter _ _ f rp (confined_removing sp rp)
                (strictly_under_irrefl rp)) as Hroot1.
  pose proof (keeps_wf_removing sp rp f Hwf) as Hwf1.
  rewrite bind_unfold, Hv1.
  set (f1 := final (removing sp rp f)) in *.
  assert (Hsrc : ∀ q, f1 !! (sp ++ q) = f !! (sp ++ q)).
  { intros q. apply Hframe1. destruct (strictly_under rp (sp ++ q)) eqn:E; [|done].
    apply strictly_under_under, under_spec in E as [q' E]. by apply apart_neq in E. }
  assert (Hs1 : f1 !! sp = Some EDir).
  { rewrite <- (app_nil_r sp), Hsrc, app_nil_r. done. }
  assert (Hr1 : f1 !! rp = Some EDir).
  { rewrite Hframe1; [done | apply strictly_under_irrefl]. }
  assert (Hsub : ∀ q (e : entry), f1 !! (rp ++ q) = Some e → f !! (rp ++ q) = Some e).
  { intros [|n q] e.
    - rewrite app_nil_r, Hr1, Hr. done.
    - rewrite Hf1. by destruct (f !! (sp ++ [n])). }
  assert (Hgood1 : good sp rp (S depth) f1).
  { split_and!; try done.
    - intros q e e'. rewrite Hsrc. intros He He1. apply (Hk q); [done|]. by apply Hsub.
    - intros q. rewrite Hsrc. apply Hd.
    - intros q d m. rewrite Hsrc. apply Hrd.
    - intros q d m d' m'. rewrite Hsrc. intros He He1.
      apply (Hwr q d m); [done|]. by apply Hsub. }
  rewrite synchronizing_unfold.
  destruct (synchronizing_loop (synchronize depth) sp rp depth
              (λ n, IH (sp ++ [n]) (rp ++ [n]))
              (λ n, synchronize_confined depth (sp ++ [n]) (rp ++ [n]))
              (synchronize_keeps_wf depth)
              (glob_star sp f1) (NoDup_glob_star sp f1) f1 Hgood1)
    as (Hv2 & Hf2 & Hframe2 & Ht2 & Hsilent2).
  { intros n Hn. by apply elem_of_glob_star in Hn as [_ ?]. }
  assert (Hin : ∀ n, n ∈ glob_star sp f1 ↔ is_Some (f !! (sp ++ [n]))).
  { intros n. rewrite elem_of_glob_star, Hsrc. tauto. }
  assert (Hsib : ∀ n n' q, n' ≠ n → under (rp ++ [n']) (rp ++ n :: q) = false).
  { intros n n' q Hne. apply (under_siblings rp n n'); [done|].
    rewrite <- (snoc_app rp n q). apply under_app. }
  split_and!.
  - done.
  - intros [|n q]; cbn [prepend trace final value app].
    + rewrite app_nil_r, Hframe2 by (intros; apply not_under_child_self).
      rewrite Hr1. unfold synced. by rewrite app_nil_r, Hs.
    + destruct (f !! (sp ++ [n])) as [e|] eqn:Es.
      * rewrite Hf2 by (apply Hin; by rewrite Es).
        apply synced_ext; [apply Hsrc|]. by rewrite Hf1, Es.
      * rewrite Hframe2.
        -- rewrite Hf1, Es. unfold synced.
           destruct q as [|m q]; [by rewrite Es|].
           by rewrite <- (snoc_app sp n (m :: q)), wf_missing.
        -- intros n' Hn'. apply Hsib. intros ->.
           apply Hin in Hn'. rewrite Es in Hn'. by destruct Hn'.
  - intros [|n q]; cbn [prepend trace final value app].
    + rewrite app_nil_r, filter_about_cons_same, filter_app, Hroot1 by done.
      rewrite Hsilent2 by (intros; apply not_under_child_self).
      unfold actions. by rewrite !app_nil_r, Hs, Hr.
    + rewrite filter_about_cons_other, filter_app, Ht1.
      2:{ unfold about. simpl. intros [= H]. rewrite <- (app_nil_r rp) in H at 1.
          by apply app_inv_head in H. }
      destruct (f !! (sp ++ [n])) as [e|] eqn:Es.
      * rewrite Ht2 by (apply Hin; by rewrite Es). cbn [app].
        apply actions_ext; [apply Hsrc | by rewrite Hf1, Es |].
        rewrite parent_app_cons. apply Hsrc.
      * rewrite Hsilent2.
        2:{ intros n' Hn'. apply Hsib. intros ->.
            apply Hin in Hn'. rewrite Es in Hn'. by destruct Hn'. }
        rewrite app_nil_r. unfold actions. destruct q as [|m q].
        -- rewrite Es, parent_app. unfold is_dir. rewrite Hs.
           unfold removal. by destruct (f !! (rp ++ [n])) as [[]|].
        -- rewrite <- (snoc_app sp n (m :: q)), wf_missing by done.
           rewrite snoc_app, parent_app_cons.
           assert (f !! (sp ++ parent (n :: m :: q)) = None) as Hpar.
           { destruct (path_snoc_inv (m :: q)) as [?|(q' & m' & E)]; [done|].
             rewrite E. change (n :: q' ++ [m']) with ((n :: q') ++ [m']).
             unfold parent at 1. rewrite removelast_last.
             destruct q' as [|m'' q']; [done|].
             by rewrite <- (snoc_app sp n (m'' :: q')), wf_missing. }
           unfold is_dir. rewrite Hpar. by destruct (f !! (rp ++ n :: m :: q)).
Qed.

(** ** What one pass achieves *)

Lemma ready_good sp rp depth f : ready sp rp depth f = true → good sp rp depth f.
Proof.
  unfold ready. rewrite !andb_true_iff.
  intros [[[[[[Hap Hwf] Hs] Hr] Hk] Hd] [Hrd Hwr]%permitted_spec]. split_and!.
  - done.
  - by apply well_formed_spec.
  - by apply is_dir_true.
  - by apply is_dir_true.
  - by apply kinds_agree_spec.
  - by apply shallower_spec.
  - done.
  - done.
Qed.

(** A pass changes nothing outside the replica root. *)
Lemma synchronize_frame depth sp rp f k :
  under rp k = false → final (synchronize depth sp rp f) !! k = f !! k.
Proof. intros Hk. destruct (synchronize_confined depth sp rp f) as [H _]. by apply H. Qed.

(** A pass leaves the source tree as it is, when the roots are apart. *)
Lemma synchronize_source_kept depth sp rp f q :
  apart sp rp = true → final (synchronize depth sp rp f) !! (sp ++ q) = f !! (sp ++ q).
Proof.
  intros Hap. apply synchronize_frame.
  destruct (under rp (sp ++ q)) eqn:E; [|done].
  apply under_spec in E as [q' E]. by apply apart_neq in E.
Qed.

Lemma view_synced sp rp f q :
  (∀ d m d' m', f !! (sp ++ q) = Some (EFile d m) →
     f !! (rp ++ q) = Some (EFile d' m') →
     MD5.hexdigest d = MD5.hexdigest d' → d = d') →
  content_of <$> synced sp rp f q = view f (sp ++ q).
Proof.
  intros Hd. unfold synced, view.
  destruct (f !! (sp ++ q)) as [[d m|]|] eqn:Es; [|done..].
  destruct (f !! (rp ++ q)) as [[d' m'|]|] eqn:Er; [|done..].
  case_bool_decide as Hdig; [done|]. simpl.
  rewrite (Hd d m d' m'); [done..|]. by destruct (decide (MD5.hexdigest d = MD5.hexdigest d')).
Qed.

(** C1 (amended): convergence.  In a well-formed store where the source and
    the replica roots are directories neither of which lies inside the
    other, where every path present under both roots has the same kind under
    both, where the source tree is shallower than the recursion limit, where
    the modes let the pass through (every file of the source can be read; a
    file of the replica at the place of one can be read, and written when
    its digest differs) and where files at the same place with different
    bytes have different MD5 digests, one call of [synchronize] returns, the
    tree below the replica root then has the names and the file contents the
    source tree had, and the source tree is as it was. *)
Theorem synchronize_converges sp rp depth f :
  ready sp rp depth f = true → digests_tell sp rp f = true →
  value (synchronize depth sp rp f) = Ret tt ∧
  (∀ q, view (final (synchronize depth sp rp f)) (rp ++ q) = view f (sp ++ q)) ∧
  (∀ q, final (synchronize depth sp rp f) !! (sp ++ q) = f !! (sp ++ q)) ∧
  mirrors sp rp (final (synchronize depth sp rp f)).
Proof.
  intros Hready Hdig. pose proof (ready_good _ _ _ _ Hready) as Hgood.
  destruct (synchronize_pass_spec depth sp rp f Hgood) as (Hv & Hf & _).
  assert (Hview : ∀ q, view (final (synchronize depth sp rp f)) (rp ++ q) = view f (sp ++ q)).
  { intros q. unfold view at 1. rewrite Hf. apply view_synced.
    intros d m d' m'. by apply digests_tell_spec. }
  assert (Hsrc : ∀ q, final (synchronize depth sp rp f) !! (sp ++ q) = f !! (sp ++ q)).
  { intros q. apply synchronize_source_kept. by destruct Hgood. }
  split_and!; try done.
  intros q. rewrite Hview. unfold view. by rewrite Hsrc.
Qed.

Lemma synchronize_converges_witness :
  ready ["source"] ["replica"] 5 demo = true ∧
  digests_tell ["source"] ["replica"] demo = true ∧
  value (synchronize 5 ["source"] ["replica"] demo) = Ret tt ∧
  (∀ q, view (final (synchronize 5 ["source"] ["replica"] demo)) (["replica"] ++ q)
        = view demo (["source"] ++ q)).
Proof.
  split; [vm_compute; reflexivity|]. split; [vm_compute; reflexivity|].
  destruct (synchronize_converges ["source"] ["replica"] 5 demo) as (Hv & Hview & _).
  - vm_compute; reflexivity.
  - vm_compute; reflexivity.
  - split; [exact Hv | exact Hview].
Defined.

(** C1 as stated fails: the two files of [collided] differ and have one
    digest; the pass returns and the replica keeps its own bytes. *)
Lemma convergence_fails_on_equal_digests :
  ready ["source"] ["replica"] 5 collided = true ∧
  value (synchronize 5 ["source"] ["replica"] collided) = Ret tt ∧
  ¬ (∀ q, view (final (synchronize 5 ["source"] ["replica"] collided)) (["replica"] ++ q)
          = view collided (["source"] ++ q)).
Proof.
  split; [vm_compute; reflexivity|]. split; [vm_compute; reflexivity|].
  intros H. specialize (H ["a.bin"]). vm_compute in H. discriminate H.
Qed.

(** It fails on modes too: a file of the replica that differs from the
    source's and cannot be written ends the pass with [PermissionError], and
    the file stays as it was. *)
Example read_only_file_stays :
  permitted ["source"] ["replica"] read_only = false ∧
  value (synchronize 5 ["source"] ["replica"] read_only) = Raise PermissionError ∧
  final (synchronize 5 ["source"] ["replica"] read_only) !! ["replica"; "a.txt"]
  = Some (EFile (bytes_of "HELLO") 256).
Proof. split_and!; vm_compute; reflexivity. Qed.

(** A file of the source that cannot be read ends the pass as well. *)
Example unreadable_source_file_stops_the_pass :
  value (synchronize 5 ["source"] ["replica"]
           (<[["source"; "sub"; "b.txt"] := EFile (bytes_of "world") 128]> demo))
  = Raise PermissionError.
Proof. vm_compute. reflexivity. Qed.

(** The scenario of the specification, evaluated. *)
Example demo_trace :
  trace (synchronize 5 ["source"] ["replica"] demo) =
  [ Log INFO (Checking ["replica"] ["source"]);
    Log WARNING (Removing ["replica"; "old.txt"]);
    Call (Unlink ["replica"; "old.txt"]);
    Log WARNING (Creating ["replica"; "sub"]);
    Call (Mkdir ["replica"; "sub"]);
    Log INFO (Checking ["replica"; "sub"] ["source"; "sub"]);
    Log WARNING (Adding ["replica"; "sub"; "b.txt"]);
    Call (Copy ["source"; "sub"; "b.txt"] ["replica"; "sub"; "b.txt"]) ].
Proof. vm_compute. reflexivity. Qed.

(** A directory of the source where the replica holds a file: the pass
    returns and the file stays. *)
Example mismatched_stays :
  value (synchronize 5 ["source"] ["replica"] mismatched) = Ret tt ∧
  final (synchronize 5 ["source"] ["replica"] mismatched) !! ["replica"; "d"]
  = Some (EFile (bytes_of "data") 420).
Proof. split; vm_compute; reflexivity. Qed.

(** C5 (amended): two files at the same place under the two roots whose MD5
    digests differ.  Under the conditions of the pass, which include that
    every file of the source can be read and that a file of the replica
    whose digest differs from the source's can be read and written, what the
    pass reports about the replica file is one updating record and the copy
    it announces, and the replica file ends with the bytes (and the mode) of
    the source file. *)
Theorem changed_file_updated_once sp rp depth f q d m d' m' :
  ready sp rp depth f = true →
  f !! (sp ++ q) = Some (EFile d m) → f !! (rp ++ q) = Some (EFile d' m') →
  MD5.hexdigest d ≠ MD5.hexdigest d' →
  value (synchronize depth sp rp f) = Ret tt ∧
  filter (about (rp ++ q)) (trace (synchronize depth sp rp f)) =
    [Log WARNING (Updating (rp ++ q)); Call (Copy (sp ++ q) (rp ++ q))] ∧
  length (filter (λ it, it = Log WARNING (Updating (rp ++ q)))
            (trace (synchronize depth sp rp f))) = 1%nat ∧
  final (synchronize depth sp rp f) !! (rp ++ q) = Some (EFile d m).
Proof.
  intros Hready Hs Hr Hdig. pose proof (ready_good _ _ _ _ Hready) as Hgood.
  destruct (synchronize_pass_spec depth sp rp f Hgood) as (Hv & Hf & Ht).
  assert (Hab : filter (about (rp ++ q)) (trace (synchronize depth sp rp f)) =
            [Log WARNING (Updating (rp ++ q)); Call (Copy (sp ++ q) (rp ++ q))]).
  { rewrite Ht. unfold actions. rewrite Hs, Hr. by rewrite bool_decide_eq_true_2. }
  split_and!; [done | done | | ].
  - rewrite <- (list_filter_filter_l (λ it, it = Log WARNING (Updating (rp ++ q)))
                  (about (rp ++ q))) by (intros it ->; reflexivity).
    rewrite Hab, filter_cons_True, filter_cons_False by done. reflexivity.
  - rewrite Hf. unfold synced. rewrite Hs, Hr. by rewrite bool_decide_eq_true_2.
Qed.

Lemma changed_file_updated_once_witness :
  ready ["source"] ["replica"] 5 edited = true ∧
  MD5.hexdigest (bytes_of "hello") ≠ MD5.hexdigest (bytes_of "HELLO") ∧
  filter (about ["replica"; "a.txt"]) (trace (synchronize 5 ["source"] ["replica"] edited)) =
    [Log WARNING (Updating ["replica"; "a.txt"]);
     Call (Copy ["source"; "a.txt"] ["replica"; "a.txt"])] ∧
  final (synchronize 5 ["source"] ["replica"] edited) !! ["replica"; "a.txt"]
  = Some (EFile (bytes_of "hello") 420).
Proof.
  split; [vm_compute; reflexivity|]. split; [vm_compute; discriminate|].
  destruct (changed_file_updated_once ["source"] ["replica"] 5 edited ["a.txt"]
              (bytes_of "hello") 420 (bytes_of "HELLO") 420) as (_ & Ht & _ & Hf).
  - vm_compute; reflexivity.
  - vm_compute; reflexivity.
  - vm_compute; reflexivity.
  - vm_compute; discriminate.
  - split; [exact Ht | exact Hf].
Defined.

(** C5 as stated fails: the two files of [collided] differ in their bytes,
    the pass reports no update, and the replica file keeps its bytes. *)
Lemma differing_bytes_not_updated :
  collided !! ["source"; "a.bin"] = Some (EFile collision_a 420) ∧
  collided !! ["replica"; "a.bin"] = Some (EFile collision_b 420) ∧
  collision_a ≠ collision_b ∧
  value (synchronize 5 ["source"] ["replica"] collided) = Ret tt ∧
  (Log WARNING (Updating ["replica"; "a.bin"])
     ∉ trace (synchronize 5 ["source"] ["replica"] collided)) ∧
  final (synchronize 5 ["source"] ["replica"] collided) !! ["replica"; "a.bin"]
  = Some (EFile collision_b 420).
Proof.
  split_and!; try (vm_compute; reflexivity).
  - vm_compute. discriminate.
  - assert (trace (synchronize 5 ["source"] ["replica"] collided)
            = [Log INFO (Checking ["replica"] ["source"])]) as ->
      by (vm_compute; reflexivity).
    intros H. apply list_elem_of_singleton in H. discriminate H.
Qed.

Example collision_digests :
  MD5.hexdigest collision_a = "79054025255fb1a26e4bc422aef54eb4"%string ∧
  MD5.hexdigest collision_b = "79054025255fb1a26e4bc422aef54eb4"%string.
Proof. split; vm_compute; reflexivity. Qed.

(** ** What a computation reports, and that it ends *)

Section reports.
Context {A B : Type} (Q : item → Prop).

Lemma reports_ret (a : A) : reports Q (ret a).
Proof. intros f. constructor. Qed.

Lemma reports_raise (e : exn) : reports Q (raise e : M A).
Proof. intros f. constructor. Qed.

Lemma reports_observe (q : gmap (list string) entry → A) : reports Q (observe q).
Proof. intros f. constructor. Qed.

Lemma reports_bind (m : M A) (k : A → M B) :
  reports Q m → (∀ a, reports Q (k a)) → reports Q (bind m k).
Proof.
  intros Hm Hk f. rewrite bind_unfold. specialize (Hm f).
  destruct (m f) as [t g [a| |]]; simpl in *; try done.
  apply Forall_app. split; [done | apply Hk].
Qed.
End reports.

Lemma reports_emit (Q : item → Prop) it : Q it → reports Q (emit it).
Proof. intros H f. simpl. by repeat constructor. Qed.

Lemma reports_for_each {X : Type} (Q : item → Prop) (l : list X) (body : X → M unit) :
  (∀ a, a ∈ l → reports Q (body a)) → reports Q (for_each l body).
Proof.
  induction l as [|a l IH]; intros H; [apply reports_ret|].
  simpl. apply reports_bind; [apply H; left|].
  intros _. apply IH. intros a' Ha'. apply H. by right.
Qed.

Lemma reports_impl {A : Type} (Q Q' : item → Prop) (m : M A) :
  (∀ it, Q it → Q' it) → reports Q m → reports Q' m.
Proof. intros H Hm f. eapply Forall_impl; [apply Hm | done]. Qed.

Lemma confined_reports {A : Type} (P : list string → bool) (m : M A) :
  confined P m → reports (λ it, ∃ p, item_path it = Some p ∧ P p = true) m.
Proof. intros H f. by destruct (H f). Qed.

Section halts.
Context {A B : Type}.

Lemma halts_ret (a : A) : halts (ret a).
Proof. by intros f. Qed.

Lemma halts_raise (e : exn) : halts (raise e : M A).
Proof. by intros f. Qed.

Lemma halts_observe (q : gmap (list string) entry → A) : halts (observe q).
Proof. by intros f. Qed.

Lemma halts_bind (m : M A) (k : A → M B) :
  halts m → (∀ a, halts (k a)) → halts (bind m k).
Proof.
  intros Hm Hk f. rewrite bind_unfold. specialize (Hm f).
  destruct (m f) as [t g [a| |]]; simpl in *; try done. apply Hk.
Qed.
End halts.

Lemma halts_emit it : halts (emit it).
Proof. by intros f. Qed.

Lemma halts_put g : halts (put g).
Proof. by intros f. Qed.

Lemma halts_for_each {X : Type} (l : list X) (body : X → M unit) :
  (∀ a, halts (body a)) → halts (for_each l body).
Proof.
  intros H. induction l as [|a l IH]; [apply halts_ret|].
  simpl. apply halts_bind; [apply H | intros _; apply IH].
Qed.

Lemma halts_read_bytes p : halts (read_bytes p).
Proof.
  intros f. unfold read_bytes.
  destruct (f !! p) as [[d m|]|]; try destruct (readable m); done.
Qed.

Lemma halts_rmtree p : halts (rmtree p).
Proof.
  unfold rmtree. apply halts_bind; [apply halts_emit|]. intros _ f.
  rewrite bind_observe. simpl. by destruct (f !! p) as [[]|].
Qed.

Lemma halts_unlink p : halts (unlink p).
Proof.
  unfold unlink. apply halts_bind; [apply halts_emit|]. intros _ f.
  rewrite bind_observe. simpl. by destruct (f !! p) as [[]|].
Qed.

Lemma halts_create p (e : entry) : halts (create p e).
Proof.
  intros f. unfold create. rewrite bind_observe. simpl.
  by destruct (f !! parent p) as [[]|].
Qed.

Lemma halts_mkdir p : halts (mkdir p).
Proof.
  unfold mkdir. apply halts_bind; [apply halts_emit|]. intros _ f.
  rewrite bind_observe. simpl. destruct (f !! p); [done | apply halts_create].
Qed.

Lemma halts_copy src dst : halts (copy src dst).
Proof.
  unfold copy. apply halts_bind; [apply halts_emit|]. intros _ f.
  rewrite bind_observe. simpl.
  set (dst' := if is_dir dst f then dst ++ [name src] else dst).
  destruct (exists_ src f && bool_decide (src = dst')); [done|].
  destruct (f !! src) as [[d m|]|]; try done.
  destruct (readable m); [|done]. simpl.
  destruct (f !! dst') as [[d' m'|]|]; try done; [|apply halts_create].
  by destruct (writable m').
Qed.

Lemma halts_sleep (seconds : Z) : halts (sleep seconds).
Proof.
  unfold sleep. apply halts_bind; [apply halts_emit|]. intros _.
  destruct ((seconds <? -9223372036) || (9223372036 <? seconds));
    [apply halts_raise|].
  destruct (seconds <? 0); [apply halts_raise | apply halts_ret].
Qed.

Lemma halts_remove_old rp x : halts (remove_old rp x).
Proof.
  unfold remove_old. apply halts_bind; [apply halts_observe|].
  intros [|]; [|apply halts_ret].
  apply halts_bind; [apply halts_emit|]. intros _.
  apply halts_bind; [apply halts_observe|].
  intros [|]; [apply halts_rmtree | apply halts_unlink].
Qed.

Lemma halts_sync_object (recurse : list string → list string → M unit) sp rp n :
  (∀ s r, halts (recurse s r)) → halts (sync_object recurse sp rp n).
Proof.
  intros Hrec. unfold sync_object.
  apply halts_bind; [apply halts_observe|]. intros [|].
  - apply halts_bind; [apply halts_observe|]. intros present.
    apply halts_bind; [|intros _; apply Hrec].
    destruct present; [apply halts_ret|].
    apply halts_bind; [apply halts_emit | intros _; apply halts_mkdir].
  - apply halts_bind; [apply halts_observe|]. intros [|].
    + apply halts_bind; [apply halts_read_bytes|]. intros d.
      apply halts_bind; [apply halts_read_bytes|]. intros d'.
      case_bool_decide; [|apply halts_ret].
      apply halts_bind; [apply halts_emit | intros _; apply halts_copy].
    + apply halts_bind; [apply halts_emit | intros _; apply halts_copy].
Qed.

(** A pass ends: it returns or it raises. *)
Lemma synchronize_halts depth sp rp : halts (synchronize depth sp rp).
Proof.
  revert sp rp. induction depth as [|depth IH]; intros sp rp.
  - apply halts_raise.
  - intros f. rewrite synchronize_unfold.
    cbn [prepend value]. revert f. apply halts_bind.
    + unfold removing. apply halts_bind; [apply halts_observe|]. intros l.
      apply halts_bind; [apply halts_observe|]. intros l'.
      apply halts_for_each. intros x. apply halts_remove_old.
    + intros _. unfold synchronizing. apply halts_bind; [apply halts_observe|].
      intros l. apply halts_for_each. intros n. by apply halts_sync_object.
Qed.

(** ** The driver *)

Lemma main_source_missing cycles depth sp rp (poll : Z) f :
  exists_ sp f = false →
  main cycles depth sp rp poll f = Run [] f (Raise AssertionError).
Proof. intros H. unfold main. rewrite bind_observe, H. reflexivity. Qed.

Lemma main_replica_exists cycles depth sp rp (poll : Z) f :
  exists_ sp f = true → exists_ rp f = true →
  main cycles depth sp rp poll f =
  if bool_decide (0 = poll) then synchronize depth sp rp f
  else polling cycles depth sp rp poll f.
Proof.
  intros Hs Hr. unfold main. rewrite bind_observe, Hs. cbn [negb].
  rewrite bind_observe, Hr. cbn [negb]. rewrite bind_ret.
  by destruct (bool_decide (0 = poll)).
Qed.

Lemma main_replica_missing cycles depth sp rp (poll : Z) f :
  exists_ sp f = true → exists_ rp f = false →
  main cycles depth sp rp poll f =
  bind (mkdir rp) (λ _,
    if bool_decide (0 = poll) then synchronize depth sp rp
    else polling cycles depth sp rp poll) f.
Proof.
  intros Hs Hr. unfold main. rewrite bind_observe, Hs. cbn [negb].
  rewrite bind_observe, Hr. cbn [negb]. done.
Qed.

Lemma polling_unfold cycles depth sp rp (poll : Z) f :
  polling (S cycles) depth sp rp poll f =
  bind (synchronize depth sp rp) (λ _,
    bind (log INFO (EnteringSleep poll)) (λ _,
      bind (sleep poll) (λ _, polling cycles depth sp rp poll))) f.
Proof. reflexivity. Qed.

(** What holds of every record and call of the passes and of the sleeps
    holds of the polling loop. *)
Lemma polling_reports (Q : item → Prop) cycles depth sp rp (poll : Z) :
  reports Q (synchronize depth sp rp) →
  Q (Log INFO (EnteringSleep poll)) → Q (Call (Sleep poll)) →
  reports Q (polling cycles depth sp rp poll).
Proof.
  intros Hs Hl Hc. induction cycles as [|cycles IH]; [intros f; constructor|].
  intros f. rewrite polling_unfold. revert f.
  apply reports_bind; [done|]. intros _.
  apply reports_bind; [by apply reports_emit|]. intros _.
  apply reports_bind; [|done].
  unfold sleep. apply reports_bind; [by apply reports_emit|]. intros _.
  destruct ((poll <? -9223372036) || (9223372036 <? poll));
    [apply reports_raise|].
  destruct (poll <? 0); [apply reports_raise | apply reports_ret].
Qed.

Lemma bind_frame {A B : Type} (m : M A) (c : A → M B) k :
  (∀ f, final (m f) !! k = f !! k) → (∀ a f, final (c a f) !! k = f !! k) →
  ∀ f, final (bind m c f) !! k = f !! k.
Proof.
  intros Hm Hc f. rewrite bind_unfold. specialize (Hm f).
  destruct (m f) as [t g [a| |]]; simpl in *; try done.
  by rewrite Hc.
Qed.

Lemma sleep_final (seconds : Z) f : final (sleep seconds f) = f.
Proof.
  unfold sleep. rewrite bind_emit.
  destruct ((seconds <? -9223372036) || (9223372036 <? seconds)); [done|].
  by destruct (seconds <? 0).
Qed.

Lemma sleep_trace (seconds : Z) f : trace (sleep seconds f) = [Call (Sleep seconds)].
Proof.
  unfold sleep. rewrite bind_emit.
  destruct ((seconds <? -9223372036) || (9223372036 <? seconds)); [done|].
  by destruct (seconds <? 0).
Qed.

(** The intervals [sleep] accepts, and the two it refuses. *)
Lemma sleep_run (seconds : Z) f :
  0 ≤ seconds ≤ 9223372036 →
  sleep seconds f = Run [Call (Sleep seconds)] f (Ret tt).
Proof.
  intros H. unfold sleep. rewrite bind_emit.
  assert ((seconds <? -9223372036) = false) as -> by (apply Z.ltb_ge; lia).
  assert ((9223372036 <? seconds) = false) as -> by (apply Z.ltb_ge; lia).
  assert ((seconds <? 0) = false) as -> by (apply Z.ltb_ge; lia).
  done.
Qed.

Lemma sleep_run_negative (seconds : Z) f :
  -9223372036 ≤ seconds < 0 →
  sleep seconds f = Run [Call (Sleep seconds)] f (Raise ValueError).
Proof.
  intros H. unfold sleep. rewrite bind_emit.
  assert ((seconds <? -9223372036) = false) as -> by (apply Z.ltb_ge; lia).
  assert ((9223372036 <? seconds) = false) as -> by (apply Z.ltb_ge; lia).
  assert ((seconds <? 0) = true) as -> by (apply Z.ltb_lt; lia).
  done.
Qed.

Lemma sleep_run_overflow (seconds : Z) f :
  seconds < -9223372036 ∨ 9223372036 < seconds →
  sleep seconds f = Run [Call (Sleep seconds)] f (Raise OverflowError).
Proof.
  intros H. unfold sleep. rewrite bind_emit.
  assert ((seconds <? -9223372036) || (9223372036 <? seconds) = true) as ->; [|done].
  apply orb_true_iff. rewrite !Z.ltb_lt. lia.
Qed.

Lemma sleep_returns (seconds : Z) f :
  value (sleep seconds f) = Ret tt ↔ 0 ≤ seconds ≤ 9223372036.
Proof.
  split; [|intros H; by rewrite sleep_run].
  intros Hv.
  destruct (decide (seconds < -9223372036 ∨ 9223372036 < seconds)) as [H|H].
  { by rewrite sleep_run_overflow in Hv. }
  destruct (decide (seconds < 0)) as [H'|H']; [|lia].
  rewrite sleep_run_negative in Hv by lia. done.
Qed.

Lemma polling_frame cycles depth sp rp (poll : Z) f k :
  under rp k = false → final (polling cycles depth sp rp poll f) !! k = f !! k.
Proof.
  intros Hk. revert f. induction cycles as [|cycles IH]; intros f; [done|].
  rewrite polling_unfold. revert f. apply bind_frame.
  { intros f. by apply synchronize_frame. }
  intros _. apply bind_frame; [done|]. intros _.
  apply bind_frame; [|done]. intros f. by rewrite sleep_final.
Qed.

Lemma target_item_path it p : target it = Some p → item_path it = Some p.
Proof. by destruct it. Qed.

Lemma mkdir_trace p f : trace (mkdir p f) = [Call (Mkdir p)].
Proof.
  unfold mkdir. rewrite bind_emit, bind_observe. simpl.
  destruct (f !! p); [done|]. unfold create. rewrite bind_observe. simpl.
  by destruct (f !! parent p) as [[]|].
Qed.

Lemma mkdir_frame p f k : k ≠ p → final (mkdir p f) !! k = f !! k.
Proof.
  intros Hk.
  destruct (confined_mkdir (λ k', bool_decide (k' = p)) p
              (bool_decide_eq_true_2 _ eq_refl) f) as [H _].
  apply H. by apply bool_decide_eq_false_2.
Qed.

(** The calls of a pass that change the store have their target below the
    replica root. *)
Lemma synchronize_targets depth sp rp :
  reports (λ it, ∀ p, target it = Some p → under rp p = true) (synchronize depth sp rp).
Proof.
  eapply reports_impl; [|apply confined_reports, synchronize_confined].
  intros it (p' & Hp' & Hu) p Hp. apply target_item_path in Hp. congruence.
Qed.

Lemma main_targets cycles depth sp rp (poll : Z) :
  reports (λ it, ∀ p, target it = Some p → under rp p = true)
    (main cycles depth sp rp poll).
Proof.
  assert (Hrest : reports (λ it, ∀ p, target it = Some p → under rp p = true)
            (if bool_decide (0 = poll) then synchronize depth sp rp
             else polling cycles depth sp rp poll)).
  { destruct (bool_decide (0 = poll)); [apply synchronize_targets|].
    apply polling_reports; [apply synchronize_targets | done | done]. }
  intros f. destruct (exists_ sp f) eqn:Hs.
  - destruct (exists_ rp f) eqn:Hr.
    + rewrite main_replica_exists by done.
      specialize (Hrest f). by destruct (bool_decide (0 = poll)).
    + rewrite main_replica_missing by done. revert f Hs Hr.
      intros f _ _. revert f. apply reports_bind; [|done].
      intros f. rewrite mkdir_trace. repeat constructor.
      intros p [= <-]. apply under_refl.
  - rewrite main_source_missing by done. constructor.
Qed.

Lemma main_frame cycles depth sp rp (poll : Z) f k :
  under rp k = false → final (main cycles depth sp rp poll f) !! k = f !! k.
Proof.
  intros Hk.
  assert (Hrest : ∀ g, final ((if bool_decide (0 = poll) then synchronize depth sp rp
             else polling cycles depth sp rp poll) g) !! k = g !! k).
  { intros g. destruct (bool_decide (0 = poll));
      [by apply synchronize_frame | by apply polling_frame]. }
  destruct (exists_ sp f) eqn:Hs.
  - destruct (exists_ rp f) eqn:Hr.
    + rewrite main_replica_exists by done.
      specialize (Hrest f). by destruct (bool_decide (0 = poll)).
    + rewrite main_replica_missing by done. revert f Hs Hr.
      intros f _ _. revert f. apply bind_frame; [|done].
      intros f. apply mkdir_frame. intros ->. by rewrite under_refl in Hk.
  - by rewrite main_source_missing.
Qed.

(** C9 (amended): the source is never written, when neither root lies
    inside the other.  Every call of [synchronize] and of [main] that
    writes, deletes or creates ([rmtree], [unlink], [mkdir], the destination
    of [copy]) has its target below the replica root, and the store is left
    as it was everywhere else, whatever the two roots are; so, when neither
    root lies inside the other, no such call has its target below the source
    root and the source tree is left as it was. *)
Theorem only_the_replica_is_written cycles depth sp rp (poll : Z) f :
  (∀ it p, it ∈ trace (synchronize depth sp rp f) → target it = Some p →
     under rp p = true) ∧
  (∀ k, under rp k = false → final (synchronize depth sp rp f) !! k = f !! k) ∧
  (∀ it p, it ∈ trace (main cycles depth sp rp poll f) → target it = Some p →
     under rp p = true) ∧
  (∀ k, under rp k = false → final (main cycles depth sp rp poll f) !! k = f !! k) ∧
  (apart sp rp = true →
     (∀ it p, it ∈ trace (synchronize depth sp rp f) → target it = Some p →
        under sp p = false) ∧
     (∀ q, final (synchronize depth sp rp f) !! (sp ++ q) = f !! (sp ++ q)) ∧
     (∀ it p, it ∈ trace (main cycles depth sp rp poll f) → target it = Some p →
        under sp p = false) ∧
     (∀ q, final (main cycles depth sp rp poll f) !! (sp ++ q) = f !! (sp ++ q))).
Proof.
  pose proof (synchronize_targets depth sp rp f) as Hs.
  pose proof (main_targets cycles depth sp rp poll f) as Hm.
  rewrite Forall_forall in Hs, Hm.
  split_and!.
  - intros it p Hin. by apply Hs.
  - intros k. apply synchronize_frame.
  - intros it p Hin. by apply Hm.
  - intros k. apply main_frame.
  - intros Hap. split_and!.
    + intros it p Hin Hp. apply (apart_under sp rp p Hap). by apply (Hs it).
    + intros q. by apply synchronize_source_kept.
    + intros it p Hin Hp. apply (apart_under sp rp p Hap). by apply (Hm it).
    + intros q. apply main_frame.
      destruct (under rp (sp ++ q)) eqn:E; [|done].
      apply under_spec in E as [q' E]. by apply apart_neq in E.
Qed.

Lemma only_the_replica_is_written_witness :
  apart ["source"] ["replica"] = true ∧
  ∀ q, final (main 3 5 ["source"] ["replica"] 2 demo) !! (["source"] ++ q)
       = demo !! (["source"] ++ q).
Proof.
  split; [vm_compute; reflexivity|].
  destruct (only_the_replica_is_written 3 5 ["source"] ["replica"] 2 demo)
    as (_ & _ & _ & _ & H).
  destruct H as (_ & _ & _ & H); [vm_compute; reflexivity | exact H].
Defined.

(** C9 as stated fails: with the source folder inside the replica folder,
    the first loop finds the source root among the entries of the replica
    that the source does not list, and removes it with all it holds. *)
Lemma source_inside_the_replica_is_removed :
  is_dir ["backup"; "source"] inside = true ∧ is_dir ["backup"] inside = true ∧
  main 1 5 ["backup"; "source"] ["backup"] 0 inside =
    Run [ Log INFO (Checking ["backup"] ["backup"; "source"]);
          Log WARNING (Removing ["backup"; "source"]);
          Call (Rmtree ["backup"; "source"]) ]
        (store [(["backup"], EDir)]) (Ret tt) ∧
  target (Call (Rmtree ["backup"; "source"])) = Some ["backup"; "source"] ∧
  under ["backup"; "source"] ["backup"; "source"] = true ∧
  inside !! ["backup"; "source"; "a.txt"] = Some (EFile (bytes_of "hello") 420) ∧
  final (main 1 5 ["backup"; "source"] ["backup"] 0 inside) !! ["backup"; "source"] = None ∧
  final (main 1 5 ["backup"; "source"] ["backup"] 0 inside)
    !! ["backup"; "source"; "a.txt"] = None.
Proof. split_and!; vm_compute; reflexivity. Qed.

(** C2, where the code departs from it: the source root is a regular file.
    The assertion of [main] checks [exists()] only, so the driver goes on,
    the pass lists nothing in the source and removes every entry of the
    replica. *)
Theorem main_accepts_a_file_as_source :
  exists_ ["source"] source_is_file = true ∧
  is_dir ["source"] source_is_file = false ∧
  trace (main 1 5 ["source"] ["replica"] 0 source_is_file) =
    [ Log INFO (Checking ["replica"] ["source"]);
      Log WARNING (Removing ["replica"; "keep.txt"]);
      Call (Unlink ["replica"; "keep.txt"]) ] ∧
  value (main 1 5 ["source"] ["replica"] 0 source_is_file) = Ret tt ∧
  source_is_file !! ["replica"; "keep.txt"] = Some (EFile (bytes_of "precious") 420) ∧
  final (main 1 5 ["source"] ["replica"] 0 source_is_file) !! ["replica"; "keep.txt"] = None.
Proof. split_and!; vm_compute; reflexivity. Qed.

(** The part of C2 the code does meet: a missing source root stops the
    driver at its assertion, before anything is done. *)
Lemma main_stops_on_missing_source cycles depth sp rp (poll : Z) f :
  f !! sp = None →
  main cycles depth sp rp poll f = Run [] f (Raise AssertionError).
Proof. intros H. apply main_source_missing. by apply exists_false. Qed.








(** The pass against a replica root that is a regular file: the copy of the
    first source file fails. *)
Example pass_against_a_file :
  trace (synchronize 5 ["source"] ["replica"] replica_is_file) =
    [ Log INFO (Checking ["replica"] ["source"]);
      Log WARNING (Adding ["replica"; "a.txt"]);
      Call (Copy ["source"; "a.txt"] ["replica"; "a.txt"]) ] ∧
  value (synchronize 5 ["source"] ["replica"] replica_is_file) = Raise NotADirectoryError.
Proof. split; vm_compute; reflexivity. Qed.

(** From a store without the replica root, [main] makes it first. *)
Example main_makes_the_replica_root :
  trace (main 1 5 ["source"] ["replica"] 0
           (delete ["replica"] (delete ["replica"; "a.txt"]
              (delete ["replica"; "old.txt"] demo)))) =
    [ Call (Mkdir ["replica"]);
      Log INFO (Checking ["replica"] ["source"]);
      Log WARNING (Adding ["replica"; "a.txt"]);
      Call (Copy ["source"; "a.txt"] ["replica"; "a.txt"]);
      Log WARNING (Creating ["replica"; "sub"]);
      Call (Mkdir ["replica"; "sub"]);
      Log INFO (Checking ["replica"; "sub"] ["source"; "sub"]);
      Log WARNING (Adding ["replica"; "sub"; "b.txt"]);
      Call (Copy ["source"; "sub"; "b.txt"] ["replica"; "sub"; "b.txt"]) ].
Proof. vm_compute. reflexivity. Qed.

(** ** The polling loop *)

(** The loop has no exit: it does not return. *)
Lemma polling_never_returns cycles depth sp rp (poll : Z) f :
  value (polling cycles depth sp rp poll f) ≠ Ret tt.
Proof.
  revert f. induction cycles as [|cycles IH]; intros f; [done|].
  rewrite polling_unfold, bind_unfold.
  destruct (synchronize depth sp rp f) as [t g [[]| |]];
    cbn [prepend value final trace]; try done.
  rewrite bind_log, bind_unfold. cbn [prepend value].
  destruct (sleep poll g) as [t' g' [[]| |]];
    cbn [prepend value final trace]; [apply IH | done | done].
Qed.

Lemma polling_step cycles depth sp rp (poll : Z) f :
  0 ≤ poll ≤ 9223372036 → value (synchronize depth sp rp f) = Ret tt →
  polling (S cycles) depth sp rp poll f =
  prepend (trace (synchronize depth sp rp f) ++
           [Log INFO (EnteringSleep poll); Call (Sleep poll)])
    (polling cycles depth sp rp poll (final (synchronize depth sp rp f))).
Proof.
  intros Hpoll Hv. rewrite polling_unfold, bind_unfold, Hv.
  rewrite bind_log, (bind_run _ _ _ _ _ _ (sleep_run poll _ Hpoll)).
  rewrite !prepend_prepend, <- app_assoc. done.
Qed.

(** A pass that returns and a sleep that raises end the loop. *)
Lemma polling_sleep_raises cycles depth sp rp (poll : Z) f (e : exn) :
  value (synchronize depth sp rp f) = Ret tt →
  value (sleep poll (final (synchronize depth sp rp f))) = Raise e →
  polling (S cycles) depth sp rp poll f =
  Run (trace (synchronize depth sp rp f) ++
       [Log INFO (EnteringSleep poll); Call (Sleep poll)])
      (final (synchronize depth sp rp f)) (Raise e).
Proof.
  intros Hv He. rewrite polling_unfold, bind_unfold, Hv, bind_log, bind_unfold.
  pose proof (sleep_trace poll (final (synchronize depth sp rp f))) as Ht.
  pose proof (sleep_final poll (final (synchronize depth sp rp f))) as Hf.
  destruct (sleep poll (final (synchronize depth sp rp f))) as [t g v].
  simpl in *. by subst.
Qed.

Lemma polling_polled cycles depth sp rp (poll : Z) :
  ∀ f t f',
  polled depth sp rp poll cycles f t f' ↔
  polling cycles depth sp rp poll f = Run t f' Running.
Proof.
  induction cycles as [|cycles IH]; intros f t f'.
  - split.
    + by inversion 1.
    + intros [= <- <-]. constructor.
  - split.
    + inversion 1 as [|c g t' g' Hv Hsl Hrest]; subst.
      apply sleep_returns in Hsl.
      rewrite polling_step by done. apply IH in Hrest. rewrite Hrest.
      unfold prepend. simpl. by rewrite <- app_assoc.
    + intros Hrun. destruct (value (synchronize depth sp rp f)) as [[]| |] eqn:Hv.
      * destruct (value (sleep poll (final (synchronize depth sp rp f))))
          as [[]|e|] eqn:Hsl.
        -- pose proof Hsl as Hpoll%sleep_returns.
           rewrite polling_step in Hrun by done.
           destruct (polling cycles depth sp rp poll (final (synchronize depth sp rp f)))
             as [t' g' v'] eqn:Hrest.
           unfold prepend in Hrun. simpl in Hrun. injection Hrun as <- <- ->.
           apply IH in Hrest. rewrite <- app_assoc. by constructor.
        -- by rewrite (polling_sleep_raises _ _ _ _ _ _ e) in Hrun.
        -- by apply halts_sleep in Hsl.
      * rewrite polling_unfold, bind_unfold, Hv in Hrun. done.
      * by apply synchronize_halts in Hv.
Qed.

(** The conditions of a pass still hold after it. *)
Lemma good_after_pass sp rp depth f :
  good sp rp depth f → good sp rp depth (final (synchronize depth sp rp f)).
Proof.
  intros Hgood. destruct (synchronize_pass_spec depth sp rp f Hgood) as (_ & Hf & _).
  destruct Hgood as (Hap & Hwf & Hs & Hr & Hk & Hd & Hrd & Hwr).
  assert (Hsrc : ∀ q, final (synchronize depth sp rp f) !! (sp ++ q) = f !! (sp ++ q)).
  { intros q. by apply synchronize_source_kept. }
  split_and!; try done.
  - by apply synchronize_keeps_wf.
  - pose proof (Hsrc []) as H0. rewrite app_nil_r in H0. by rewrite H0.
  - pose proof (Hf []) as H0. rewrite app_nil_r in H0. rewrite H0.
    unfold synced. by rewrite app_nil_r, Hs.
  - intros q e e'. rewrite Hsrc, Hf. apply synced_kind.
  - intros q. rewrite Hsrc. apply Hd.
  - intros q d m. rewrite Hsrc. apply Hrd.
  - intros q d m d' m'. rewrite Hsrc, Hf. by apply synced_modes.
Qed.

(** From a store that meets the conditions of a pass, the loop is still
    running after any number of rounds. *)
Lemma polling_runs_on cycles depth sp rp (poll : Z) f :
  0 ≤ poll ≤ 9223372036 → good sp rp depth f →
  value (polling cycles depth sp rp poll f) = Running.
Proof.
  intros Hpoll. revert f. induction cycles as [|cycles IH]; intros f Hgood; [done|].
  destruct (synchronize_pass_spec depth sp rp f Hgood) as (Hv & _).
  rewrite polling_step by done. cbn [prepend value].
  by apply IH, good_after_pass.
Qed.

Lemma pass_without (it : item) depth sp rp f :
  item_path it = None →
  filter (λ it', it' = it) (trace (synchronize depth sp rp f)) = [].
Proof.
  intros Hit. destruct (synchronize_confined depth sp rp f) as [_ Ht].
  induction Ht as [|it' t (p & Hp & _) _ IH]; [done|].
  rewrite filter_cons_False; [done|]. intros ->. congruence.
Qed.

Lemma pass_one_check depth sp rp f :
  value (synchronize depth sp rp f) = Ret tt →
  filter (λ it, it = Log INFO (Checking rp sp)) (trace (synchronize depth sp rp f))
  = [Log INFO (Checking rp sp)].
Proof.
  destruct depth as [|depth]; [done|]. intros _.
  rewrite synchronize_unfold. cbn [prepend trace app].
  rewrite filter_cons_True by done. f_equal.
  destruct (synchronize_rest_confined depth sp rp f) as [_ Ht].
  induction Ht as [|it' t (p & Hp & Hu) _ IH]; [done|].
  rewrite filter_cons_False; [done|]. intros ->. injection Hp as <-.
  by rewrite strictly_under_irrefl in Hu.
Qed.

(** [cycles] rounds hold [cycles] passes over the two roots, [cycles]
    records of a sleep and [cycles] sleeps of [poll] seconds. *)
Lemma polled_counts depth sp rp (poll : Z) cycles f t f' :
  polled depth sp rp poll cycles f t f' →
  length (filter (λ it, it = Log INFO (Checking rp sp)) t) = cycles ∧
  length (filter (λ it, it = Log INFO (EnteringSleep poll)) t) = cycles ∧
  length (filter (λ it, it = Call (Sleep poll)) t) = cycles.
Proof.
  induction 1 as [|cycles f t f' Hv _ _ (IH1 & IH2 & IH3)]; [done|].
  rewrite !filter_app, !length_app.
  rewrite pass_one_check, !pass_without by done.
  rewrite (filter_cons_False _ (Log INFO (EnteringSleep poll))) by done.
  rewrite (filter_cons_False _ (Call (Sleep poll))) by done.
  rewrite (filter_cons_True (λ it, it = Log INFO (EnteringSleep poll))) by done.
  rewrite (filter_cons_False (λ it, it = Log INFO (EnteringSleep poll))) by done.
  rewrite (filter_cons_False (λ it, it = Call (Sleep poll))) by done.
  rewrite (filter_cons_True (λ it, it = Call (Sleep poll))) by done.
  simpl. rewrite IH1, IH2, IH3. done.
Qed.

(** C8 (amended): the two modes of the driver, once both roots exist.  With
    a poll interval of 0, [main] is one pass over the two roots and ends
    with it.  With a positive interval, [main] does not return; as long as
    it has not raised, what it has done after any number of rounds is that
    many times one full pass, one record of the sleep and one sleep of that
    many seconds, in this order.  With an interval of at most 9223372036
    seconds, from a store that meets the conditions of a pass it is still
    running after any number of rounds.  With a longer interval [time.sleep]
    refuses it: after a first pass that returns and the record of the sleep,
    [main] ends with [OverflowError]. *)
Theorem main_runs_once_or_polls cycles depth sp rp (poll : Z) f :
  exists_ sp f = true → exists_ rp f = true →
  (poll = 0 →
     main cycles depth sp rp poll f = synchronize depth sp rp f ∧
     value (main cycles depth sp rp poll f) ≠ Running) ∧
  (0 < poll →
     value (main cycles depth sp rp poll f) ≠ Ret tt ∧
     (∀ t f', main cycles depth sp rp poll f = Run t f' Running ↔
              polled depth sp rp poll cycles f t f') ∧
     (∀ t f', polled depth sp rp poll cycles f t f' →
        length (filter (λ it, it = Log INFO (Checking rp sp)) t) = cycles ∧
        length (filter (λ it, it = Log INFO (EnteringSleep poll)) t) = cycles ∧
        length (filter (λ it, it = Call (Sleep poll)) t) = cycles) ∧
     (poll ≤ 9223372036 → ready sp rp depth f = true →
        value (main cycles depth sp rp poll f) = Running) ∧
     (9223372036 < poll → value (synchronize depth sp rp f) = Ret tt →
        main (S cycles) depth sp rp poll f =
        Run (trace (synchronize depth sp rp f) ++
             [Log INFO (EnteringSleep poll); Call (Sleep poll)])
            (final (synchronize depth sp rp f)) (Raise OverflowError))).
Proof.
  intros Hs Hr. rewrite !main_replica_exists by done. split.
  - intros ->. rewrite bool_decide_eq_true_2 by done.
    split; [done | apply synchronize_halts].
  - intros Hpoll. rewrite bool_decide_eq_false_2 by lia. split_and!.
    + apply polling_never_returns.
    + intros t f'. symmetry. apply polling_polled.
    + intros t f'. apply polled_counts.
    + intros Hmax Hready. apply polling_runs_on; [lia | by apply ready_good].
    + intros Hmax Hv. apply polling_sleep_raises; [done|].
      rewrite sleep_run_overflow by lia. done.
Qed.

Lemma main_runs_once_or_polls_witness :
  exists_ ["source"] demo = true ∧ exists_ ["replica"] demo = true ∧
  ready ["source"] ["replica"] 5 demo = true ∧
  main 3 5 ["source"] ["replica"] 0 demo = synchronize 5 ["source"] ["replica"] demo ∧
  value (main 3 5 ["source"] ["replica"] 2 demo) = Running.
Proof.
  split; [vm_compute; reflexivity|]. split; [vm_compute; reflexivity|].
  split; [vm_compute; reflexivity|].
  split.
  - destruct (main_runs_once_or_polls 3 5 ["source"] ["replica"] 0 demo) as [H _].
    + vm_compute; reflexivity.
    + vm_compute; reflexivity.
    + destruct H as [H _]; [reflexivity | exact H].
  - destruct (main_runs_once_or_polls 3 5 ["source"] ["replica"] 2 demo) as [_ H].
    + vm_compute; reflexivity.
    + vm_compute; reflexivity.
    + destruct H as (_ & _ & _ & H & _); [lia|]. apply H; [lia|].
      vm_compute; reflexivity.
Defined.

(** C8 as stated fails: with both roots there and a store that meets the
    conditions of a pass, an interval of 9223372037 seconds is positive, and
    [main] makes one pass, logs the sleep and ends with [OverflowError]
    instead of looping. *)
Lemma polling_ends_on_a_long_interval :
  exists_ ["source"] demo = true ∧ exists_ ["replica"] demo = true ∧
  ready ["source"] ["replica"] 5 demo = true ∧
  0 < 9223372037 ∧
  main 3 5 ["source"] ["replica"] 9223372037 demo =
  Run (trace (synchronize 5 ["source"] ["replica"] demo) ++
       [Log INFO (EnteringSleep 9223372037); Call (Sleep 9223372037)])
      (final (synchronize 5 ["source"] ["replica"] demo)) (Raise OverflowError).
Proof.
  split; [vm_compute; reflexivity|]. split; [vm_compute; reflexivity|].
  split; [vm_compute; reflexivity|]. split; [lia|].
  vm_compute. reflexivity.
Qed.

(** Two rounds on the scenario of the specification: the second pass finds
    nothing to do. *)
Example two_rounds :
  trace (main 2 5 ["source"] ["replica"] 7 demo) =
    [ Log INFO (Checking ["replica"] ["source"]);
      Log WARNING (Removing ["replica"; "old.txt"]);
      Call (Unlink ["replica"; "old.txt"]);
      Log WARNING (Creating ["replica"; "sub"]);
      Call (Mkdir ["replica"; "sub"]);
      Log INFO (Checking ["replica"; "sub"] ["source"; "sub"]);
      Log WARNING (Adding ["replica"; "sub"; "b.txt"]);
      Call (Copy ["source"; "sub"; "b.txt"] ["replica"; "sub"; "b.txt"]);
      Log INFO (EnteringSleep 7);
      Call (Sleep 7);
      Log INFO (Checking ["replica"] ["source"]);
      Log INFO (Checking ["replica"; "sub"] ["source"; "sub"]);
      Log INFO (EnteringSleep 7);
      Call (Sleep 7) ].
Proof. vm_compute. reflexivity. Qed.

(** ** A pass over a replica that already mirrors the source *)

Lemma for_each_quiet {X : Type} (Q : item → Prop) (l : list X) (body : X → M unit) f :
  (∀ a, a ∈ l → value (body a f) = Ret tt ∧ final (body a f) = f ∧
                Forall Q (trace (body a f))) →
  value (for_each l body f) = Ret tt ∧ final (for_each l body f) = f ∧
  Forall Q (trace (for_each l body f)).
Proof.
  induction l as [|a l IH]; intros H; [by repeat constructor|].
  destruct (H a) as (Hv & Hf & Ht); [left|].
  destruct IH as (Hv' & Hf' & Ht'); [intros a' Ha'; apply H; by right|].
  rewrite for_each_cons, bind_unfold, Hv, Hf. cbn [prepend value final trace].
  split_and!; [done | done | by apply Forall_app].
Qed.

Lemma mirrors_child sp rp f n : mirrors sp rp f → mirrors (sp ++ [n]) (rp ++ [n]) f.
Proof. intros H q. rewrite !snoc_app. apply H. Qed.

Lemma mirrors_lookup sp rp f q (e : entry) :
  mirrors sp rp f → f !! (sp ++ q) = Some e →
  ∃ e', f !! (rp ++ q) = Some e' ∧ content_of e' = content_of e.
Proof.
  intros H He. specialize (H q). unfold view in H. rewrite He in H.
  destruct (f !! (rp ++ q)) as [e'|]; [|done]. injection H as H. eauto.
Qed.

Lemma mirrors_names sp rp f n :
  mirrors sp rp f → f !! sp = Some EDir →
  (n ∈ glob_star sp f ↔ n ∈ glob_star rp f).
Proof.
  intros H Hs. rewrite !elem_of_glob_star.
  assert (Hr : f !! rp = Some EDir).
  { destruct (mirrors_lookup sp rp f [] EDir H) as (e' & He' & Hc).
    - by rewrite app_nil_r.
    - rewrite app_nil_r in He'. by destruct e'. }
  specialize (H [n]). unfold view in H.
  split; intros [_ [e He]]; (split; [done|]); rewrite He in H;
    [destruct (f !! (rp ++ [n])) | destruct (f !! (sp ++ [n]))]; by eauto.
Qed.

(** A loop whose rounds leave the store as it is and report only [Q] does
    so as a whole, however it ends; and it ends as its rounds do: with [V]
    when [V] holds of a return and of the way each round ends. *)
Lemma for_each_still {X : Type} (Q : item → Prop) (C : Prop) (V : res unit → Prop)
    (l : list X) (body : X → M unit) f :
  V (Ret tt) →
  (∀ a, a ∈ l → final (body a f) = f ∧ Forall Q (trace (body a f)) ∧
                (C → V (value (body a f)))) →
  final (for_each l body f) = f ∧ Forall Q (trace (for_each l body f)) ∧
  (C → V (value (for_each l body f))).
Proof.
  intros HV. induction l as [|a l IH]; intros H; [by repeat constructor|].
  destruct (H a) as (Hf & Ht & Hv); [left|].
  destruct IH as (Hf' & Ht' & Hv'); [intros a' Ha'; apply H; by right|].
  rewrite for_each_cons, bind_unfold.
  destruct (value (body a f)) as [[]|e|] eqn:Ev; rewrite ?Hf;
    cbn [prepend value final trace].
  - split_and!; [done | by apply Forall_app | done].
  - split_and!; [done | done |]. intros HC. exact (Hv HC).
  - split_and!; [done | done |]. intros HC. exact (Hv HC).
Qed.

(** A pass over a replica that mirrors its source leaves the store as it is
    and reports only the directories it checks, however it ends.  When the
    source is shallower than the recursion limit, it returns or ends with
    the [PermissionError] of a file that cannot be read, and it returns when
    the files can be read. *)
Lemma synchronize_mirrored depth :
  ∀ sp rp f, mirrors sp rp f → f !! sp = Some EDir →
  final (synchronize depth sp rp f) = f ∧
  Forall (λ it, ∃ r s, it = Log INFO (Checking r s)) (trace (synchronize depth sp rp f)) ∧
  ((∀ q, is_Some (f !! (sp ++ q)) → (length q < depth)%nat) →
   (value (synchronize depth sp rp f) = Ret tt ∨
    value (synchronize depth sp rp f) = Raise PermissionError) ∧
   ((∀ q d m, f !! (sp ++ q) = Some (EFile d m) → readable m = true) ∧
    (∀ q d m, f !! (rp ++ q) = Some (EFile d m) → readable m = true) →
    value (synchronize depth sp rp f) = Ret tt)).
Proof.
  induction depth as [|depth IH]; intros sp rp f Hm Hs.
  { split_and!; [done | constructor |]. intros Hd.
    specialize (Hd []). rewrite app_nil_r, Hs in Hd.
    specialize (Hd ltac:(eauto)). simpl in Hd. lia. }
  rewrite synchronize_unfold, bind_unfold, removing_unfold.
  assert (distinct_objects sp rp f = []) as ->.
  { apply elem_of_nil_inv. intros x. rewrite elem_of_distinct_objects.
    rewrite (mirrors_names sp rp f x Hm Hs). tauto. }
  cbn [for_each ret value final trace]. rewrite prepend_nil, synchronizing_unfold.
  destruct (for_each_still (λ it, ∃ r s, it = Log INFO (Checking r s))
              (∀ q, is_Some (f !! (sp ++ q)) → (length q < S depth)%nat)
              (λ v, (v = Ret tt ∨ v = Raise PermissionError) ∧
                    ((∀ q d m, f !! (sp ++ q) = Some (EFile d m) → readable m = true) ∧
                     (∀ q d m, f !! (rp ++ q) = Some (EFile d m) → readable m = true) →
                     v = Ret tt))
              (glob_star sp f) (sync_object (synchronize depth) sp rp) f)
    as (Hf & Ht & Hv).
  { split; [by left | done]. }
  { intros n [_ [e He]]%elem_of_glob_star.
    destruct (mirrors_lookup sp rp f [n] e Hm He) as (e' & He' & Hc).
    assert (Hisdir : is_dir (sp ++ [n]) f = match e with EDir => true | _ => false end).
    { unfold is_dir. by rewrite He. }
    assert (Hex : exists_ (rp ++ [n]) f = true) by (unfold exists_; by rewrite He').
    unfold sync_object. rewrite bind_observe. cbv beta. rewrite Hisdir.
    destruct e as [d m|].
    - destruct e' as [d' m'|]; [|done]. injection Hc as ->.
      rewrite bind_observe. cbv beta. rewrite Hex.
      destruct (readable m) eqn:Hread.
      2:{ rewrite (bind_run_raise _ _ _ _ _ _ (read_bytes_run_denied _ _ _ _ He Hread)).
          split_and!; [done | constructor |]. intros _. split; [by right|].
          intros [Hrd _]. rewrite (Hrd [n] d m He) in Hread. done. }
      rewrite (bind_run _ _ _ _ _ _ (read_bytes_run _ _ _ _ He Hread)), prepend_nil.
      destruct (readable m') eqn:Hread'.
      2:{ rewrite (bind_run_raise _ _ _ _ _ _ (read_bytes_run_denied _ _ _ _ He' Hread')).
          split_and!; [done | constructor |]. intros _. split; [by right|].
          intros [_ Hrd]. rewrite (Hrd [n] d m' He') in Hread'. done. }
      rewrite (bind_run _ _ _ _ _ _ (read_bytes_run _ _ _ _ He' Hread')), prepend_nil.
      rewrite bool_decide_eq_false_2 by (intros H; by apply H).
      split_and!; [done | constructor |]. intros _. split; [by left | done].
    - destruct e' as [|]; [done|].
      rewrite bind_observe. cbv beta. rewrite Hex, bind_ret.
      destruct (IH (sp ++ [n]) (rp ++ [n]) f) as (Hf & Ht & Hv);
        [by apply mirrors_child | done |].
      split_and!; [done | done |]. intros Hd.
      destruct Hv as [Hv1 Hv2].
      { intros q. rewrite snoc_app. intros H%Hd. simpl in H. lia. }
      split; [done|]. intros [Hrs Hrr]. apply Hv2. split.
      + intros q d m. rewrite snoc_app. apply Hrs.
      + intros q d m. rewrite snoc_app. apply Hrr. }
  cbn [prepend value final trace]. split_and!; [done | | done].
  constructor; [eauto | done].
Qed.

(** Under [permitted], the files of a replica that mirrors its source can be
    read on both sides. *)
Lemma permitted_mirrored sp rp f :
  mirrors sp rp f → permitted sp rp f = true →
  (∀ q d m, f !! (sp ++ q) = Some (EFile d m) → readable m = true) ∧
  (∀ q d m, f !! (rp ++ q) = Some (EFile d m) → readable m = true).
Proof.
  intros Hm [Hrd Hwr]%permitted_spec. split; [done|].
  intros q d m He. pose proof (Hm q) as Hq. unfold view in Hq. rewrite He in Hq.
  destruct (f !! (sp ++ q)) as [[d0 m0|]|] eqn:Es; try done.
  by destruct (Hwr q d0 m0 d m Es He).
Qed.

(** C4: idempotence.  From a store whose replica tree has the names and the
    file contents of its source tree, as a pass that converged leaves it,
    and whose source is a directory shallower than the recursion limit, a
    pass leaves the store exactly as it was, and reports nothing but the
    directories it checks: no removing, creating, adding or updating record
    and no call that writes.  It returns when the modes let the files be
    read; a file that cannot be read ends it with [PermissionError], the
    store and the reports being as said. *)
Theorem second_pass_changes_nothing sp rp depth f :
  mirrorsb sp rp f = true → is_dir sp f = true → shallower sp depth f = true →
  (permitted sp rp f = true → value (synchronize depth sp rp f) = Ret tt) ∧
  (value (synchronize depth sp rp f) = Ret tt ∨
   value (synchronize depth sp rp f) = Raise PermissionError) ∧
  final (synchronize depth sp rp f) = f ∧
  Forall (λ it, ∃ r s, it = Log INFO (Checking r s)) (trace (synchronize depth sp rp f)) ∧
  Forall (λ it, is_mutating it = false) (trace (synchronize depth sp rp f)).
Proof.
  intros Hm%mirrorsb_spec Hs Hd.
  destruct (synchronize_mirrored depth sp rp f) as (Hf & Ht & Hv).
  - done.
  - by apply is_dir_true.
  - destruct Hv as [Hv1 Hv2]; [by apply shallower_spec|].
    split_and!; try done.
    + intros Hp. by apply Hv2, permitted_mirrored.
    + eapply Forall_impl; [exact Ht|]. by intros it (r & s & ->).
Qed.

Lemma second_pass_changes_nothing_witness :
  mirrorsb ["source"] ["replica"]
    (final (synchronize 5 ["source"] ["replica"] demo)) = true ∧
  value (synchronize 5 ["source"] ["replica"]
           (final (synchronize 5 ["source"] ["replica"] demo))) = Ret tt ∧
  final (synchronize 5 ["source"] ["replica"]
           (final (synchronize 5 ["source"] ["replica"] demo)))
  = final (synchronize 5 ["source"] ["replica"] demo) ∧
  Forall (λ it, is_mutating it = false)
    (trace (synchronize 5 ["source"] ["replica"]
              (final (synchronize 5 ["source"] ["replica"] demo)))).
Proof.
  split; [vm_compute; reflexivity|].
  destruct (second_pass_changes_nothing ["source"] ["replica"] 5
              (final (synchronize 5 ["source"] ["replica"] demo)))
    as (Hv & _ & Hf & _ & Ht).
  - vm_compute; reflexivity.
  - vm_compute; reflexivity.
  - vm_compute; reflexivity.
  - split; [apply Hv; vm_compute; reflexivity|]. split; [exact Hf | exact Ht].
Defined.

(** A pass that converged, then a second one: the first leaves a mirror, so
    the second changes nothing. *)
Corollary second_pass_after_convergence sp rp depth f :
  ready sp rp depth f = true → digests_tell sp rp f = true →
  final (synchronize depth sp rp (final (synchronize depth sp rp f)))
  = final (synchronize depth sp rp f) ∧
  Forall (λ it, is_mutating it = false)
    (trace (synchronize depth sp rp (final (synchronize depth sp rp f)))).
Proof.
  intros Hready Hdig. pose proof (ready_good _ _ _ _ Hready) as Hgood.
  destruct (synchronize_pass_spec depth sp rp f Hgood) as (_ & Hfinal & _).
  assert (Hsrc : ∀ q, final (synchronize depth sp rp f) !! (sp ++ q) = f !! (sp ++ q)).
  { intros q. apply synchronize_source_kept. by destruct Hgood. }
  assert (Hm : mirrors sp rp (final (synchronize depth sp rp f))).
  { intros q. unfold view. rewrite Hfinal, Hsrc. apply view_synced.
    intros d m d' m'. by apply digests_tell_spec. }
  destruct Hgood as (_ & _ & Hs & _).
  destruct (synchronize_mirrored depth sp rp (final (synchronize depth sp rp f)))
    as (Hf & Ht & _); try done.
  - pose proof (Hsrc []) as H0. rewrite app_nil_r in H0. by rewrite H0.
  - split; [done|]. eapply Forall_impl; [exact Ht|]. by intros it (r & s & ->).
Qed.

(** ** The order of the removals *)

Lemma copy_trace src dst f : trace (copy src dst f) = [Call (Copy src dst)].
Proof.
  unfold copy. rewrite bind_emit, bind_observe. simpl.
  set (dst' := if is_dir dst f then dst ++ [name src] else dst).
  destruct (exists_ src f && bool_decide (src = dst')); [done|].
  destruct (f !! src) as [[d m|]|]; try done.
  destruct (readable m); [|done]. simpl.
  destruct (f !! dst') as [[d' m'|]|]; try done.
  - by destruct (writable m').
  - unfold create. rewrite bind_observe. simpl.
    by destruct (f !! parent dst') as [[]|].
Qed.

Lemma reports_mkdir (Q : item → Prop) p : Q (Call (Mkdir p)) → reports Q (mkdir p).
Proof. intros H f. rewrite mkdir_trace. by repeat constructor. Qed.

Lemma reports_copy (Q : item → Prop) src dst :
  Q (Call (Copy src dst)) → reports Q (copy src dst).
Proof. intros H f. rewrite copy_trace. by repeat constructor. Qed.

Lemma reports_read_bytes (Q : item → Prop) p : reports Q (read_bytes p).
Proof.
  intros f. unfold read_bytes.
  destruct (f !! p) as [[d m|]|]; try destruct (readable m); constructor.
Qed.

(** What holds of the records and calls of the recursive pass, and of the
    five a source object can itself give rise to, holds of all it reports. *)
Lemma reports_sync_object (Q : item → Prop)
    (recurse : list string → list string → M unit) sp rp n :
  reports Q (recurse (sp ++ [n]) (rp ++ [n])) →
  Q (Log WARNING (Creating (rp ++ [n]))) → Q (Call (Mkdir (rp ++ [n]))) →
  Q (Log WARNING (Updating (rp ++ [n]))) → Q (Log WARNING (Adding (rp ++ [n]))) →
  Q (Call (Copy (sp ++ [n]) (rp ++ [n]))) →
  reports Q (sync_object recurse sp rp n).
Proof.
  intros Hrec Hc Hm Hu Ha Hcp. unfold sync_object.
  apply reports_bind; [apply reports_observe|]. intros [|].
  - apply reports_bind; [apply reports_observe|]. intros present.
    apply reports_bind; [|done].
    destruct present; [apply reports_ret|].
    apply reports_bind; [by apply reports_emit | intros _; by apply reports_mkdir].
  - apply reports_bind; [apply reports_observe|]. intros [|].
    + apply reports_bind; [apply reports_read_bytes|]. intros d.
      apply reports_bind; [apply reports_read_bytes|]. intros d'.
      case_bool_decide; [|apply reports_ret].
      apply reports_bind; [by apply reports_emit | intros _; by apply reports_copy].
    + apply reports_bind; [by apply reports_emit | intros _; by apply reports_copy].
Qed.

Lemma removing_value sp rp f : value (removing sp rp f) = Ret tt.
Proof.
  rewrite removing_unfold. generalize (distinct_objects sp rp f). intros l.
  revert f. induction l as [|x l IH]; intros f; [done|].
  rewrite for_each_cons, bind_unfold, remove_old_value. apply IH.
Qed.

(** The first loop reports removals only, of entries of the replica
    directory whose name is in the symmetric difference. *)
Lemma removing_reports sp rp f :
  Forall (λ it, is_removal it = true ∧
                ∃ x, x ∈ distinct_objects sp rp f ∧ item_path it = Some (rp ++ [x]))
    (trace (removing sp rp f)).
Proof.
  rewrite removing_unfold. apply reports_for_each. intros x Hx g.
  rewrite remove_old_trace. unfold removal.
  destruct (g !! (rp ++ [x])) as [[]|]; repeat constructor; eauto.
Qed.

(** The removals of a pass are of entries strictly below its replica
    root. *)
Lemma synchronize_removals_below depth sp rp :
  reports (λ it, is_removal it = true →
                 ∃ p, item_path it = Some p ∧ strictly_under rp p = true)
    (synchronize depth sp rp).
Proof.
  intros f. destruct depth as [|depth]; [constructor|].
  rewrite synchronize_unfold. cbn [prepend trace app].
  constructor; [done|].
  destruct (synchronize_rest_confined depth sp rp f) as [_ Ht].
  eapply Forall_impl; [exact Ht|]. by intros it H _.
Qed.

(** The second loop removes no entry of the replica directory itself. *)
Lemma synchronizing_reports depth sp rp :
  reports (λ it, is_removal it = true → ∀ x, item_path it ≠ Some (rp ++ [x]))
    (synchronizing (synchronize depth) sp rp).
Proof.
  unfold synchronizing. apply reports_bind; [apply reports_observe|]. intros l.
  apply reports_for_each. intros n _.
  apply reports_sync_object; try done.
  eapply reports_impl; [|apply synchronize_removals_below].
  intros it H Hrem x Hx. destruct (H Hrem) as (p & Hp & Hu).
  rewrite Hp in Hx. injection Hx as ->.
  apply strictly_under_spec in Hu as (m & q & Hu).
  rewrite snoc_app in Hu. by apply path_neq_snoc_cons in Hu.
Qed.

(** One level of a pass: the record of the check, the first loop, the
    second loop. *)
Lemma pass_split depth sp rp f :
  trace (synchronize (S depth) sp rp f) =
    Log INFO (Checking rp sp) :: trace (removing sp rp f) ++
    trace (synchronizing (synchronize depth) sp rp (final (removing sp rp f))) ∧
  final (synchronize (S depth) sp rp f) =
    final (synchronizing (synchronize depth) sp rp (final (removing sp rp f))).
Proof.
  rewrite synchronize_unfold, bind_unfold, removing_value. done.
Qed.

(** The second loop stays below the entries it goes through. *)
Lemma for_each_confined_names depth sp rp (l : list string) :
  confined (λ k, existsb (λ n, under (rp ++ [n]) k) l)
    (for_each l (sync_object (synchronize depth) sp rp)).
Proof.
  apply confined_for_each. intros n Hn.
  eapply confined_weaken; [|apply confined_sync_object, synchronize_confined].
  intros k Hk. apply existsb_exists. exists n. split; [|done].
  by apply list_elem_of_In.
Qed.

Lemma for_each_elsewhere depth sp rp (l : list string) g k :
  (∀ a, a ∈ l → under (rp ++ [a]) k = false) →
  final (for_each l (sync_object (synchronize depth) sp rp) g) !! k = g !! k ∧
  filter (about k) (trace (for_each l (sync_object (synchronize depth) sp rp) g)) = [].
Proof.
  intros Hk.
  assert (Hout : existsb (λ n, under (rp ++ [n]) k) l = false).
  { apply not_true_is_false. intros (a & Ha%list_elem_of_In & Hu)%existsb_exists.
    rewrite Hk in Hu; done. }
  split.
  - destruct (for_each_confined_names depth sp rp l g) as [H _]. by apply H.
  - eapply (confined_filter _ _ g k (for_each_confined_names depth sp rp l)). done.
Qed.

(** C3: removals come first.  At every level of a pass, what follows the
    record of the check is first the removals, each of an entry of the
    replica directory whose name is in the symmetric difference of the two
    listings, then the rest, which removes no entry of that directory.  So,
    in a well-formed store with the roots apart, for a name [X] that the
    replica directory has and the source directory lacks: the removal of [X]
    is among the first, nothing that follows is about [X] or a path below
    it, and after the pass neither [X] nor anything below it exists. *)
Theorem removals_come_first depth sp rp f X :
  well_formed f = true → apart sp rp = true → is_dir rp f = true →
  exists_ (rp ++ [X]) f = true → exists_ (sp ++ [X]) f = false →
  ∃ t1 t2,
    trace (synchronize (S depth) sp rp f) = Log INFO (Checking rp sp) :: t1 ++ t2 ∧
    Forall (λ it, is_removal it = true ∧
                  ∃ x, x ∈ distinct_objects sp rp f ∧ item_path it = Some (rp ++ [x])) t1 ∧
    Forall (λ it, is_removal it = true → ∀ x, item_path it ≠ Some (rp ++ [x])) t2 ∧
    Log WARNING (Removing (rp ++ [X])) ∈ t1 ∧
    filter (about (rp ++ [X])) t1 = removal f (rp ++ [X]) ∧
    Forall (λ it, ∀ k, item_path it = Some k → under (rp ++ [X]) k = false) t2 ∧
    (∀ k, under (rp ++ [X]) k = true →
          final (synchronize (S depth) sp rp f) !! k = None).
Proof.
  intros Hwf%well_formed_spec Hap Hr%is_dir_true HX%exists_true HnX%exists_false.
  destruct (pass_split depth sp rp f) as [-> ->].
  exists (trace (removing sp rp f)),
         (trace (synchronizing (synchronize depth) sp rp (final (removing sp rp f)))).
  assert (Hin : X ∈ distinct_objects sp rp f).
  { apply elem_of_distinct_objects. right. rewrite !elem_of_glob_star.
    split; [done|]. intros [_ H]. rewrite HnX in H. by destruct H. }
  destruct (removing_loop rp _ (NoDup_distinct_objects sp rp f) f Hwf)
    as (_ & Hgone & _ & Hsame & _).
  rewrite <- removing_unfold in Hgone, Hsame.
  set (f1 := final (removing sp rp f)) in *.
  assert (HXl : X ∉ glob_star sp f1).
  { rewrite elem_of_glob_star. intros [_ H].
    destruct (confined_removing sp rp f) as [Hframe _]. fold f1 in Hframe.
    rewrite Hframe, HnX in H; [by destruct H|].
    destruct (strictly_under rp (sp ++ [X])) eqn:E; [|done].
    apply strictly_under_under, under_spec in E as [q E]. by apply apart_neq in E. }
  assert (Hout : ∀ k, under (rp ++ [X]) k = true →
            existsb (λ n, under (rp ++ [n]) k) (glob_star sp f1) = false).
  { intros k Hk. apply not_true_is_false. intros (n & Hn & Hu)%existsb_exists.
    apply list_elem_of_In in Hn.
    rewrite (under_siblings rp X n k) in Hu; [done | by intros -> | done]. }
  rewrite synchronizing_unfold.
  destruct (for_each_confined_names depth sp rp (glob_star sp f1) f1) as [Hframe2 Ht2].
  split_and!.
  - done.
  - apply removing_reports.
  - rewrite <- synchronizing_unfold. apply synchronizing_reports.
  - assert (Log WARNING (Removing (rp ++ [X]))
            ∈ filter (about (rp ++ [X])) (trace (removing sp rp f))) as H.
    { rewrite Hsame by done. unfold removal. destruct HX as [[] ->]; left. }
    by apply list_elem_of_filter in H as [_ H].
  - by apply Hsame.
  - eapply Forall_impl; [exact Ht2|]. simpl.
    intros it (p & Hp & Hu) k Hk. assert (p = k) as -> by congruence.
    destruct (under (rp ++ [X]) k) eqn:E; [|done].
    apply Hout in E. congruence.
  - intros k Hk. rewrite Hframe2 by by apply Hout. by apply (Hgone k X).
Qed.

Lemma removals_come_first_witness :
  well_formed demo = true ∧ apart ["source"] ["replica"] = true ∧
  exists_ ["replica"; "old.txt"] demo = true ∧
  exists_ ["source"; "old.txt"] demo = false ∧
  ∀ k, under ["replica"; "old.txt"] k = true →
       final (synchronize 5 ["source"] ["replica"] demo) !! k = None.
Proof.
  split; [vm_compute; reflexivity|]. split; [vm_compute; reflexivity|].
  split; [vm_compute; reflexivity|]. split; [vm_compute; reflexivity|].
  destruct (removals_come_first 4 ["source"] ["replica"] demo "old.txt")
    as (t1 & t2 & _ & _ & _ & _ & _ & _ & H).
  - vm_compute; reflexivity.
  - vm_compute; reflexivity.
  - vm_compute; reflexivity.
  - vm_compute; reflexivity.
  - vm_compute; reflexivity.
  - exact H.
Defined.

(** ** The order of the creations *)

Lemma created_first_quiet t :
  (∀ p, Log WARNING (Creating p) ∉ t) → created_first t.
Proof.
  intros H t1 p t2 ->. destruct (H p). apply elem_of_app. right. left.
Qed.

Lemma created_first_app t t' :
  created_first t → created_first t' →
  (∀ p, Log WARNING (Creating p) ∈ t' →
        Forall (λ it, ∀ k, item_path it = Some k → strictly_under p k = false) t) →
  created_first (t ++ t').
Proof.
  intros Ht Ht' Hcross t1 p t2 E.
  apply app_eq_inv in E as [(l & -> & E)|(l & -> & ->)].
  - destruct l as [|it l]; simpl in E.
    + subst t'. specialize (Hcross p ltac:(left)). by rewrite app_nil_r in Hcross.
    + injection E as <- ->. by apply (Ht t1 p l).
  - apply Forall_app. split.
    + apply Hcross. apply elem_of_app. right. left.
    + by apply (Ht' l p t2).
Qed.

Lemma created_first_head it t :
  (∀ p, Log WARNING (Creating p) ∉ t) → created_first (it :: t).
Proof.
  intros H t1 p t2 E. destruct t1 as [|it' t1]; [constructor|].
  injection E as -> ->. destruct (H p). apply elem_of_app. right. left.
Qed.

Lemma under_not_strictly_above r p : under r p = true → strictly_under p r = false.
Proof.
  intros [q ->]%under_spec. destruct (strictly_under (r ++ q) r) eqn:E; [|done].
  apply strictly_under_spec in E as (m & q' & E).
  apply (f_equal length) in E. repeat rewrite length_app in E. simpl in E. lia.
Qed.

Lemma read_bytes_shape p g :
  (∃ d, read_bytes p g = Run [] g (Ret d)) ∨
  (∃ e : exn, read_bytes p g = Run [] g (Raise e)).
Proof.
  unfold read_bytes.
  destruct (g !! p) as [[d m|]|]; try destruct (readable m); eauto.
Qed.

(** What a source object that is a file reports. *)
Lemma sync_file_trace (recurse : list string → list string → M unit) sp rp n g :
  is_dir (sp ++ [n]) g = false →
  trace (sync_object recurse sp rp n g) = [] ∨
  trace (sync_object recurse sp rp n g) =
    [Log WARNING (Updating (rp ++ [n])); Call (Copy (sp ++ [n]) (rp ++ [n]))] ∨
  trace (sync_object recurse sp rp n g) =
    [Log WARNING (Adding (rp ++ [n])); Call (Copy (sp ++ [n]) (rp ++ [n]))].
Proof.
  intros Hd. unfold sync_object. rewrite bind_observe. cbv beta. rewrite Hd.
  rewrite bind_observe. cbv beta. destruct (exists_ (rp ++ [n]) g).
  - destruct (read_bytes_shape (sp ++ [n]) g) as [[d E]|[e E]].
    + rewrite (bind_run _ _ _ _ _ _ E), prepend_nil.
      destruct (read_bytes_shape (rp ++ [n]) g) as [[d' E']|[e E']].
      * rewrite (bind_run _ _ _ _ _ _ E'), prepend_nil.
        case_bool_decide; [|by left].
        right; left. rewrite bind_log. cbn [prepend trace]. by rewrite copy_trace.
      * rewrite (bind_run_raise _ _ _ _ _ _ E'). by left.
    + rewrite (bind_run_raise _ _ _ _ _ _ E). by left.
  - right; right. rewrite bind_log. cbn [prepend trace]. by rewrite copy_trace.
Qed.

(** What a source object that is a directory reports: its creation when the
    replica lacks it, then the pass over it. *)
Lemma sync_dir_trace (recurse : list string → list string → M unit) sp rp n g :
  is_dir (sp ++ [n]) g = true →
  ∃ t0 sub,
    trace (sync_object recurse sp rp n g) = t0 ++ sub ∧
    (t0 = [] ∨ t0 = [Log WARNING (Creating (rp ++ [n])); Call (Mkdir (rp ++ [n]))]) ∧
    (sub = [] ∨ ∃ g', sub = trace (recurse (sp ++ [n]) (rp ++ [n]) g')).
Proof.
  intros Hd. unfold sync_object. rewrite bind_observe. cbv beta. rewrite Hd.
  rewrite bind_observe. cbv beta. destruct (exists_ (rp ++ [n]) g).
  - rewrite bind_ret. exists [], (trace (recurse (sp ++ [n]) (rp ++ [n]) g)).
    split_and!; eauto.
  - rewrite bind_assoc, bind_log, bind_unfold.
    pose proof (mkdir_trace (rp ++ [n]) g) as Ht.
    destruct (mkdir (rp ++ [n]) g) as [t g' [[]| |]]; simpl in Ht; subst t.
    + exists [Log WARNING (Creating (rp ++ [n])); Call (Mkdir (rp ++ [n]))],
             (trace (recurse (sp ++ [n]) (rp ++ [n]) g')).
      split_and!; eauto.
    + exists [Log WARNING (Creating (rp ++ [n])); Call (Mkdir (rp ++ [n]))], [].
      split_and!; eauto.
    + exists [Log WARNING (Creating (rp ++ [n])); Call (Mkdir (rp ++ [n]))], [].
      split_and!; eauto.
Qed.

Lemma sync_object_created_first (recurse : list string → list string → M unit) sp rp n g :
  confined (under (rp ++ [n])) (recurse (sp ++ [n]) (rp ++ [n])) →
  (∀ g', created_first (trace (recurse (sp ++ [n]) (rp ++ [n]) g'))) →
  created_first (trace (sync_object recurse sp rp n g)).
Proof.
  intros Hconf Hrec. destruct (is_dir (sp ++ [n]) g) eqn:Hd.
  - destruct (sync_dir_trace recurse sp rp n g Hd) as (t0 & sub & -> & Ht0 & Hsub).
    assert (Hsub' : created_first sub ∧
              (∀ p, Log WARNING (Creating p) ∈ sub → under (rp ++ [n]) p = true)).
    { destruct Hsub as [->|[g' ->]].
      - split; [by apply created_first_quiet; intros p ?%elem_of_nil|].
        by intros p ?%elem_of_nil.
      - split; [apply Hrec|]. intros p Hp.
        destruct (Hconf g') as [_ Hall]. rewrite Forall_forall in Hall.
        destruct (Hall _ Hp) as (p' & [= <-] & Hu). done. }
    destruct Hsub' as [Hcf Hbelow].
    apply created_first_app; [|done|].
    + destruct Ht0 as [->| ->].
      * by apply created_first_quiet; intros p ?%elem_of_nil.
      * apply created_first_head. intros p H%list_elem_of_singleton. done.
    + intros p Hp%Hbelow. apply under_not_strictly_above in Hp.
      destruct Ht0 as [->| ->]; repeat constructor; by intros k [= <-].
  - apply created_first_quiet. intros p Hp.
    destruct (sync_file_trace recurse sp rp n g Hd) as [E|[E|E]];
      rewrite E in Hp.
    + by apply elem_of_nil in Hp.
    + apply elem_of_cons in Hp as [Hp|Hp%list_elem_of_singleton]; done.
    + apply elem_of_cons in Hp as [Hp|Hp%list_elem_of_singleton]; done.
Qed.

Lemma for_each_created_first depth sp rp (l : list string) :
  (∀ n g, created_first (trace (synchronize depth (sp ++ [n]) (rp ++ [n]) g))) →
  NoDup l → ∀ g,
  created_first (trace (for_each l (sync_object (synchronize depth) sp rp) g)).
Proof.
  intros Hrec. induction 1 as [|n l Hn Hl IH]; intros g.
  { by apply created_first_quiet; intros p ?%elem_of_nil. }
  rewrite for_each_cons, bind_unfold.
  pose proof (sync_object_created_first (synchronize depth) sp rp n g
                (synchronize_confined depth _ _) (Hrec n)) as Hhead.
  destruct (confined_sync_object (synchronize depth) sp rp n
              (synchronize_confined depth _ _) g) as [_ Hin].
  destruct (sync_object (synchronize depth) sp rp n g) as [t g' [[]| |]];
    cbn [prepend trace value final] in *; try done.
  apply created_first_app; [done | apply IH |].
  intros p Hp.
  destruct (for_each_confined_names depth sp rp l g') as [_ Hrest].
  rewrite Forall_forall in Hrest. destruct (Hrest _ Hp) as (p' & [= <-] & Hex).
  apply existsb_exists in Hex as (n' & Hn'%list_elem_of_In & Hu).
  eapply Forall_impl; [exact Hin|]. simpl.
  intros it (k & Hk & Hku) k' Hk'. assert (k' = k) as -> by congruence.
  destruct (strictly_under p k) eqn:E; [|done].
  apply strictly_under_under in E.
  pose proof (under_trans _ _ _ Hu E) as Hn'k.
  rewrite (under_siblings rp n n' k) in Hn'k; [done | by intros -> | done].
Qed.

(** In what a pass reports, nothing about a path below [p] precedes the
    record that [p] is created. *)
Lemma synchronize_created_first depth :
  ∀ sp rp f, created_first (trace (synchronize depth sp rp f)).
Proof.
  induction depth as [|depth IH]; intros sp rp f.
  { by apply created_first_quiet; intros p ?%elem_of_nil. }
  destruct (pass_split depth sp rp f) as [-> _].
  set (f1 := final (removing sp rp f)).
  assert (Hbelow : ∀ p, Log WARNING (Creating p)
              ∈ trace (synchronizing (synchronize depth) sp rp f1) →
            strictly_under rp p = true).
  { intros p Hp.
    destruct (confined_synchronizing (synchronize depth) sp rp
                (λ n, synchronize_confined depth _ _) f1) as [_ Hall].
    rewrite Forall_forall in Hall. by destruct (Hall _ Hp) as (p' & [= <-] & Hu). }
  assert (Hnone : ∀ p, Log WARNING (Creating p) ∉ trace (removing sp rp f)).
  { intros p Hp. pose proof (removing_reports sp rp f) as Hall.
    rewrite Forall_forall in Hall. by destruct (Hall _ Hp) as [? _]. }
  change (created_first ([Log INFO (Checking rp sp)] ++
    (trace (removing sp rp f) ++ trace (synchronizing (synchronize depth) sp rp f1)))).
  apply created_first_app.
  - by apply created_first_quiet; intros p ?%list_elem_of_singleton.
  - apply created_first_app.
    + by apply created_first_quiet.
    + rewrite synchronizing_unfold.
      apply for_each_created_first; [intros; apply IH | apply NoDup_glob_star].
    + intros p Hp%Hbelow. pose proof (removing_reports sp rp f) as Hall.
      eapply Forall_impl; [exact Hall|]. simpl.
      intros it (_ & x & _ & Hx) k Hk. assert (k = rp ++ [x]) as -> by congruence.
      apply strictly_under_spec in Hp as (m & q & ->).
      destruct (strictly_under (rp ++ m :: q) (rp ++ [x])) eqn:E; [|done].
      apply strictly_under_spec in E as (m' & q' & E).
      apply (f_equal length) in E. repeat rewrite length_app in E. simpl in E. lia.
  - intros p [Hp|Hp]%elem_of_app; [by apply Hnone in Hp|].
    apply Hbelow, strictly_under_under, under_not_strictly_above in Hp.
    repeat constructor. by intros k [= <-].
Qed.

Lemma created_before t p it k :
  created_first t → Log WARNING (Creating p) ∈ t → it ∈ t →
  item_path it = Some k → strictly_under p k = true →
  before (Log WARNING (Creating p)) it t.
Proof.
  intros Hcf Hp Hit Hk Hu.
  apply list_elem_of_split in Hp as (t1 & t2 & ->).
  pose proof (Hcf t1 p t2 eq_refl) as Hall. rewrite Forall_forall in Hall.
  apply elem_of_app in Hit as [Hit|Hit].
  { specialize (Hall _ Hit k Hk). congruence. }
  apply elem_of_cons in Hit as [->|Hit].
  { injection Hk as <-. by rewrite strictly_under_irrefl in Hu. }
  apply list_elem_of_split in Hit as (t2a & t2b & ->).
  by exists t1, t2a, t2b.
Qed.

(** The directories on the way to a directory of the source are
    directories. *)
Lemma chain_dirs f sp (ns : list string) (i : nat) :
  wf f → f !! (sp ++ ns) = Some EDir → (i ≤ length ns)%nat →
  f !! (sp ++ take i ns) = Some EDir.
Proof.
  intros Hwf Hd Hi. rewrite <- (take_drop i ns) in Hd.
  destruct (drop i ns) as [|m q] eqn:E.
  - by rewrite app_nil_r in Hd.
  - rewrite app_assoc in Hd. apply (wf_ancestor f _ m q Hwf). by rewrite Hd.
Qed.

Lemma chain_missing f rp (ns : list string) (i : nat) :
  wf f → f !! (rp ++ take 1 ns) = None → (1 ≤ i)%nat →
  f !! (rp ++ take i ns) = None.
Proof.
  intros Hwf Hm Hi. destruct ns as [|n ns]; [by destruct i|].
  destruct i as [|i]; [lia|]. simpl in *. rewrite take_0 in Hm.
  destruct (take i ns) as [|m q]; [done|].
  rewrite <- (snoc_app rp n (m :: q)). by apply wf_missing.
Qed.

(** C7 (amended): a chain of directories of the source, [ns] deep, that the
    replica lacks from its first level on.  Under the conditions of the pass
    (a well-formed store, the roots directories neither inside the other,
    one kind on both sides of every common path, the source shallower than
    the recursion limit, the modes letting the files be read and written),
    the pass returns, and for each level of the chain it reports exactly one
    creating record,
    with its [mkdir] and the check of the new directory; the creating record
    of a level precedes that of every deeper level; and the record that a
    file is added in a directory of the chain comes after the creating
    record of that directory. *)
Theorem chain_created_top_down sp rp depth f (ns : list string) :
  ready sp rp depth f = true →
  is_dir (sp ++ ns) f = true → exists_ (rp ++ take 1 ns) f = false →
  value (synchronize depth sp rp f) = Ret tt ∧
  (∀ i : nat, (1 ≤ i ≤ length ns)%nat →
     filter (about (rp ++ take i ns)) (trace (synchronize depth sp rp f)) =
       [ Log WARNING (Creating (rp ++ take i ns));
         Call (Mkdir (rp ++ take i ns));
         Log INFO (Checking (rp ++ take i ns) (sp ++ take i ns)) ] ∧
     length (filter (λ it, it = Log WARNING (Creating (rp ++ take i ns)))
               (trace (synchronize depth sp rp f))) = 1%nat) ∧
  (∀ i j : nat, (1 ≤ i < j)%nat → (j ≤ length ns)%nat →
     before (Log WARNING (Creating (rp ++ take i ns)))
            (Log WARNING (Creating (rp ++ take j ns)))
            (trace (synchronize depth sp rp f))) ∧
  (∀ (i : nat) x, (1 ≤ i ≤ length ns)%nat →
     Log WARNING (Adding (rp ++ take i ns ++ [x])) ∈ trace (synchronize depth sp rp f) →
     before (Log WARNING (Creating (rp ++ take i ns)))
            (Log WARNING (Adding (rp ++ take i ns ++ [x])))
            (trace (synchronize depth sp rp f))).
Proof.
  intros Hready Hd%is_dir_true Hm%exists_false.
  pose proof (ready_good _ _ _ _ Hready) as Hgood.
  destruct (synchronize_pass_spec depth sp rp f Hgood) as (Hv & _ & Ht).
  pose proof (good_wf _ _ _ _ Hgood) as Hwf.
  pose proof (synchronize_created_first depth sp rp f) as Hcf.
  assert (Hlevel : ∀ i : nat, (1 ≤ i ≤ length ns)%nat →
     filter (about (rp ++ take i ns)) (trace (synchronize depth sp rp f)) =
       [ Log WARNING (Creating (rp ++ take i ns));
         Call (Mkdir (rp ++ take i ns));
         Log INFO (Checking (rp ++ take i ns) (sp ++ take i ns)) ]).
  { intros i [Hi1 Hi2]. rewrite Ht. unfold actions.
    by rewrite (chain_dirs f sp ns i), (chain_missing f rp ns i). }
  assert (Hin : ∀ i : nat, (1 ≤ i ≤ length ns)%nat →
     Log WARNING (Creating (rp ++ take i ns)) ∈ trace (synchronize depth sp rp f)).
  { intros i Hi.
    assert (Log WARNING (Creating (rp ++ take i ns))
            ∈ filter (about (rp ++ take i ns)) (trace (synchronize depth sp rp f))) as H
      by (rewrite Hlevel by done; left).
    by apply list_elem_of_filter in H as [_ H]. }
  split_and!.
  - done.
  - intros i Hi. split; [by apply Hlevel|].
    rewrite <- (list_filter_filter_l
                  (λ it, it = Log WARNING (Creating (rp ++ take i ns)))
                  (about (rp ++ take i ns))) by (intros it ->; reflexivity).
    rewrite Hlevel by done.
    rewrite filter_cons_True, filter_cons_False, filter_cons_False by done.
    reflexivity.
  - intros i j Hij Hj.
    apply (created_before _ _ _ (rp ++ take j ns)); [done | | | done |].
    + apply Hin. lia.
    + apply Hin. lia.
    + assert (take j ns = take i ns ++ take (j - i) (drop i ns)) as ->.
      { rewrite take_take_drop. f_equal. lia. }
      destruct (take (j - i) (drop i ns)) as [|m q] eqn:E.
      * apply (f_equal length) in E. rewrite length_take, length_drop in E.
        simpl in E. lia.
      * rewrite app_assoc. apply strictly_under_app.
  - intros i x Hi Hadd.
    apply (created_before _ _ _ (rp ++ take i ns ++ [x])); [done | | done | done |].
    + by apply Hin.
    + rewrite app_assoc. apply strictly_under_app.
Qed.

Lemma chain_created_top_down_witness :
  ready ["source"] ["replica"] 6 nested = true ∧
  is_dir (["source"] ++ ["a"; "b"; "c"]) nested = true ∧
  exists_ (["replica"] ++ take 1 ["a"; "b"; "c"]) nested = false ∧
  before (Log WARNING (Creating ["replica"; "a"]))
         (Log WARNING (Creating ["replica"; "a"; "b"; "c"]))
         (trace (synchronize 6 ["source"] ["replica"] nested)).
Proof.
  split; [vm_compute; reflexivity|]. split; [vm_compute; reflexivity|].
  split; [vm_compute; reflexivity|].
  destruct (chain_created_top_down ["source"] ["replica"] 6 nested ["a"; "b"; "c"])
    as (_ & _ & H & _).
  - vm_compute; reflexivity.
  - vm_compute; reflexivity.
  - vm_compute; reflexivity.
  - apply (H 1%nat 3%nat); simpl; lia.
Defined.

(** C7 as stated fails: in [blocked] the source holds the chain [new/deep],
    two levels that the replica lacks, and beside it the file [z], whose
    place in the replica is a directory.  The pass comes to [z] first,
    raises [IsADirectoryError] there, and reports no creating record. *)
Lemma chain_not_created_behind_a_clash :
  well_formed blocked = true ∧
  is_dir ["source"] blocked = true ∧ is_dir ["replica"] blocked = true ∧
  is_dir (["source"] ++ ["new"; "deep"]) blocked = true ∧
  exists_ (["replica"] ++ take 1 ["new"; "deep"]) blocked = false ∧
  synchronize 5 ["source"] ["replica"] blocked =
    Run [Log INFO (Checking ["replica"] ["source"])] blocked (Raise IsADirectoryError) ∧
  (∀ p, Log WARNING (Creating p) ∉ trace (synchronize 5 ["source"] ["replica"] blocked)).
Proof.
  split_and!; try (vm_compute; reflexivity).
  assert (trace (synchronize 5 ["source"] ["replica"] blocked)
          = [Log INFO (Checking ["replica"] ["source"])]) as ->
    by (vm_compute; reflexivity).
  intros p H. apply list_elem_of_singleton in H. discriminate H.
Qed.

(** ** A file that is the same on both sides *)

Section equal_file.
Variables (depth : nat) (sp rp : list string) (n : string) (q : list string).
Variables (d : list byte) (m m' : Z).
Hypothesis roots_apart : apart sp rp = true.

(** The pass over a directory on the way to the file, for the step below. *)
Hypothesis below : ∀ m0 q' g, q = m0 :: q' →
  wf g →
  g !! ((sp ++ [n]) ++ m0 :: q') = Some (EFile d m) →
  g !! ((rp ++ [n]) ++ m0 :: q') = Some (EFile d m') →
  filter (about ((rp ++ [n]) ++ m0 :: q'))
    (trace (synchronize depth (sp ++ [n]) (rp ++ [n]) g)) = [] ∧
  final (synchronize depth (sp ++ [n]) (rp ++ [n]) g) !! ((rp ++ [n]) ++ m0 :: q')
  = Some (EFile d m').


End equal_file.




(** * Further properties

    ** A root that is not a directory *)

Lemma no_children f p n : wf f → is_dir p f = false → f !! (p ++ [n]) = None.
Proof.
  intros Hwf Hp. destruct (f !! (p ++ [n])) as [e|] eqn:E; [|done].
  rewrite <- not_true_iff_false in Hp. destruct Hp.
  apply is_dir_true, (Hwf p n). by rewrite E.
Qed.

(** [copy] under a parent that is not a directory. *)
Lemma copy_run_orphan f src dst d m :
  f !! src = Some (EFile d m) → readable m = true → f !! dst = None → src ≠ dst →
  is_dir (parent dst) f = false →
  copy src dst f = Run [Call (Copy src dst)] f
    (Raise (if exists_ (parent dst) f then NotADirectoryError else FileNotFoundError)).
Proof.
  intros Hs Hm Hp Hne Hd. unfold copy. rewrite bind_emit, bind_observe. simpl.
  assert (is_dir dst f = false) as -> by (unfold is_dir; by rewrite Hp).
  rewrite (bool_decide_eq_false_2 (src = dst)) by done.
  rewrite andb_false_r, Hs, Hm, Hp. simpl. unfold create. rewrite bind_observe. simpl.
  unfold is_dir, exists_ in *. by destruct (f !! parent dst) as [[]|].
Qed.

(** The first object of the second loop, when the replica root is not a
    directory: the record, the call, and the exception of the call.  The
    copy opens its source first, so that a file that cannot be read raises
    [PermissionError] before the destination is looked at. *)
Lemma sync_object_orphan (recurse : list string → list string → M unit) sp rp n f :
  wf f → is_dir rp f = false → n ∈ glob_star sp f →
  sync_object recurse sp rp n f =
  Run (if is_dir (sp ++ [n]) f
       then [Log WARNING (Creating (rp ++ [n])); Call (Mkdir (rp ++ [n]))]
       else [Log WARNING (Adding (rp ++ [n])); Call (Copy (sp ++ [n]) (rp ++ [n]))])
      f
      (Raise (if denied (sp ++ [n]) f then PermissionError
              else if exists_ rp f then NotADirectoryError else FileNotFoundError)).
Proof.
  intros Hwf Hr [Hs [e He]]%elem_of_glob_star.
  pose proof (no_children f rp n Hwf Hr) as Hrn.
  assert (Hex : exists_ (rp ++ [n]) f = false) by (unfold exists_; by rewrite Hrn).
  unfold sync_object. rewrite bind_observe. cbv beta.
  destruct (is_dir (sp ++ [n]) f) eqn:Hd.
  - rewrite bind_observe. cbv beta. rewrite Hex, bind_assoc, bind_log.
    rewrite (bind_run_raise _ _ _ _ _ _ (mkdir_run_orphan f (rp ++ [n]) Hrn
               ltac:(by rewrite parent_app))).
    rewrite parent_app. unfold denied.
    unfold is_dir in Hd. by destruct (f !! (sp ++ [n])) as [[]|].
  - rewrite bind_observe. cbv beta. rewrite Hex, bind_log.
    destruct e as [d m|]; [|by unfold is_dir in Hd; rewrite He in Hd].
    assert (Hne : sp ++ [n] ≠ rp ++ [n]).
    { intros [-> _]%app_inj_tail. apply is_dir_true in Hs. congruence. }
    unfold denied. rewrite He. destruct (readable m) eqn:Hm; simpl.
    + rewrite (copy_run_orphan f (sp ++ [n]) (rp ++ [n]) d m He Hm Hrn);
        rewrite ?parent_app; done.
    + rewrite (copy_run_unreadable f (sp ++ [n]) (rp ++ [n]) d m He Hm); [done | | done].
      unfold is_dir. by rewrite Hrn.
Qed.

Lemma removing_nothing sp rp f :
  wf f → is_dir rp f = false → removing sp rp f = Run [] f (Ret tt).
Proof.
  intros Hwf Hr. rewrite removing_unfold.
  destruct (for_each_quiet (λ _, False) (distinct_objects sp rp f) (remove_old rp) f)
    as (Hv & Hf & Ht).
  { intros x _. rewrite remove_old_run. unfold removal.
    rewrite (no_children f rp x Hwf Hr). by repeat constructor. }
  destruct (for_each _ _ f) as [t g v]. simpl in *. subst.
  by destruct Ht.
Qed.

(** A pass against a replica root that is not a directory. *)
Lemma synchronize_onto_non_directory depth sp rp f :
  wf f → is_dir rp f = false →
  final (synchronize depth sp rp f) = f ∧
  (glob_star sp f = [] →
     synchronize (S depth) sp rp f = Run [Log INFO (Checking rp sp)] f (Ret tt)) ∧
  (∀ n l, glob_star sp f = n :: l →
     synchronize (S depth) sp rp f =
     Run (Log INFO (Checking rp sp) ::
          (if is_dir (sp ++ [n]) f
           then [Log WARNING (Creating (rp ++ [n])); Call (Mkdir (rp ++ [n]))]
           else [Log WARNING (Adding (rp ++ [n]));
                 Call (Copy (sp ++ [n]) (rp ++ [n]))]))
         f
         (Raise (if denied (sp ++ [n]) f then PermissionError
                 else if exists_ rp f then NotADirectoryError
                 else FileNotFoundError))).
Proof.
  intros Hwf Hr.
  assert (Hnil : ∀ depth, glob_star sp f = [] →
            synchronize (S depth) sp rp f = Run [Log INFO (Checking rp sp)] f (Ret tt)).
  { intros depth' E.
    rewrite synchronize_unfold, (bind_run _ _ _ _ _ _ (removing_nothing sp rp f Hwf Hr)).
    by rewrite prepend_nil, synchronizing_unfold, E. }
  assert (Hcons : ∀ depth n l, glob_star sp f = n :: l →
     synchronize (S depth) sp rp f =
     Run (Log INFO (Checking rp sp) ::
          (if is_dir (sp ++ [n]) f
           then [Log WARNING (Creating (rp ++ [n])); Call (Mkdir (rp ++ [n]))]
           else [Log WARNING (Adding (rp ++ [n]));
                 Call (Copy (sp ++ [n]) (rp ++ [n]))]))
         f
         (Raise (if denied (sp ++ [n]) f then PermissionError
                 else if exists_ rp f then NotADirectoryError
                 else FileNotFoundError))).
  { intros depth' n l E.
    rewrite synchronize_unfold, (bind_run _ _ _ _ _ _ (removing_nothing sp rp f Hwf Hr)).
    rewrite prepend_nil, synchronizing_unfold, E, for_each_cons.
    rewrite (bind_run_raise _ _ _ _ _ _
               (sync_object_orphan (synchronize depth') sp rp n f Hwf Hr
                  ltac:(rewrite E; left))).
    done. }
  split_and!; [|apply Hnil|apply Hcons].
  destruct depth as [|depth]; [done|].
  destruct (glob_star sp f) as [|n l] eqn:E.
  - by rewrite Hnil.
  - by rewrite (Hcons depth n l).
Qed.



(** The same pass when the file listed first cannot be read. *)
Example pass_onto_a_non_directory_unreadable :
  value (synchronize 5 ["source"] ["replica"]
           (<[["source"; "a.txt"] := EFile (bytes_of "hello") 128]> replica_is_file))
  = Raise PermissionError.
Proof. vm_compute. reflexivity. Qed.

(** ** A source root that is not a directory *)

Lemma removing_only_deletes sp rp f k :
  wf f →
  final (removing sp rp f) !! k = None ∨ final (removing sp rp f) !! k = f !! k.
Proof.
  intros Hwf. rewrite removing_unfold.
  destruct (removing_loop rp _ (NoDup_distinct_objects sp rp f) f Hwf)
    as (_ & Hgone & Hframe & _ & _).
  destruct (existsb (λ x, under (rp ++ [x]) k) (distinct_objects sp rp f)) eqn:E.
  - apply existsb_exists in E as (x & Hx%list_elem_of_In & Hu). left. by apply (Hgone k x).
  - right. apply Hframe. intros x Hx%list_elem_of_In.
    destruct (under (rp ++ [x]) k) eqn:Hu; [|done].
    rewrite <- E. symmetry. apply existsb_exists. eauto.
Qed.

(** X1: the source root is missing or is a regular file, the replica root
    is a directory.  A pass from a well-formed store lists nothing in the
    source, so it removes every entry of the replica directory, each with
    its record, copies and creates nothing, and returns; the replica root
    itself stays. *)
Theorem pass_without_a_source_directory depth sp rp f :
  well_formed f = true → is_dir sp f = false → is_dir rp f = true →
  value (synchronize (S depth) sp rp f) = Ret tt ∧
  (∀ n q, final (synchronize (S depth) sp rp f) !! (rp ++ n :: q) = None) ∧
  final (synchronize (S depth) sp rp f) !! rp = Some EDir ∧
  (∀ n, filter (about (rp ++ [n])) (trace (synchronize (S depth) sp rp f))
        = removal f (rp ++ [n])) ∧
  (∃ t, trace (synchronize (S depth) sp rp f) = Log INFO (Checking rp sp) :: t ∧
        Forall (λ it, is_removal it = true) t).
Proof.
  intros Hwf%well_formed_spec Hs Hr%is_dir_true.
  assert (Hglob : ∀ g, is_dir sp g = false → glob_star sp g = []).
  { intros g Hg. unfold glob_star. by rewrite Hg. }
  assert (Hin : ∀ x, x ∈ distinct_objects sp rp f ↔ is_Some (f !! (rp ++ [x]))).
  { intros x. rewrite elem_of_distinct_objects, (Hglob f Hs), elem_of_glob_star.
    split.
    - intros [[H%elem_of_nil _]|[[_ H] _]]; done.
    - intros H. right. split; [done|]. apply not_elem_of_nil. }
  destruct (removing_loop rp _ (NoDup_distinct_objects sp rp f) f Hwf)
    as (_ & Hgone & Hframe & Hsame & Hother).
  rewrite <- removing_unfold in Hgone, Hframe, Hsame, Hother.
  assert (Hs1 : is_dir sp (final (removing sp rp f)) = false).
  { unfold is_dir in *.
    destruct (removing_only_deletes sp rp f sp Hwf) as [-> | ->]; done. }
  assert (E : synchronize (S depth) sp rp f =
              prepend [Log INFO (Checking rp sp)] (removing sp rp f)).
  { rewrite synchronize_unfold, bind_unfold, removing_value.
    rewrite synchronizing_unfold, (Hglob _ Hs1). f_equal.
    destruct (removing sp rp f) as [t g v] eqn:Er. unfold prepend. simpl.
    rewrite app_nil_r. f_equal.
    pose proof (removing_value sp rp f) as Hv. rewrite Er in Hv. simpl in Hv.
    by rewrite Hv. }
  rewrite E. cbn [prepend value final trace app].
  split_and!.
  - apply removing_value.
  - intros n q. destruct (f !! (rp ++ [n])) as [e|] eqn:En.
    + apply (Hgone _ n); [apply Hin; by rewrite En|].
      rewrite <- (snoc_app rp n q). apply under_app.
    + rewrite Hframe.
      { destruct q as [|m0 q]; [done|].
        rewrite <- (snoc_app rp n (m0 :: q)). by apply wf_missing. }
      intros x Hx%Hin. apply (under_siblings rp n x).
      * intros ->. rewrite En in Hx. by destruct Hx.
      * rewrite <- (snoc_app rp n q). apply under_app.
  - rewrite Hframe; [done|]. intros x _. apply not_under_child_self.
  - intros n. rewrite filter_about_cons_other.
    + destruct (f !! (rp ++ [n])) as [e|] eqn:En.
      * apply Hsame, Hin. by rewrite En.
      * unfold removal. rewrite En. apply Hother.
        intros x Hx%Hin [= ->]%app_inv_head. rewrite En in Hx. by destruct Hx.
    + unfold about. simpl. intros [= H]. rewrite <- (app_nil_r rp) in H at 1.
      by apply app_inv_head in H.
  - eexists. split; [done|].
    eapply Forall_impl; [apply removing_reports|]. by intros it [H _].
Qed.

Lemma pass_without_a_source_directory_witness :
  well_formed source_is_file = true ∧ is_dir ["source"] source_is_file = false ∧
  is_dir ["replica"] source_is_file = true ∧
  value (synchronize 3 ["source"] ["replica"] source_is_file) = Ret tt ∧
  ∀ n q, final (synchronize 3 ["source"] ["replica"] source_is_file)
           !! (["replica"] ++ n :: q) = None.
Proof.
  split; [vm_compute; reflexivity|]. split; [vm_compute; reflexivity|].
  split; [vm_compute; reflexivity|].
  destruct (pass_without_a_source_directory 2 ["source"] ["replica"] source_is_file)
    as (Hv & Hgone & _).
  - vm_compute; reflexivity.
  - vm_compute; reflexivity.
  - vm_compute; reflexivity.
  - split; [exact Hv | exact Hgone].
Defined.

(** ** A file on one side, a directory on the other *)

Lemma removing_source_kept sp rp f q :
  apart sp rp = true → final (removing sp rp f) !! (sp ++ q) = f !! (sp ++ q).
Proof.
  intros Hap. destruct (confined_removing sp rp f) as [H _]. apply H.
  destruct (strictly_under rp (sp ++ q)) eqn:E; [|done].
  apply strictly_under_under, under_spec in E as [q' E]. by apply apart_neq in E.
Qed.

(** The first loop leaves alone what lies below a name both listings have. *)
Lemma removing_common_kept sp rp f n k :
  wf f → is_Some (f !! (sp ++ [n])) → is_Some (f !! (rp ++ [n])) →
  under (rp ++ [n]) k = true → final (removing sp rp f) !! k = f !! k.
Proof.
  intros Hwf Hsn Hrn Hk.
  assert (Hs : f !! sp = Some EDir) by by apply (Hwf sp n).
  assert (Hr : f !! rp = Some EDir) by by apply (Hwf rp n).
  destruct (removing_loop rp _ (NoDup_distinct_objects sp rp f) f Hwf)
    as (_ & _ & Hframe & _ & _).
  rewrite <- removing_unfold in Hframe. apply Hframe. intros x Hx.
  apply (under_siblings rp n x); [|done]. intros ->.
  apply elem_of_distinct_objects in Hx. rewrite !elem_of_glob_star in Hx.
  destruct Hx as [[_ H]|[_ H]]; by apply H.
Qed.

Section mismatch.
Variables (depth : nat) (sp rp : list string) (n : string) (q : list string).
Variables (es er : entry).
Hypothesis roots_apart : apart sp rp = true.
Hypothesis kinds_differ : same_kind es er = false.

(** The pass over a directory on the way to the two entries. *)
Hypothesis below : ∀ m0 q' g, q = m0 :: q' →
  wf g →
  g !! ((sp ++ [n]) ++ m0 :: q') = Some es →
  g !! ((rp ++ [n]) ++ m0 :: q') = Some er →
  (∀ k, under ((rp ++ [n]) ++ m0 :: q') k = true →
     final (synchronize depth (sp ++ [n]) (rp ++ [n]) g) !! k = g !! k) ∧
  (is_dir (sp ++ n :: q) g = false →
     ∃ e, value (synchronize depth (sp ++ [n]) (rp ++ [n]) g) = Raise e).

Lemma sync_object_mismatch g :
  wf g → g !! (sp ++ n :: q) = Some es → g !! (rp ++ n :: q) = Some er →
  (∀ k, under (rp ++ n :: q) k = true →
     final (sync_object (synchronize depth) sp rp n g) !! k = g !! k) ∧
  (is_dir (sp ++ n :: q) g = false →
     ∃ e, value (sync_object (synchronize depth) sp rp n g) = Raise e).
Proof.
  intros Hwf Hsq Hrq. unfold sync_object. rewrite bind_observe. cbv beta.
  destruct q as [|m0 q'] eqn:Eq.
  - assert (Hex : exists_ (rp ++ [n]) g = true) by (unfold exists_; by rewrite Hrq).
    destruct es as [d m|], er as [d' m'|]; try done.
    + assert (is_dir (sp ++ [n]) g = false) as -> by (unfold is_dir; by rewrite Hsq).
      rewrite bind_observe. cbv beta. rewrite Hex.
      destruct (readable m) eqn:Hm.
      2:{ rewrite (bind_run_raise _ _ _ _ _ _
                     (read_bytes_run_denied g (sp ++ [n]) d m Hsq Hm)). by eauto. }
      rewrite (bind_run _ _ _ _ _ _ (read_bytes_run g (sp ++ [n]) d m Hsq Hm)),
        prepend_nil.
      assert (Hread : read_bytes (rp ++ [n]) g = Run [] g (Raise IsADirectoryError))
        by (unfold read_bytes; by rewrite Hrq).
      rewrite (bind_run_raise _ _ _ _ _ _ Hread). by eauto.
    + assert (is_dir (sp ++ [n]) g = true) as -> by by apply is_dir_true.
      rewrite bind_observe. cbv beta. rewrite Hex, bind_ret.
      destruct (synchronize_onto_non_directory depth (sp ++ [n]) (rp ++ [n]) g Hwf)
        as (-> & _ & _); [unfold is_dir; by rewrite Hrq|].
      by split.
  - assert (g !! (sp ++ [n]) = Some EDir) as Hd1.
    { apply (wf_ancestor g (sp ++ [n]) m0 q' Hwf). rewrite snoc_app, Hsq. eauto. }
    assert (g !! (rp ++ [n]) = Some EDir) as Hd2.
    { apply (wf_ancestor g (rp ++ [n]) m0 q' Hwf). rewrite snoc_app, Hrq. eauto. }
    assert (is_dir (sp ++ [n]) g = true) as -> by by apply is_dir_true.
    rewrite bind_observe. cbv beta.
    assert (exists_ (rp ++ [n]) g = true) as -> by (unfold exists_; by rewrite Hd2).
    rewrite bind_ret, <- (snoc_app rp n (m0 :: q')).
    apply (below m0 q' g eq_refl Hwf); by rewrite snoc_app.
Qed.

Lemma for_each_mismatch (l : list string) : ∀ g,
  wf g → g !! (sp ++ n :: q) = Some es → g !! (rp ++ n :: q) = Some er →
  (∀ k, under (rp ++ n :: q) k = true →
     final (for_each l (sync_object (synchronize depth) sp rp) g) !! k = g !! k) ∧
  (is_dir (sp ++ n :: q) g = false → n ∈ l →
     ∃ e, value (for_each l (sync_object (synchronize depth) sp rp) g) = Raise e).
Proof.
  induction l as [|a l IH]; intros g Hwf Hsq Hrq.
  { split; [done|]. by intros _ ?%elem_of_nil. }
  rewrite for_each_cons, bind_unfold.
  assert (Hstep : ∀ k, under (rp ++ n :: q) k = true →
            final (sync_object (synchronize depth) sp rp a g) !! k = g !! k).
  { destruct (decide (a = n)) as [->|Hne]; [by apply sync_object_mismatch|].
    intros k Hk.
    destruct (confined_sync_object (synchronize depth) sp rp a
                (synchronize_confined depth _ _) g) as [H _].
    apply H, (under_siblings rp n a); [done|].
    apply under_trans with (rp ++ n :: q); [|done].
    rewrite <- (snoc_app rp n q). apply under_app. }
  assert (Hwf0 : wf (final (sync_object (synchronize depth) sp rp a g))).
  { apply keeps_wf_sync_object; [apply synchronize_keeps_wf | done]. }
  assert (Hs0 : final (sync_object (synchronize depth) sp rp a g) !! (sp ++ n :: q)
                = Some es).
  { rewrite <- Hsq.
    destruct (confined_sync_object (synchronize depth) sp rp a
                (synchronize_confined depth _ _) g) as [H _].
    by apply H, apart_source_frame. }
  assert (Hr0 : final (sync_object (synchronize depth) sp rp a g) !! (rp ++ n :: q)
                = Some er).
  { rewrite <- Hrq. apply Hstep, under_refl. }
  destruct (IH _ Hwf0 Hs0 Hr0) as [Hf1 Hv1].
  pose proof (halts_sync_object (synchronize depth) sp rp a
                (synchronize_halts depth) g) as Hhalts.
  destruct (value (sync_object (synchronize depth) sp rp a g)) as [[]| |] eqn:Ev;
    cbn [prepend trace final value]; [| |done].
  - split.
    + intros k Hk. by rewrite Hf1, Hstep.
    + intros Hfile [Heq|Hin]%elem_of_cons.
      * subst a. destruct (sync_object_mismatch g Hwf Hsq Hrq) as [_ H].
        destruct (H Hfile) as [e He]. congruence.
      * apply Hv1; [|done]. unfold is_dir in Hfile |- *.
        rewrite Hsq in Hfile. by rewrite Hs0.
  - split; [done | by eauto].
Qed.
End mismatch.

(** Where the source has a file and the replica a directory, or the other
    way round, a pass leaves the replica's entry and what lies below it as
    they were; when the source's entry is the file, the pass raises. *)
Lemma synchronize_mismatch depth :
  ∀ sp rp f n q (es er : entry),
  wf f → apart sp rp = true → same_kind es er = false →
  f !! (sp ++ n :: q) = Some es → f !! (rp ++ n :: q) = Some er →
  (∀ k, under (rp ++ n :: q) k = true →
     final (synchronize depth sp rp f) !! k = f !! k) ∧
  (is_dir (sp ++ n :: q) f = false →
     ∃ e, value (synchronize depth sp rp f) = Raise e).
Proof.
  induction depth as [|depth IH]; intros sp rp f n q es er Hwf Hap Hkind Hsq Hrq.
  { split; [done | by eauto]. }
  assert (Hsn : is_Some (f !! (sp ++ [n]))).
  { destruct q as [|m0 q]; [eauto|]. rewrite <- (snoc_app sp n (m0 :: q)) in Hsq.
    rewrite (wf_ancestor f (sp ++ [n]) m0 q Hwf); eauto. }
  assert (Hrn : is_Some (f !! (rp ++ [n]))).
  { destruct q as [|m0 q]; [eauto|]. rewrite <- (snoc_app rp n (m0 :: q)) in Hrq.
    rewrite (wf_ancestor f (rp ++ [n]) m0 q Hwf); eauto. }
  assert (Hs : f !! sp = Some EDir) by by apply (Hwf sp n).
  pose proof (keeps_wf_removing sp rp f Hwf) as Hwf1.
  assert (Hbelow : under (rp ++ [n]) (rp ++ n :: q) = true).
  { rewrite <- (snoc_app rp n q). apply under_app. }
  assert (Hkept : ∀ k, under (rp ++ n :: q) k = true →
            final (removing sp rp f) !! k = f !! k).
  { intros k Hk. apply (removing_common_kept sp rp f n k Hwf Hsn Hrn).
    by apply under_trans with (rp ++ n :: q). }
  assert (Hsrc : ∀ q', final (removing sp rp f) !! (sp ++ q') = f !! (sp ++ q')).
  { intros q'. by apply removing_source_kept. }
  rewrite synchronize_unfold, bind_unfold, removing_value, synchronizing_unfold.
  cbn [prepend value final trace].
  set (f1 := final (removing sp rp f)) in *.
  destruct (for_each_mismatch depth sp rp n q es er Hap Hkind) with
    (l := glob_star sp f1) (g := f1) as [Hf2 Hv2].
  - intros m0 q' g -> Hwfg Hs' Hr'.
    rewrite <- (snoc_app sp n (m0 :: q')). apply (IH _ _ g m0 q' es er); try done.
    by apply apart_child.
  - done.
  - by rewrite Hsrc.
  - rewrite Hkept; [done | apply under_refl].
  - split.
    + intros k Hk. by rewrite Hf2, Hkept.
    + intros Hfile. apply Hv2.
      * unfold is_dir in *. by rewrite Hsrc.
      * apply elem_of_glob_star. split.
        -- specialize (Hsrc []). rewrite app_nil_r in Hsrc. by rewrite Hsrc.
        -- by rewrite Hsrc.
Qed.

(** X3: a kind mismatch is never repaired.  In a well-formed store with
    the roots apart, where one relative path is a file under one root and a
    directory under the other, a pass of any depth, however it ends, leaves
    the replica's entry at that path, and everything below it, as it
    was. *)
Theorem kind_mismatch_is_left (depth : nat) sp rp f n q (es er : entry) :
  well_formed f = true → apart sp rp = true → same_kind es er = false →
  f !! (sp ++ n :: q) = Some es → f !! (rp ++ n :: q) = Some er →
  final (synchronize depth sp rp f) !! (rp ++ n :: q) = Some er ∧
  (∀ k, under (rp ++ n :: q) k = true →
     final (synchronize depth sp rp f) !! k = f !! k).
Proof.
  intros Hwf%well_formed_spec Hap Hkind Hs Hr.
  destruct (synchronize_mismatch depth sp rp f n q es er Hwf Hap Hkind Hs Hr) as [H _].
  split; [|done]. rewrite <- Hr. apply H, under_refl.
Qed.

Lemma kind_mismatch_is_left_witness :
  well_formed mismatched = true ∧ apart ["source"] ["replica"] = true ∧
  mismatched !! ["source"; "d"] = Some EDir ∧
  mismatched !! ["replica"; "d"] = Some (EFile (bytes_of "data") 420) ∧
  final (synchronize 5 ["source"] ["replica"] mismatched) !! ["replica"; "d"]
  = Some (EFile (bytes_of "data") 420).
Proof.
  split; [vm_compute; reflexivity|]. split; [vm_compute; reflexivity|].
  split; [vm_compute; reflexivity|]. split; [vm_compute; reflexivity|].
  destruct (kind_mismatch_is_left 5 ["source"] ["replica"] mismatched "d" []
              EDir (EFile (bytes_of "data") 420)) as [H _].
  - vm_compute; reflexivity.
  - vm_compute; reflexivity.
  - vm_compute; reflexivity.
  - vm_compute; reflexivity.
  - vm_compute; reflexivity.
  - exact H.
Defined.

(** X4: a file of the source whose place in the replica is taken by a
    directory.  In a well-formed store with the roots apart, a pass of any
    depth does not return: it ends with an exception (at the latest the
    [IsADirectoryError] of reading the replica's entry as a file), and the
    replica's directory is still there. *)
Theorem file_over_directory_raises (depth : nat) sp rp f n q d m :
  well_formed f = true → apart sp rp = true →
  f !! (sp ++ n :: q) = Some (EFile d m) → f !! (rp ++ n :: q) = Some EDir →
  (∃ e, value (synchronize depth sp rp f) = Raise e) ∧
  final (synchronize depth sp rp f) !! (rp ++ n :: q) = Some EDir.
Proof.
  intros Hwf%well_formed_spec Hap Hs Hr.
  destruct (synchronize_mismatch depth sp rp f n q (EFile d m) EDir Hwf Hap eq_refl Hs Hr)
    as [Hf Hv].
  split.
  - apply Hv. unfold is_dir. by rewrite Hs.
  - rewrite <- Hr. apply Hf, under_refl.
Qed.

Lemma file_over_directory_raises_witness :
  well_formed clash = true ∧ apart ["source"] ["replica"] = true ∧
  clash !! ["source"; "x"] = Some (EFile (bytes_of "text") 420) ∧
  clash !! ["replica"; "x"] = Some EDir ∧
  ∃ e, value (synchronize 5 ["source"] ["replica"] clash) = Raise e.
Proof.
  split; [vm_compute; reflexivity|]. split; [vm_compute; reflexivity|].
  split; [vm_compute; reflexivity|]. split; [vm_compute; reflexivity|].
  destruct (file_over_directory_raises 5 ["source"] ["replica"] clash "x" []
              (bytes_of "text") 420) as [H _].
  - vm_compute; reflexivity.
  - vm_compute; reflexivity.
  - vm_compute; reflexivity.
  - vm_compute; reflexivity.
  - exact H.
Defined.

(** The exception of that pass on [clash]. *)
Example clash_raises :
  synchronize 5 ["source"] ["replica"] clash =
  Run [Log INFO (Checking ["replica"] ["source"])] clash (Raise IsADirectoryError).
Proof. vm_compute. reflexivity. Qed.

(** ** Every change is announced *)

Lemma announced_app t t' :
  announced t = true → announced t' = true → announced (t ++ t') = true.
Proof.
  intros Ht Ht'. remember (length t) as j eqn:Hj. revert t Hj Ht.
  induction j as [j IH] using lt_wf_ind. intros t -> Ht.
  destruct t as [|[[] m|c] t]; [done| | |].
  - simpl in *. apply (IH (length t)); [simpl; lia | done | done].
  - destruct t as [|[|c] t]; [done..|].
    simpl in *. apply andb_true_iff in Ht as [-> Ht]. simpl.
    apply (IH (length t)); [simpl; lia | done | done].
  - destruct c; [done..|]. simpl in *.
    apply (IH (length t)); [simpl; lia | done | done].
Qed.

(** What [announced] says of each call and of each [WARNING] record. *)
Lemma announced_inv t :
  announced t = true →
  (∀ t1 c t2, t = t1 ++ Call c :: t2 → (∀ s, c ≠ Sleep s) →
     ∃ t0 m, t1 = t0 ++ [Log WARNING m] ∧ announces m c = true) ∧
  (∀ t1 m t2, t = t1 ++ Log WARNING m :: t2 →
     ∃ c t3, t2 = Call c :: t3 ∧ announces m c = true).
Proof.
  remember (length t) as j eqn:Hj. revert t Hj.
  induction j as [j IH] using lt_wf_ind. intros t -> Ht.
  destruct t as [|[[] m|c] t].
  - split; intros [|? ?] ? ? E; discriminate E.
  - destruct (IH (length t) ltac:(simpl; lia) t eq_refl Ht) as [IH1 IH2].
    split.
    + intros [|it t1] c t2 E Hc; [discriminate E|]. injection E as <- ->.
      destruct (IH1 t1 c t2 eq_refl Hc) as (t0 & m0 & -> & Hm).
      by exists (Log INFO m :: t0), m0.
    + intros [|it t1] m0 t2 E; [discriminate E|]. injection E as <- ->.
      by apply (IH2 t1).
  - destruct t as [|[|c] t]; [done..|].
    simpl in Ht. apply andb_true_iff in Ht as [Hm Ht].
    destruct (IH (length t) ltac:(simpl; lia) t eq_refl Ht) as [IH1 IH2].
    split.
    + intros [|it [|it' t1]] c0 t2 E Hc; [discriminate E| |].
      * injection E as <- <- <-. by exists [], m.
      * injection E as <- <- ->.
        destruct (IH1 t1 c0 t2 eq_refl Hc) as (t0 & m0 & -> & Hm0).
        by exists (Log WARNING m :: Call c :: t0), m0.
    + intros [|it [|it' t1]] m0 t2 E; [|discriminate E|].
      * injection E as <- <-. by exists c, t.
      * injection E as <- <- ->. by apply (IH2 t1).
  - destruct c as [p|p|p|src dst|s]; [done..|]. simpl in Ht.
    destruct (IH (length t) ltac:(simpl; lia) t eq_refl Ht) as [IH1 IH2].
    split.
    + intros [|it t1] c t2 E Hc.
      * injection E as <- <-. by destruct (Hc s).
      * injection E as <- ->.
        destruct (IH1 t1 c t2 eq_refl Hc) as (t0 & m0 & -> & Hm).
        by exists (Call (Sleep s) :: t0), m0.
    + intros [|it t1] m0 t2 E; [discriminate E|]. injection E as <- ->.
      by apply (IH2 t1).
Qed.

Lemma announced_removal g p : announced (removal g p) = true.
Proof.
  unfold removal. destruct (g !! p) as [[]|]; simpl; [| |done];
    by rewrite bool_decide_eq_true_2.
Qed.

Lemma announced_for_each {X : Type} (l : list X) (body : X → M unit) :
  (∀ a g, announced (trace (body a g)) = true) →
  ∀ g, announced (trace (for_each l body g)) = true.
Proof.
  intros Hbody. induction l as [|a l IH]; intros g; [done|].
  rewrite for_each_cons, bind_unfold. specialize (Hbody a g).
  destruct (body a g) as [t g' [[]| |]]; cbn [prepend trace value final] in *; try done.
  by apply announced_app.
Qed.

Lemma announced_sync_object (recurse : list string → list string → M unit) sp rp n g :
  (∀ s r g', announced (trace (recurse s r g')) = true) →
  announced (trace (sync_object recurse sp rp n g)) = true.
Proof.
  intros Hrec. destruct (is_dir (sp ++ [n]) g) eqn:Hd.
  - destruct (sync_dir_trace recurse sp rp n g Hd) as (t0 & sub & -> & Ht0 & Hsub).
    apply announced_app.
    + destruct Ht0 as [->| ->]; [done|]. simpl. by rewrite bool_decide_eq_true_2.
    + destruct Hsub as [->|[g' ->]]; [done | apply Hrec].
  - destruct (sync_file_trace recurse sp rp n g Hd) as [->|[->| ->]]; [done| |];
      simpl; by rewrite bool_decide_eq_true_2.
Qed.

Lemma announced_synchronize depth :
  ∀ sp rp f, announced (trace (synchronize depth sp rp f)) = true.
Proof.
  induction depth as [|depth IH]; intros sp rp f; [done|].
  destruct (pass_split depth sp rp f) as [-> _]. cbn [announced].
  apply announced_app.
  - rewrite removing_unfold. apply announced_for_each.
    intros x g. rewrite remove_old_trace. apply announced_removal.
  - rewrite synchronizing_unfold. apply announced_for_each.
    intros n g. by apply announced_sync_object.
Qed.


Lemma announced_polling cycles depth sp rp (poll : Z) :
  ∀ f, announced (trace (polling cycles depth sp rp poll f)) = true.
Proof.
  induction cycles as [|cycles IH]; intros f; [done|].
  rewrite polling_unfold, bind_unfold.
  pose proof (announced_synchronize depth sp rp f) as Hs.
  destruct (synchronize depth sp rp f) as [t g [[]| |]];
    cbn [prepend trace value final] in *; try done.
  apply announced_app; [done|].
  rewrite bind_log. cbn [prepend trace announced]. rewrite bind_unfold.
  pose proof (sleep_trace poll g) as Ht.
  destruct (sleep poll g) as [t' g' [[]| |]]; cbn [prepend trace value final] in *;
    subst t'; try done.
  cbn [app announced]. apply IH.
Qed.

(** X5: in what a pass does, every call that writes, deletes or creates
    ([rmtree], [unlink], [mkdir], [copy]) comes right after a [WARNING]
    record that names its target ([Removing], [Creating], [Updating] or
    [Adding]), and every [WARNING] record is followed at once by the call it
    announces, whether that call succeeds or raises. *)
Theorem every_change_is_announced depth sp rp f :
  announced (trace (synchronize depth sp rp f)) = true ∧
  (∀ t1 c t2, trace (synchronize depth sp rp f) = t1 ++ Call c :: t2 →
     ∃ t0 m, t1 = t0 ++ [Log WARNING m] ∧ announces m c = true ∧
             message_path m = call_target c) ∧
  (∀ t1 m t2, trace (synchronize depth sp rp f) = t1 ++ Log WARNING m :: t2 →
     ∃ c t3, t2 = Call c :: t3 ∧ announces m c = true).
Proof.
  pose proof (announced_synchronize depth sp rp f) as H.
  destruct (announced_inv _ H) as [H1 H2].
  split_and!; [done | | done].
  intros t1 c t2 E. destruct (H1 t1 c t2 E) as (t0 & m & -> & Hm).
  - intros s ->.
    assert (Hin : Call (Sleep s) ∈ trace (synchronize depth sp rp f)).
    { rewrite E. apply elem_of_app. right. left. }
    pose proof (synchronize_confined depth sp rp f) as [_ Hall].
    rewrite Forall_forall in Hall. by destruct (Hall _ Hin) as (p & Hp & _).
  - exists t0, m. split_and!; [done | done |].
    destruct m, c; try done; simpl in Hm; by apply bool_decide_eq_true in Hm as ->.
Qed.

(** X6: the one change [main] makes without a record is the creation of
    the replica root.  What [main] does is that [mkdir], when the source
    root exists and the replica root does not, followed by passes and
    sleeps in which every change is announced. *)
Theorem replica_root_is_made_silently cycles depth sp rp (poll : Z) f :
  ∃ t, trace (main cycles depth sp rp poll f) =
       (if exists_ sp f && negb (exists_ rp f) then [Call (Mkdir rp)] else []) ++ t ∧
       announced t = true.
Proof.
  assert (Hrest : ∀ g, announced (trace
            ((if bool_decide (0 = poll) then synchronize depth sp rp
              else polling cycles depth sp rp poll) g)) = true).
  { intros g. destruct (bool_decide (0 = poll));
      [apply announced_synchronize | apply announced_polling]. }
  destruct (exists_ sp f) eqn:Hs.
  - destruct (exists_ rp f) eqn:Hr; cbn [andb negb].
    + rewrite main_replica_exists by done. eexists. split; [done|].
      specialize (Hrest f). by destruct (bool_decide (0 = poll)).
    + rewrite main_replica_missing by done. rewrite bind_unfold.
      pose proof (mkdir_trace rp f) as Ht.
      destruct (mkdir rp f) as [t g [[]| |]]; cbn [prepend trace value final] in *;
        subst t.
      * eexists. split; [done | apply Hrest].
      * by exists [].
      * by exists [].
  - rewrite main_source_missing by done. by exists [].
Qed.

(** ** What the handlers write *)

Lemma journal_of_announced t :
  announced t = true →
  Forall2 (λ (r : level * message) (c : call), r.1 = WARNING ∧ announces r.2 c = true)
    (handled 3 t) (changes t).
Proof.
  remember (length t) as j eqn:Hj. revert t Hj.
  induction j as [j IH] using lt_wf_ind. intros t -> Ht.
  destruct t as [|[[] m|c] t]; [constructor| | |].
  - exact (IH (length t) ltac:(simpl; lia) t eq_refl Ht).
  - destruct t as [|[|c] t]; [done..|].
    simpl in Ht. apply andb_true_iff in Ht as [Hm Ht].
    assert (changes (Log WARNING m :: Call c :: t) = c :: changes t) as ->
      by by destruct m, c.
    change (handled 3 (Log WARNING m :: Call c :: t)) with ((WARNING, m) :: handled 3 t).
    constructor; [done|]. exact (IH (length t) ltac:(simpl; lia) t eq_refl Ht).
  - destruct c as [p|p|p|src dst|s]; [done..|].
    exact (IH (length t) ltac:(simpl; lia) t eq_refl Ht).
Qed.

Lemma handled_silent (verbosity : Z) t :
  (3 ≤ verbosity → Forall (λ it, ∀ m, it ≠ Log WARNING m) t → handled verbosity t = []) ∧
  (4 ≤ verbosity → handled verbosity t = []).
Proof.
  split.
  - intros Hv. induction 1 as [|it t Hit _ IH]; [done|].
    destruct it as [[] m|c]; simpl; [|by destruct (Hit m)|done].
    unfold handles, handler_level, logger_level. simpl.
    destruct (verbosity * 10 <=? 20) eqn:E; [apply Z.leb_le in E; lia | done].
  - intros Hv. induction t as [|it t IH]; [done|].
    destruct it as [l m|c]; simpl; [|done].
    unfold handles, handler_level, logger_level.
    destruct (verbosity * 10 <=? levelno l) eqn:E; [|by rewrite andb_false_r].
    apply Z.leb_le in E. destruct l; simpl in E; lia.
Qed.

(** X7: the log as a journal.  At the default verbosity 3 the records the
    handlers write during a pass are, one for one and in order, the
    [WARNING] records of the changes the pass attempts; with a verbosity of
    4 or 5 the handlers write nothing, whatever the pass does. *)
Theorem log_is_the_journal_of_changes depth sp rp f :
  Forall2 (λ (r : level * message) (c : call), r.1 = WARNING ∧ announces r.2 c = true)
    (handled 3 (trace (synchronize depth sp rp f)))
    (changes (trace (synchronize depth sp rp f))) ∧
  length (handled 3 (trace (synchronize depth sp rp f)))
  = length (changes (trace (synchronize depth sp rp f))) ∧
  (∀ verbosity, 4 ≤ verbosity →
     handled verbosity (trace (synchronize depth sp rp f)) = []).
Proof.
  pose proof (journal_of_announced _ (announced_synchronize depth sp rp f)) as H.
  split_and!; [done | by eapply Forall2_length |].
  intros verbosity Hv. by apply (proj2 (handled_silent verbosity _)).
Qed.

Lemma polling_mirrored cycles depth sp rp (poll : Z) f :
  mirrors sp rp f → f !! sp = Some EDir →
  final (polling cycles depth sp rp poll f) = f ∧
  Forall (λ it, ∀ m, it ≠ Log WARNING m) (trace (polling cycles depth sp rp poll f)) ∧
  changes (trace (polling cycles depth sp rp poll f)) = [].
Proof.
  intros Hm Hs.
  destruct (synchronize_mirrored depth sp rp f Hm Hs) as (Hf & Ht & _).
  assert (Ht1 : Forall (λ it, ∀ m, it ≠ Log WARNING m) (trace (synchronize depth sp rp f))).
  { eapply Forall_impl; [exact Ht|]. by intros it (r & s & ->) m. }
  assert (Ht2 : changes (trace (synchronize depth sp rp f)) = []).
  { clear -Ht. induction Ht as [|it t (r & s & ->) _ IH]; [done | exact IH]. }
  induction cycles as [|cycles IH]; [done|].
  destruct (value (synchronize depth sp rp f)) as [[]|e|] eqn:Hv.
  2,3: by rewrite polling_unfold, bind_unfold, Hv, Hf.
  rewrite polling_unfold, bind_unfold, Hv, Hf, bind_log, bind_unfold.
  pose proof (sleep_trace poll f) as Hst. pose proof (sleep_final poll f) as Hsf.
  destruct IH as (IH1 & IH2 & IH3).
  destruct (sleep poll f) as [t' g' [[]| |]]; cbn [prepend trace value final] in *;
    subst t' g'.
  - split_and!; [done | |].
    + apply Forall_app. split; [done|]. by repeat constructor.
    + unfold changes in *. rewrite omap_app, Ht2. simpl. exact IH3.
  - split_and!; [done | |].
    + apply Forall_app. split; [done|]. by repeat constructor.
    + unfold changes in *. by rewrite omap_app, Ht2.
  - split_and!; [done | |].
    + apply Forall_app. split; [done|]. by repeat constructor.
    + unfold changes in *. by rewrite omap_app, Ht2.
Qed.

(** X8: watching a replica that is in sync.  From a store whose replica
    tree mirrors its source tree, and whose source is a directory shallower
    than the recursion limit, [main] with a verbosity of 3 or more has its
    handlers write nothing, in one pass or in any number of rounds of the
    polling loop, changes nothing and makes no call that writes. *)
Theorem in_sync_run_is_silent cycles depth sp rp (poll verbosity : Z) f :
  mirrorsb sp rp f = true → is_dir sp f = true → shallower sp depth f = true →
  3 ≤ verbosity →
  handled verbosity (trace (main cycles depth sp rp poll f)) = [] ∧
  changes (trace (main cycles depth sp rp poll f)) = [] ∧
  final (main cycles depth sp rp poll f) = f.
Proof.
  intros Hm%mirrorsb_spec Hs%is_dir_true Hd Hv.
  assert (Hr : exists_ rp f = true).
  { destruct (mirrors_lookup sp rp f [] EDir Hm) as (e' & He' & _).
    - by rewrite app_nil_r.
    - rewrite app_nil_r in He'. unfold exists_. by rewrite He'. }
  rewrite main_replica_exists; [|unfold exists_; by rewrite Hs|done].
  destruct (bool_decide (0 = poll)).
  - destruct (synchronize_mirrored depth sp rp f Hm Hs) as (Hf & Ht & _).
    split_and!; [| |done].
    + apply (proj1 (handled_silent verbosity _)); [done|].
      eapply Forall_impl; [exact Ht|]. by intros it (r & s & ->) m.
    + clear -Ht. induction Ht as [|it t (r & s & ->) _ IH]; [done | exact IH].
  - destruct (polling_mirrored cycles depth sp rp poll f Hm Hs) as (Hf & Ht & Hc).
    split_and!; [|done..]. by apply (proj1 (handled_silent verbosity _)).
Qed.

Lemma in_sync_run_is_silent_witness :
  mirrorsb ["source"] ["replica"] in_sync = true ∧
  handled 3 (trace (main 4 5 ["source"] ["replica"] 10 in_sync)) = [] ∧
  final (main 4 5 ["source"] ["replica"] 10 in_sync) = in_sync.
Proof.
  split; [vm_compute; reflexivity|].
  destruct (in_sync_run_is_silent 4 5 ["source"] ["replica"] 10 3 in_sync)
    as (Hh & _ & Hf).
  - vm_compute; reflexivity.
  - vm_compute; reflexivity.
  - vm_compute; reflexivity.
  - lia.
  - split; [exact Hh | exact Hf].
Defined.

(** ** The driver at its edges *)

(** X9: a negative poll interval.  [main] takes the polling branch for any
    interval but 0; with a negative one, and both roots there, a first pass
    that returns is followed by the record of the sleep and by the call of
    [sleep], which raises: [ValueError] down to -9223372036 seconds,
    [OverflowError] below, where the interval does not fit the clock.  One
    pass is made and the driver ends with that exception. *)
Theorem negative_interval_ends_at_the_sleep cycles depth sp rp (poll : Z) f :
  poll < 0 → exists_ sp f = true → exists_ rp f = true →
  value (synchronize depth sp rp f) = Ret tt →
  main (S cycles) depth sp rp poll f =
  Run (trace (synchronize depth sp rp f) ++
       [Log INFO (EnteringSleep poll); Call (Sleep poll)])
      (final (synchronize depth sp rp f))
      (Raise (if poll <? -9223372036 then OverflowError else ValueError)).
Proof.
  intros Hpoll Hs Hr Hv. rewrite main_replica_exists by done.
  rewrite bool_decide_eq_false_2 by lia.
  apply polling_sleep_raises; [done|].
  destruct (Z.ltb_spec poll (-9223372036)).
  - rewrite sleep_run_overflow by lia. done.
  - rewrite sleep_run_negative by lia. done.
Qed.

Lemma negative_interval_ends_at_the_sleep_witness :
  exists_ ["source"] in_sync = true ∧ exists_ ["replica"] in_sync = true ∧
  value (main 3 5 ["source"] ["replica"] (-1) in_sync) = Raise ValueError ∧
  value (main 3 5 ["source"] ["replica"] (-9223372037) in_sync) = Raise OverflowError.
Proof.
  split; [vm_compute; reflexivity|]. split; [vm_compute; reflexivity|].
  split.
  - rewrite (negative_interval_ends_at_the_sleep 2 5 ["source"] ["replica"] (-1) in_sync).
    + reflexivity.
    + lia.
    + vm_compute; reflexivity.
    + vm_compute; reflexivity.
    + vm_compute; reflexivity.
  - rewrite (negative_interval_ends_at_the_sleep 2 5 ["source"] ["replica"]
               (-9223372037) in_sync).
    + reflexivity.
    + lia.
    + vm_compute; reflexivity.
    + vm_compute; reflexivity.
    + vm_compute; reflexivity.
Defined.



Lemma polling_raises cycles depth sp rp (poll : Z) (e : exn) :
  ∀ j f t f',
  polled depth sp rp poll j f t f' → (j < cycles)%nat →
  value (synchronize depth sp rp f') = Raise e →
  polling cycles depth sp rp poll f =
  Run (t ++ trace (synchronize depth sp rp f')) (final (synchronize depth sp rp f'))
      (Raise e).
Proof.
  intros j f t f' Hpolled. revert cycles.
  induction Hpolled as [f|j f t f' Hv Hsl Hpolled IH]; intros cycles Hj He.
  - destruct cycles as [|cycles]; [lia|].
    by rewrite polling_unfold, bind_unfold, He.
  - destruct cycles as [|cycles]; [lia|].
    apply sleep_returns in Hsl.
    rewrite polling_step by done. rewrite (IH cycles) by (done || lia).
    unfold prepend. simpl. by rewrite <- !app_assoc.
Qed.

(** X11: the polling loop has no handler.  With a positive interval and
    both roots there, after any number of rounds that returned, an
    exception of the next pass ends [main] with that exception, right after
    what that pass did: there is no record of it, no sleep and no further
    round. *)
Theorem first_exception_ends_the_polling cycles depth sp rp (poll : Z) f :
  0 < poll → exists_ sp f = true → exists_ rp f = true →
  ∀ j t f' (e : exn),
    polled depth sp rp poll j f t f' → (j < cycles)%nat →
    value (synchronize depth sp rp f') = Raise e →
    main cycles depth sp rp poll f =
    Run (t ++ trace (synchronize depth sp rp f')) (final (synchronize depth sp rp f'))
        (Raise e).
Proof.
  intros Hpoll Hs Hr j t f' e Hpolled Hj He.
  rewrite main_replica_exists by done. rewrite bool_decide_eq_false_2 by lia.
  apply (polling_raises cycles depth sp rp poll e j f t f'); done.
Qed.

Lemma first_exception_ends_the_polling_witness :
  exists_ ["source"] clash = true ∧ exists_ ["replica"] clash = true ∧
  main 3 5 ["source"] ["replica"] 10 clash =
  Run [Log INFO (Checking ["replica"] ["source"])] clash (Raise IsADirectoryError).
Proof.
  split; [vm_compute; reflexivity|]. split; [vm_compute; reflexivity|].
  rewrite (first_exception_ends_the_polling 3 5 ["source"] ["replica"] 10 clash
             ltac:(lia) ltac:(vm_compute; reflexivity) ltac:(vm_compute; reflexivity)
             0%nat [] clash IsADirectoryError).
  - vm_compute; reflexivity.
  - apply polled_O.
  - lia.
  - vm_compute; reflexivity.
Defined.

(** ** One folder as source and as replica *)

(** X12: [synchronize] with one path for both folders.  When that path is
    a directory shallower than the recursion limit, the two listings are
    equal and every file has the digest of itself: the pass leaves the store
    as it was, makes no call that writes and reports only the directories it
    checks.  It returns when every file below the path can be read; a file
    that cannot ends it with [PermissionError], the rest being as said. *)
Theorem same_folder_is_left_alone depth p f :
  is_dir p f = true → shallower p depth f = true →
  (permitted p p f = true → value (synchronize depth p p f) = Ret tt) ∧
  (value (synchronize depth p p f) = Ret tt ∨
   value (synchronize depth p p f) = Raise PermissionError) ∧
  final (synchronize depth p p f) = f ∧
  changes (trace (synchronize depth p p f)) = [] ∧
  Forall (λ it, ∃ r s, it = Log INFO (Checking r s)) (trace (synchronize depth p p f)).
Proof.
  intros Hp%is_dir_true Hd.
  assert (Hm : mirrors p p f) by by intros q.
  destruct (synchronize_mirrored depth p p f Hm Hp) as (Hf & Ht & Hv).
  destruct Hv as [Hv1 Hv2]; [by apply shallower_spec|].
  split_and!; [| done | done | | done].
  - intros Hperm. by apply Hv2, permitted_mirrored.
  - clear -Ht. induction Ht as [|it t (r & s & ->) _ IH]; [done | exact IH].
Qed.

Lemma same_folder_is_left_alone_witness :
  is_dir ["source"] demo = true ∧ shallower ["source"] 5 demo = true ∧
  permitted ["source"] ["source"] demo = true ∧
  value (synchronize 5 ["source"] ["source"] demo) = Ret tt ∧
  final (synchronize 5 ["source"] ["source"] demo) = demo.
Proof.
  split; [vm_compute; reflexivity|]. split; [vm_compute; reflexivity|].
  split; [vm_compute; reflexivity|].
  destruct (same_folder_is_left_alone 5 ["source"] demo) as (Hv & _ & H & _).
  - vm_compute; reflexivity.
  - vm_compute; reflexivity.
  - split; [apply Hv; vm_compute; reflexivity | exact H].
Defined.

(** ** Adding and checking *)

(** X13: a file of the source that the replica lacks.  Under the
    conditions of the pass, by which every file of the source can be read,
    the pass returns, what it reports about the replica path is one [Adding]
    record and the copy it announces, and the replica then holds the file
    with the bytes and the mode of the source file. *)
Theorem missing_file_added_once sp rp depth f q d m :
  ready sp rp depth f = true →
  f !! (sp ++ q) = Some (EFile d m) → f !! (rp ++ q) = None →
  value (synchronize depth sp rp f) = Ret tt ∧
  filter (about (rp ++ q)) (trace (synchronize depth sp rp f)) =
    [Log WARNING (Adding (rp ++ q)); Call (Copy (sp ++ q) (rp ++ q))] ∧
  final (synchronize depth sp rp f) !! (rp ++ q) = Some (EFile d m).
Proof.
  intros Hready Hs Hr. pose proof (ready_good _ _ _ _ Hready) as Hgood.
  destruct (synchronize_pass_spec depth sp rp f Hgood) as (Hv & Hf & Ht).
  split_and!; [done | |].
  - rewrite Ht. unfold actions. by rewrite Hs, Hr.
  - rewrite Hf. unfold synced. by rewrite Hs, Hr.
Qed.

Lemma missing_file_added_once_witness :
  ready ["source"] ["replica"] 5 demo = true ∧
  demo !! ["replica"; "sub"; "b.txt"] = None ∧
  final (synchronize 5 ["source"] ["replica"] demo) !! ["replica"; "sub"; "b.txt"]
  = Some (EFile (bytes_of "world") 420).
Proof.
  split; [vm_compute; reflexivity|]. split; [vm_compute; reflexivity|].
  destruct (missing_file_added_once ["source"] ["replica"] 5 demo ["sub"; "b.txt"]
              (bytes_of "world") 420) as (_ & _ & H).
  - vm_compute; reflexivity.
  - vm_compute; reflexivity.
  - vm_compute; reflexivity.
  - exact H.
Defined.

Lemma checking_in_actions sp rp f q r s :
  Log INFO (Checking r s) ∈ actions sp rp f q →
  r = rp ++ q ∧ s = sp ++ q ∧ f !! (sp ++ q) = Some EDir.
Proof.
  unfold actions, removal.
  destruct (f !! (sp ++ q)) as [[d m|]|] eqn:Es,
           (f !! (rp ++ q)) as [[d' m'|]|] eqn:Er;
    try destruct (is_dir _ f); try case_bool_decide;
    rewrite ?elem_of_cons, ?elem_of_nil; intros Hin;
    repeat (destruct Hin as [Hin|Hin]); try done; by injection Hin as <- <-.
Qed.

(** X14: one [Checking] record for each directory of the source.  Under
    the conditions of the pass (a well-formed store, the roots directories
    neither inside the other, one kind on both sides of every common path,
    the source shallower than the recursion limit, the modes letting the
    files be read and written), the record of the check of a replica path
    against the source path of the same place occurs once when that source
    path is a directory and never otherwise, and the pass logs no other
    [Checking] record. *)
Theorem every_source_directory_is_checked_once sp rp depth f :
  ready sp rp depth f = true →
  (∀ q, filter (λ it, it = Log INFO (Checking (rp ++ q) (sp ++ q)))
          (trace (synchronize depth sp rp f))
        = if is_dir (sp ++ q) f then [Log INFO (Checking (rp ++ q) (sp ++ q))] else []) ∧
  (∀ r s, Log INFO (Checking r s) ∈ trace (synchronize depth sp rp f) →
     ∃ q, r = rp ++ q ∧ s = sp ++ q ∧ is_dir (sp ++ q) f = true).
Proof.
  intros Hready. pose proof (ready_good _ _ _ _ Hready) as Hgood.
  destruct (synchronize_pass_spec depth sp rp f Hgood) as (Hv & Hf & Ht).
  split.
  - intros q.
    rewrite <- (list_filter_filter_l (λ it, it = Log INFO (Checking (rp ++ q) (sp ++ q)))
                  (about (rp ++ q))) by (intros it ->; reflexivity).
    rewrite Ht. unfold actions, removal, is_dir.
    destruct (f !! (sp ++ q)) as [[d m|]|] eqn:Es,
             (f !! (rp ++ q)) as [[d' m'|]|] eqn:Er;
      repeat case_match; try done;
      repeat (rewrite filter_cons_False by done);
      try (rewrite filter_cons_True by done); done.
  - intros r s Hin.
    destruct (synchronize_confined depth sp rp f) as [_ Hall].
    rewrite Forall_forall in Hall.
    destruct (Hall _ Hin) as (p & [= <-] & [q ->]%under_spec).
    assert (Hact : Log INFO (Checking (rp ++ q) s) ∈ actions sp rp f q).
    { rewrite <- Ht. by apply list_elem_of_filter. }
    apply checking_in_actions in Hact as (_ & -> & Hd).
    exists q. split_and!; [done | done | by apply is_dir_true].
Qed.

Lemma every_source_directory_is_checked_once_witness :
  ready ["source"] ["replica"] 5 demo = true ∧
  filter (λ it, it = Log INFO (Checking ["replica"; "sub"] ["source"; "sub"]))
    (trace (synchronize 5 ["source"] ["replica"] demo))
  = [Log INFO (Checking ["replica"; "sub"] ["source"; "sub"])].
Proof.
  split; [vm_compute; reflexivity|].
  destruct (every_source_directory_is_checked_once ["source"] ["replica"] 5 demo)
    as [H _]; [vm_compute; reflexivity|].
  exact (H ["sub"]).
Defined.

(** ** The recursion limit *)

Section too_deep.
Variables (depth : nat) (sp rp : list string) (n : string) (ns : list string).
Hypothesis roots_apart : apart sp rp = true.

(** The pass over the first directory of the chain. *)
Hypothesis below : ∀ g, wf g → is_dir ((sp ++ [n]) ++ ns) g = true →
  ∃ e, value (synchronize depth (sp ++ [n]) (rp ++ [n]) g) = Raise e.

Lemma sync_object_too_deep g :
  wf g → is_dir (sp ++ n :: ns) g = true →
  ∃ e, value (sync_object (synchronize depth) sp rp n g) = Raise e.
Proof.
  intros Hwf Hd.
  assert (Hn : is_dir (sp ++ [n]) g = true).
  { destruct ns as [|m0 q']; [done|].
    apply is_dir_true, (wf_ancestor g (sp ++ [n]) m0 q' Hwf).
    rewrite snoc_app. apply is_dir_true in Hd. rewrite Hd. eauto. }
  unfold sync_object. rewrite bind_observe. cbv beta. rewrite Hn.
  rewrite bind_observe. cbv beta. destruct (exists_ (rp ++ [n]) g) eqn:Hex.
  - rewrite bind_ret. apply below; [done | by rewrite snoc_app].
  - rewrite bind_assoc, bind_log, bind_unfold.
    pose proof (keeps_wf_mkdir (rp ++ [n]) g Hwf) as Hwf'.
    pose proof (mkdir_frame (rp ++ [n]) g (sp ++ n :: ns)
                  (apart_neq sp rp (n :: ns) [n] roots_apart)) as Hframe.
    pose proof (halts_mkdir (rp ++ [n]) g) as Hhalts.
    destruct (mkdir (rp ++ [n]) g) as [t g' [[]| |]];
      cbn [prepend value final trace] in *; [|by eauto|done].
    apply below; [done|]. rewrite snoc_app. unfold is_dir in *. by rewrite Hframe.
Qed.

Lemma for_each_too_deep (l : list string) : ∀ g,
  wf g → is_dir (sp ++ n :: ns) g = true → n ∈ l →
  ∃ e, value (for_each l (sync_object (synchronize depth) sp rp) g) = Raise e.
Proof.
  induction l as [|a l IH]; intros g Hwf Hd Hin; [by apply elem_of_nil in Hin|].
  rewrite for_each_cons, bind_unfold.
  destruct (decide (a = n)) as [->|Hne].
  { destruct (sync_object_too_deep g Hwf Hd) as [e He]. rewrite He. eauto. }
  apply elem_of_cons in Hin as [Heq|Hin]; [congruence|].
  assert (Hwf0 : wf (final (sync_object (synchronize depth) sp rp a g))).
  { apply keeps_wf_sync_object; [apply synchronize_keeps_wf | done]. }
  assert (Hd0 : is_dir (sp ++ n :: ns)
                  (final (sync_object (synchronize depth) sp rp a g)) = true).
  { destruct (confined_sync_object (synchronize depth) sp rp a
                (synchronize_confined depth _ _) g) as [H _].
    unfold is_dir in *. rewrite H; [done|]. by apply apart_source_frame. }
  pose proof (halts_sync_object (synchronize depth) sp rp a
                (synchronize_halts depth) g) as Hhalts.
  destruct (value (sync_object (synchronize depth) sp rp a g)) as [[]| |] eqn:Ev;
    cbn [prepend trace final value]; [by apply IH | by eauto | done].
Qed.
End too_deep.

Lemma synchronize_too_deep depth :
  ∀ sp rp f (ns : list string),
  wf f → apart sp rp = true → is_dir (sp ++ ns) f = true → (depth ≤ length ns)%nat →
  ∃ e, value (synchronize depth sp rp f) = Raise e.
Proof.
  induction depth as [|depth IH]; intros sp rp f ns Hwf Hap Hd Hlen; [by eauto|].
  destruct ns as [|n ns]; [simpl in Hlen; lia|].
  assert (Hsrc : ∀ q, final (removing sp rp f) !! (sp ++ q) = f !! (sp ++ q)).
  { intros q. by apply removing_source_kept. }
  assert (Hn : is_Some (f !! (sp ++ [n]))).
  { apply is_dir_true in Hd. destruct ns as [|m0 q']; [eauto|].
    rewrite (wf_ancestor f (sp ++ [n]) m0 q' Hwf); [eauto|].
    rewrite snoc_app, Hd. eauto. }
  rewrite synchronize_unfold, bind_unfold, removing_value, synchronizing_unfold.
  cbn [prepend value].
  apply (for_each_too_deep depth sp rp n ns Hap).
  - intros g Hwfg Hdg. apply (IH _ _ g ns); [done | by apply apart_child | done |].
    simpl in Hlen. lia.
  - by apply keeps_wf_removing.
  - unfold is_dir in *. by rewrite Hsrc.
  - apply elem_of_glob_star. split.
    + specialize (Hsrc []). rewrite app_nil_r in Hsrc. rewrite Hsrc.
      by apply (Hwf sp n).
    + by rewrite Hsrc.
Qed.

(** X15: the recursion limit.  [synchronize] calls itself once for each
    level of directories of the source.  In a well-formed store with the
    roots apart, when the source holds a directory at least as many levels
    below its root as nested calls are allowed, the pass does not return: it
    ends with an exception ([RecursionError] when nothing else fails
    first). *)
Theorem too_deep_a_source_raises depth sp rp f (ns : list string) :
  well_formed f = true → apart sp rp = true →
  is_dir (sp ++ ns) f = true → (depth ≤ length ns)%nat →
  ∃ e, value (synchronize depth sp rp f) = Raise e.
Proof.
  intros Hwf%well_formed_spec Hap Hd Hlen. by apply (synchronize_too_deep depth sp rp f ns).
Qed.

Lemma too_deep_a_source_raises_witness :
  well_formed nested = true ∧ apart ["source"] ["replica"] = true ∧
  is_dir (["source"] ++ ["a"; "b"; "c"]) nested = true ∧
  ∃ e, value (synchronize 3 ["source"] ["replica"] nested) = Raise e.
Proof.
  split; [vm_compute; reflexivity|]. split; [vm_compute; reflexivity|].
  split; [vm_compute; reflexivity|].
  apply (too_deep_a_source_raises 3 ["source"] ["replica"] nested ["a"; "b"; "c"]).
  - vm_compute; reflexivity.
  - vm_compute; reflexivity.
  - vm_compute; reflexivity.
  - simpl. lia.
Defined.

(** On [nested] that exception is the [RecursionError], and one level more
    is enough. *)
Example nested_needs_four_levels :
  value (synchronize 3 ["source"] ["replica"] nested) = Raise RecursionError ∧
  value (synchronize 4 ["source"] ["replica"] nested) = Ret tt.
Proof. split; vm_compute; reflexivity. Qed.

(** ** The pass, path by path *)

(** X16: what a pass does is determined path by path.  Under the
    conditions of the pass (a well-formed store, the roots directories
    neither inside the other, one kind on both sides of every common path,
    the source shallower than the recursion limit, every file of the source
    readable, a file of the replica at the place of one readable, and
    writable when its digest differs), it returns, and for every relative
    path [q] the
    entry it leaves at the replica path and the records and calls it makes
    about that path depend only on the entries at [q] under the two roots
    before the pass (and, for a removal, on the source parent being a
    directory): a source directory is created when the replica lacks the
    path, and checked; a source file is added when the replica lacks the
    path, updated when the replica's file has another MD5 digest, left alone
    otherwise; a replica entry whose path the source lacks is removed with
    the first missing level, and nothing is said about deeper ones. *)
Theorem pass_is_determined_path_by_path sp rp depth f :
  ready sp rp depth f = true →
  value (synchronize depth sp rp f) = Ret tt ∧
  (∀ q, final (synchronize depth sp rp f) !! (rp ++ q) =
     match f !! (sp ++ q) with
     | None => None
     | Some EDir => Some EDir
     | Some (EFile d m) =>
       match f !! (rp ++ q) with
       | Some (EFile d' m') =>
         if bool_decide (MD5.hexdigest d ≠ MD5.hexdigest d')
         then Some (EFile d m) else Some (EFile d' m')
       | _ => Some (EFile d m)
       end
     end) ∧
  (∀ q, filter (about (rp ++ q)) (trace (synchronize depth sp rp f)) =
     match f !! (sp ++ q), f !! (rp ++ q) with
     | None, Some e =>
       if is_dir (parent (sp ++ q)) f
       then [Log WARNING (Removing (rp ++ q));
             Call (match e with EDir => Rmtree (rp ++ q) | EFile _ _ => Unlink (rp ++ q) end)]
       else []
     | None, None => []
     | Some EDir, None =>
       [Log WARNING (Creating (rp ++ q)); Call (Mkdir (rp ++ q));
        Log INFO (Checking (rp ++ q) (sp ++ q))]
     | Some EDir, Some _ => [Log INFO (Checking (rp ++ q) (sp ++ q))]
     | Some (EFile _ _), None =>
       [Log WARNING (Adding (rp ++ q)); Call (Copy (sp ++ q) (rp ++ q))]
     | Some (EFile d _), Some (EFile d' _) =>
       if bool_decide (MD5.hexdigest d ≠ MD5.hexdigest d')
       then [Log WARNING (Updating (rp ++ q)); Call (Copy (sp ++ q) (rp ++ q))] else []
     | Some (EFile _ _), Some EDir => []
     end).
Proof.
  intros Hready. pose proof (ready_good _ _ _ _ Hready) as Hgood.
  destruct (synchronize_pass_spec depth sp rp f Hgood) as (Hv & Hf & Ht).
  split_and!; [done | exact Hf |].
  intros q. rewrite Ht. unfold actions, removal.
  destruct (f !! (sp ++ q)) as [[d m|]|], (f !! (rp ++ q)) as [[d' m'|]|]; try done;
    by destruct (is_dir (parent (sp ++ q)) f).
Qed.

Lemma pass_is_determined_path_by_path_witness :
  ready ["source"] ["replica"] 5 demo = true ∧
  filter (about ["replica"; "old.txt"]) (trace (synchronize 5 ["source"] ["replica"] demo)) =
    [Log WARNING (Removing ["replica"; "old.txt"]); Call (Unlink ["replica"; "old.txt"])] ∧
  final (synchronize 5 ["source"] ["replica"] demo) !! ["replica"; "old.txt"] = None.
Proof.
  split; [vm_compute; reflexivity|].
  destruct (pass_is_determined_path_by_path ["source"] ["replica"] 5 demo)
    as (_ & Hf & Ht); [vm_compute; reflexivity|].
  split; [exact (Ht ["old.txt"]) | exact (Hf ["old.txt"])].
Defined.
